(** * Index query fan-out, deduplication and parallel chunk fetching

    A shallow embedding of the core of the index-and-chunk query engine:

    - [pkg/storage/tsdb/index.go]: [ChunkRef] and its comparator [Less],
      the [Index] contract;
    - [pkg/storage/stores/shipper/util/queries.go]: [QueriesByTable],
      [DoParallelQueries], [IndexDeduper] and the filtering batch iterator;
    - [pkg/storage/chunk/util/parallel_chunk_fetch.go]: [GetParallelChunks].

    Sequential code is embedded as Rocq functions with explicit state
    passing.  Goroutines are embedded as small-step machines whose steps
    are the atomic actions of the source (a critical section of the
    deduper, a rendezvous on an unbuffered channel); a run is driven by a
    schedule, the list of actions the Go runtime happened to pick, and the
    theorems quantify over every schedule. *)

From stdpp Require Import list gmap strings sorting.

Local Open Scope Z_scope.

(** Go's [error] interface: [None] is [nil], [Some msg] a non-nil error. *)
Definition error : Type := option string.

(* ===================================================================== *)
(** ** tsdb/index.go: chunk references                                     *)
(* ===================================================================== *)

Module Tsdb.

(** [model.Time] is an [int64] (milliseconds), [model.Fingerprint] a
    [uint64], [Checksum] a [uint32].  [Less] only compares, it does no
    arithmetic, so the integers are carried as [Z] within their range. *)
Record ChunkRef : Type := mkChunkRef {
  User : string;
  Fingerprint : Z;
  Start : Z;
  End : Z;
  Checksum : Z
}.

(** [func (r ChunkRef) Less(x ChunkRef) bool] *)
Definition Less (r x : ChunkRef) : bool :=
  if negb (Start r =? Start x) then Start r <? Start x
  else End r <=? End x.

(** A slice is sorted by [Less] when no element precedes one it is not
    [Less] than: adjacent elements are related by the comparator. *)
Fixpoint sorted_by (less : ChunkRef -> ChunkRef -> bool) (l : list ChunkRef) : bool :=
  match l with
  | [] => true
  | a :: tl =>
      match tl with
      | [] => true
      | b :: _ => less a b && sorted_by less tl
      end
  end.

(** Start times along a slice. *)
Definition starts (l : list ChunkRef) : list Z := map Start l.

(** Sorting with [Less] as the comparison.  The callers hand [Less] to
    Go's [sort] package, which is outside the repository; an insertion
    sort whose only comparison is [Less] stands for it. *)
Fixpoint insert_by_Less (a : ChunkRef) (l : list ChunkRef) : list ChunkRef :=
  match l with
  | [] => [a]
  | b :: tl => if Less a b then a :: b :: tl else b :: insert_by_Less a tl
  end.

Fixpoint sort_by_Less (l : list ChunkRef) : list ChunkRef :=
  match l with
  | [] => []
  | a :: tl => insert_by_Less a (sort_by_Less tl)
  end.

Lemma Less_spec (a b : ChunkRef) :
  Less a b = true <-> Start a < Start b \/ (Start a = Start b /\ End a <= End b).
Proof.
  unfold Less.
  destruct (Z.eqb_spec (Start a) (Start b)) as [Heq | Hne]; simpl.
  - rewrite Z.leb_le. lia.
  - rewrite Z.ltb_lt. lia.
Qed.

Lemma Less_refl (r : ChunkRef) : Less r r = true.
Proof. apply Less_spec. right. split; [reflexivity | lia]. Qed.

Lemma Less_total (a b : ChunkRef) : Less a b = true \/ Less b a = true.
Proof. rewrite !Less_spec. lia. Qed.

Lemma Less_Start_le (a b : ChunkRef) : Less a b = true -> Start a <= Start b.
Proof. rewrite Less_spec. lia. Qed.

Lemma sorted_by_Less_starts (l : list ChunkRef) :
  sorted_by Less l = true -> Sorted Z.le (starts l).
Proof.
  induction l as [| a tl IH]; simpl; intros Hs.
  - constructor.
  - destruct tl as [| b tl'].
    + repeat constructor.
    + apply andb_prop in Hs as [Hab Htl].
      constructor.
      * apply IH, Htl.
      * simpl. constructor. apply Less_Start_le, Hab.
Qed.

Lemma insert_by_Less_sorted (a : ChunkRef) (l : list ChunkRef) :
  sorted_by Less l = true -> sorted_by Less (insert_by_Less a l) = true.
Proof.
  induction l as [| b tl IH]; intros Hs; [reflexivity |].
  cbn [insert_by_Less].
  destruct (Less a b) eqn:Hab.
  - cbn [sorted_by]. rewrite Hab. exact Hs.
  - assert (Hba : Less b a = true)
      by (destruct (Less_total a b) as [H | H]; congruence).
    destruct tl as [| c tl'].
    + cbn. rewrite Hba. reflexivity.
    + cbn [sorted_by] in Hs. apply andb_prop in Hs as [Hbc Htl].
      specialize (IH Htl). cbn [insert_by_Less] in *.
      destruct (Less a c) eqn:Hac.
      * cbn [sorted_by] in *. rewrite Hba. exact IH.
      * cbn [sorted_by] in *. rewrite Hbc. exact IH.
Qed.

Lemma insert_by_Less_perm (a : ChunkRef) (l : list ChunkRef) :
  Permutation (insert_by_Less a l) (a :: l).
Proof.
  induction l as [| b tl IH]; cbn [insert_by_Less]; [reflexivity |].
  destruct (Less a b); [reflexivity |].
  rewrite IH. apply perm_swap.
Qed.

Lemma sort_by_Less_sorted (l : list ChunkRef) :
  sorted_by Less (sort_by_Less l) = true.
Proof.
  induction l as [| a tl IH]; [reflexivity |].
  apply insert_by_Less_sorted, IH.
Qed.

Lemma sort_by_Less_perm (l : list ChunkRef) : Permutation (sort_by_Less l) l.
Proof.
  induction l as [| a tl IH]; [reflexivity |].
  cbn [sort_by_Less]. rewrite insert_by_Less_perm, IH. reflexivity.
Qed.

(** C6. [a.Less(b)] holds exactly when [a.Start < b.Start], or the starts
    are equal and [a.End <= b.End]; hence [r.Less(r)] is true for every
    [r], every slice ordered by [Less] has ascending start times, and
    sorting with [Less] as the comparison produces such a slice (a
    permutation of the input). *)
Theorem Less_orders_by_start :
  (forall a b : ChunkRef,
      Less a b = true <-> Start a < Start b \/ (Start a = Start b /\ End a <= End b))
  /\ (forall r : ChunkRef, Less r r = true)
  /\ (forall l : list ChunkRef, sorted_by Less l = true -> Sorted Z.le (starts l))
  /\ (forall l : list ChunkRef,
        Permutation (sort_by_Less l) l /\ Sorted Z.le (starts (sort_by_Less l))).
Proof.
  split; [exact Less_spec |].
  split; [exact Less_refl |].
  split; [exact sorted_by_Less_starts |].
  intros l. split; [apply sort_by_Less_perm |].
  apply sorted_by_Less_starts, sort_by_Less_sorted.
Qed.

Lemma Less_orders_by_start_witness :
  Sorted Z.le
    (starts [mkChunkRef "fake" 1 0 10 1; mkChunkRef "fake" 1 0 20 2;
             mkChunkRef "fake" 2 5 7 3]).
Proof.
  apply (proj1 (proj2 (proj2 Less_orders_by_start))). reflexivity.
Defined.

End Tsdb.

(* ===================================================================== *)
(** ** tsdb/index.go: the [Index] contract and shard annotations           *)
(* ===================================================================== *)

Module Index.

(** Modelled from the spec: [index.ShardAnnotation].  Its declaration, in
    package [pkg/storage/tsdb/index], is missing; the spec gives it as an
    (index, count) pair, the count being a power of two and the index
    ranging over [[0, count)]. *)
Record ShardAnnotation : Type := mkShard {
  shard_index : Z;
  shard_count : Z
}.

(** Modelled from the spec: the validity check of a shard count, which is
    missing: "[shard.count] must be a power of two".  The comment on the
    [Index] interface asks for the same: "any shard used must be a valid
    factor of two, meaning [0_of_2] and [3_of_4] are fine, but [0_of_3] is
    not". *)
Definition is_power_of_two (n : Z) : bool :=
  (0 <? n) && (n =? 2 ^ Z.log2 n).

Inductive outcome (A : Type) : Type :=
| Ok (res : A)
| InvalidShard (s : ShardAnnotation).
Arguments Ok {A} res.
Arguments InvalidShard {A} s.

Section Contract.
(** The backing index: what executing the query against the store
    returns for a user, a time range, an optional shard and matchers. *)
Context {Matcher : Type}.
Variable execute :
  string -> Z -> Z -> option ShardAnnotation -> list Matcher -> list Tsdb.ChunkRef.

(** Number of queries executed against the backing index so far. *)
Definition store : Type := nat.

(** Modelled from the spec: an implementation of [Index.GetChunkRefs];
    [tsdb/index.go] only declares the interface.  Per the spec an invalid
    shard annotation "fails immediately, no partial work attempted", a
    valid one restricts the result to that shard, and a nil shard returns
    all shards. *)
Definition GetChunkRefs (userID : string) (from through : Z)
    (shard : option ShardAnnotation) (matchers : list Matcher)
    (st : store) : outcome (list Tsdb.ChunkRef) * store :=
  match shard with
  | Some s =>
      if is_power_of_two (shard_count s)
      then (Ok (execute userID from through shard matchers), S st)
      else (InvalidShard s, st)
  | None => (Ok (execute userID from through None matchers), S st)
  end.
End Contract.

Lemma is_power_of_two_spec (n : Z) :
  is_power_of_two n = true <-> exists k : Z, 0 <= k /\ n = 2 ^ k.
Proof.
  unfold is_power_of_two. rewrite andb_true_iff, Z.ltb_lt, Z.eqb_eq. split.
  - intros [Hpos Heq]. exists (Z.log2 n). split; [apply Z.log2_nonneg | exact Heq].
  - intros (k & Hk & ->). split.
    + apply Z.pow_pos_nonneg; lia.
    + rewrite Z.log2_pow2 by exact Hk. reflexivity.
Qed.

Example three_is_not_a_power_of_two : is_power_of_two 3 = false.
Proof. reflexivity. Qed.

(** C8. A call to [GetChunkRefs] whose shard annotation has a count that
    is not a power of two (such as [{index:1, count:3}]) is rejected with
    an error and the query is not executed; a count that is a power of
    two is accepted and the query is executed. *)
Theorem GetChunkRefs_rejects_bad_shard :
  forall (Matcher : Type)
         (execute : string -> Z -> Z -> option ShardAnnotation -> list Matcher
                    -> list Tsdb.ChunkRef)
         (userID : string) (from through : Z) (s : ShardAnnotation)
         (matchers : list Matcher) (st : store),
    ((~ exists k : Z, 0 <= k /\ shard_count s = 2 ^ k) ->
       GetChunkRefs execute userID from through (Some s) matchers st
       = (InvalidShard s, st))
    /\ ((exists k : Z, 0 <= k /\ shard_count s = 2 ^ k) ->
         GetChunkRefs execute userID from through (Some s) matchers st
         = (Ok (execute userID from through (Some s) matchers), S st))
    /\ GetChunkRefs execute userID from through (Some (mkShard 1 3)) matchers st
       = (InvalidShard (mkShard 1 3), st).
Proof.
  intros Matcher execute userID from through s matchers st.
  unfold GetChunkRefs. repeat split.
  - intros Hnp. destruct (is_power_of_two (shard_count s)) eqn:Hp; [| reflexivity].
    exfalso. apply Hnp, is_power_of_two_spec, Hp.
  - intros Hp. apply is_power_of_two_spec in Hp. rewrite Hp. reflexivity.
Qed.

Lemma GetChunkRefs_rejects_bad_shard_witness :
  GetChunkRefs (fun _ _ _ _ (_ : list string) => []) "fake" 0 10
    (Some (mkShard 1 3)) [] 0%nat
  = (InvalidShard (mkShard 1 3), 0%nat)
  /\ GetChunkRefs (fun _ _ _ _ (_ : list string) => []) "fake" 0 10
       (Some (mkShard 3 4)) [] 0%nat
     = (Ok [], 1%nat).
Proof.
  split.
  - apply (proj1 (GetChunkRefs_rejects_bad_shard string (fun _ _ _ _ _ => [])
                    "fake" 0 10 (mkShard 1 3) [] 0%nat)).
    intros Hpow. apply is_power_of_two_spec in Hpow. discriminate.
  - apply (proj1 (proj2 (GetChunkRefs_rejects_bad_shard string (fun _ _ _ _ _ => [])
                           "fake" 0 10 (mkShard 3 4) [] 0%nat))).
    exists 2. split; [lia | reflexivity].
Defined.

End Index.

(* ===================================================================== *)
(** ** Types of package [chunk] used by the query executor                 *)
(* ===================================================================== *)

Module Chunk.

(** [chunk.IndexQuery].  Byte slices are carried as strings (sequences
    of bytes). *)
Record IndexQuery : Type := mkIndexQuery {
  TableName : string;
  HashValue : string;
  RangeValuePrefix : string;
  RangeValueStart : string;
  ValueEqual : string;
  Immutable : bool
}.

(** One index entry of a read batch: what [RangeValue()] and [Value()]
    return once [Next()] has moved the iterator onto it. *)
Record Entry : Type := mkEntry {
  RangeValue : string;
  Value : string
}.

(** [chunk.ReadBatch]: a finite batch of entries; every call of
    [Iterator()] starts a fresh forward-only pass over it. *)
Definition ReadBatch : Type := list Entry.

(** [chunk.ReadBatchIterator]: a forward-only cursor, given by the
    entries still ahead of it. *)
Definition ReadBatchIterator : Type := list Entry.

Definition Iterator (b : ReadBatch) : ReadBatchIterator := b.

(** [Next()] of the underlying iterator, together with the entry that
    [RangeValue()] and [Value()] read when it returned [true]; [None]
    is [Next() == false]. *)
Definition Next (it : ReadBatchIterator) : option Entry * ReadBatchIterator :=
  match it with
  | [] => (None, [])
  | e :: tl => (Some e, tl)
  end.

End Chunk.

(* ===================================================================== *)
(** ** shipper/util/queries.go: grouping queries by table                  *)
(* ===================================================================== *)

Module Grouping.
Import Chunk.

(** One iteration of the loop of [QueriesByTable]: create the table's
    slice when the key is missing, then append the query to it. *)
Definition add_query (queriesByTable : gmap string (list IndexQuery))
    (query : IndexQuery) : gmap string (list IndexQuery) :=
  let m1 :=
    match queriesByTable !! TableName query with
    | Some _ => queriesByTable
    | None => <[TableName query := []]> queriesByTable
    end in
  <[TableName query := default [] (m1 !! TableName query) ++ [query]]> m1.

(** [func QueriesByTable(queries []chunk.IndexQuery) map[string][]chunk.IndexQuery] *)
Definition QueriesByTable (queries : list IndexQuery) : gmap string (list IndexQuery) :=
  foldl add_query ∅ queries.

(** The queries of the input aimed at table [t], in input order. *)
Definition for_table (t : string) (queries : list IndexQuery) : list IndexQuery :=
  filter (fun q => TableName q = t) queries.

(** All grouped queries, table after table (in no particular order of
    tables). *)
Definition grouped (m : gmap string (list IndexQuery)) : list IndexQuery :=
  concat (map snd (map_to_list m)).

Lemma add_query_eq (m : gmap string (list IndexQuery)) (q : IndexQuery) :
  add_query m q = <[TableName q := default [] (m !! TableName q) ++ [q]]> m.
Proof.
  unfold add_query. destruct (m !! TableName q) as [l |] eqn:Hl.
  - rewrite Hl. reflexivity.
  - rewrite lookup_insert_eq. simpl. rewrite insert_insert_eq. reflexivity.
Qed.

Lemma QueriesByTable_snoc (qs : list IndexQuery) (q : IndexQuery) :
  QueriesByTable (qs ++ [q]) = add_query (QueriesByTable qs) q.
Proof. unfold QueriesByTable. rewrite foldl_app. reflexivity. Qed.

Lemma for_table_snoc (t : string) (qs : list IndexQuery) (q : IndexQuery) :
  for_table t (qs ++ [q])
  = for_table t qs ++ (if decide (TableName q = t) then [q] else []).
Proof.
  unfold for_table. rewrite filter_app. reflexivity.
Qed.

(** Each table's slice holds exactly the queries of that table, in input
    order; tables without a query have no key. *)
Lemma QueriesByTable_lookup (qs : list IndexQuery) (t : string) :
  QueriesByTable qs !! t
  = match for_table t qs with [] => None | l => Some l end.
Proof.
  induction qs as [| q qs IH] using rev_ind.
  - reflexivity.
  - rewrite QueriesByTable_snoc, add_query_eq, for_table_snoc.
    destruct (decide (TableName q = t)) as [-> | Hne].
    + rewrite lookup_insert_eq, IH.
      destruct (for_table t qs) as [| a l]; reflexivity.
    + rewrite lookup_insert_ne by exact Hne. rewrite IH, app_nil_r. reflexivity.
Qed.

Lemma grouped_insert_fresh (m : gmap string (list IndexQuery)) (t : string)
    (l : list IndexQuery) :
  m !! t = None -> Permutation (grouped (<[t := l]> m)) (l ++ grouped m).
Proof.
  intros Hm. unfold grouped.
  rewrite (map_to_list_insert m t l Hm). reflexivity.
Qed.

Lemma grouped_insert (m : gmap string (list IndexQuery)) (t : string)
    (q : IndexQuery) :
  Permutation (grouped (<[t := default [] (m !! t) ++ [q]]> m)) (q :: grouped m).
Proof.
  destruct (m !! t) as [l0 |] eqn:Hm; simpl.
  - rewrite <- insert_delete_eq.
    rewrite grouped_insert_fresh by apply lookup_delete_eq.
    unfold grouped at 2. rewrite <- (map_to_list_delete m t l0 Hm). simpl.
    fold (grouped (delete t m)).
    rewrite <- app_assoc. rewrite (Permutation_app_comm l0).
    rewrite <- app_assoc. simpl. apply perm_skip, Permutation_app_comm.
  - rewrite grouped_insert_fresh by exact Hm. reflexivity.
Qed.

Lemma QueriesByTable_grouped (qs : list IndexQuery) :
  Permutation (grouped (QueriesByTable qs)) qs.
Proof.
  induction qs as [| q qs IH] using rev_ind.
  - reflexivity.
  - rewrite QueriesByTable_snoc, add_query_eq, grouped_insert, IH.
    apply Permutation_cons_append.
Qed.

Lemma QueriesByTable_group_key (qs : list IndexQuery) (t : string)
    (l : list IndexQuery) (q : IndexQuery) :
  QueriesByTable qs !! t = Some l -> q ∈ l -> TableName q = t.
Proof.
  rewrite QueriesByTable_lookup. intros Hl Hq.
  assert (Hin : q ∈ for_table t qs)
    by (destruct (for_table t qs); [discriminate | injection Hl as <-; exact Hq]).
  unfold for_table in Hin. apply list_elem_of_filter in Hin. tauto.
Qed.

(** C5. [QueriesByTable] partitions its input by table name: all groups
    together are the input as a multiset; a query filed under table [t]
    names table [t], so groups of different tables share no query; each
    group lists its table's queries in input order; the empty input gives
    the empty map. *)
Theorem QueriesByTable_partition :
  forall queries : list IndexQuery,
    Permutation (grouped (QueriesByTable queries)) queries
    /\ (forall t l q, QueriesByTable queries !! t = Some l -> q ∈ l -> TableName q = t)
    /\ (forall t1 t2 l1 l2 q,
          QueriesByTable queries !! t1 = Some l1 ->
          QueriesByTable queries !! t2 = Some l2 ->
          q ∈ l1 -> q ∈ l2 -> t1 = t2)
    /\ (forall t l, QueriesByTable queries !! t = Some l ->
                    l = for_table t queries /\ l <> [])
    /\ (forall t, QueriesByTable queries !! t = None <-> for_table t queries = [])
    /\ QueriesByTable [] = ∅.
Proof.
  intros queries. split; [apply QueriesByTable_grouped |].
  split; [apply QueriesByTable_group_key |].
  split.
  { intros t1 t2 l1 l2 q H1 H2 Hq1 Hq2.
    rewrite <- (QueriesByTable_group_key _ _ _ _ H1 Hq1).
    apply (QueriesByTable_group_key _ _ _ _ H2 Hq2). }
  split.
  { intros t l. rewrite QueriesByTable_lookup.
    destruct (for_table t queries); [discriminate |].
    intros [= <-]. split; [reflexivity | discriminate]. }
  split; [| reflexivity].
  intros t. rewrite QueriesByTable_lookup.
  destruct (for_table t queries); split; (reflexivity || discriminate).
Qed.

Definition on_table (t h : string) : IndexQuery :=
  {| TableName := t; HashValue := h; RangeValuePrefix := ""; RangeValueStart := "";
     ValueEqual := ""; Immutable := false |}.

Example QueriesByTable_two_tables :
  QueriesByTable [on_table "index_1" "a"; on_table "index_2" "b"; on_table "index_1" "c"]
  = {[ "index_1" := [on_table "index_1" "a"; on_table "index_1" "c"];
       "index_2" := [on_table "index_2" "b"] ]}.
Proof. vm_compute. reflexivity. Qed.

Lemma QueriesByTable_partition_witness :
  [on_table "index_1" "a"; on_table "index_1" "c"]
  = for_table "index_1"
      [on_table "index_1" "a"; on_table "index_2" "b"; on_table "index_1" "c"].
Proof.
  apply (proj1 (proj2 (proj2 (proj2 (QueriesByTable_partition
           [on_table "index_1" "a"; on_table "index_2" "b"; on_table "index_1" "c"]))))
           "index_1" [on_table "index_1" "a"; on_table "index_1" "c"]).
  vm_compute. reflexivity.
Defined.

End Grouping.

(* ===================================================================== *)
(** ** shipper/util/queries.go: the index deduper                          *)
(* ===================================================================== *)

Module Dedup.
Import Chunk.

(** Go's [int] on a 64-bit platform: two's complement wrap-around. *)
Definition wrap_int (z : Z) : Z := (z + 2 ^ 63) mod 2 ^ 64 - 2 ^ 63.
Definition max_int : Z := 2 ^ 63 - 1.

(** The mutable part of [IndexDeduper].  The [callback] field is the
    downstream callback handed to [NewIndexDeduper]; it never changes and
    is passed alongside.  [mtx] is the lock discipline of [isSeen]: its
    two critical sections are the two functions below. *)
Record IndexDeduper : Type := mkDeduper {
  seenRangeValues : gmap string (gset string);
  numEntriesSent : Z
}.

(** [NewIndexDeduper]: an empty map; [numEntriesSent] is zero-valued. *)
Definition NewIndexDeduper : IndexDeduper :=
  {| seenRangeValues := ∅; numEntriesSent := 0 |}.

(** [_, ok := i.seenRangeValues[hashValue][rangeValueStr]].  A missing
    hash value reads as the nil inner map, and reading a nil map gives
    [ok = false]. *)
Definition has_seen (hashValue rangeValueStr : string)
    (seen : gmap string (gset string)) : bool :=
  match seen !! hashValue with
  | Some ranges => bool_decide (rangeValueStr ∈ ranges)
  | None => false
  end.

(** First critical section of [isSeen], under [RLock]: the optimistic
    check.  [GetUnsafeString] reinterprets the bytes of the range value
    as a string without copying; range values are strings here. *)
Definition isSeen_rlocked (hashValue rangeValue : string) (i : IndexDeduper) : bool :=
  has_seen hashValue rangeValue (seenRangeValues i).

(** Second critical section of [isSeen], under [Lock]: re-check, add the
    hash value if missing, add the range value, count it. *)
Definition isSeen_locked (hashValue rangeValue : string) (i : IndexDeduper)
    : bool * IndexDeduper :=
  if has_seen hashValue rangeValue (seenRangeValues i) then (true, i)
  else
    let seen1 :=
      match seenRangeValues i !! hashValue with
      | Some _ => seenRangeValues i
      | None => <[hashValue := ∅]> (seenRangeValues i)
      end in
    let seen2 :=
      <[hashValue := {[rangeValue]} ∪ default ∅ (seen1 !! hashValue)]> seen1 in
    (false, {| seenRangeValues := seen2;
               numEntriesSent := wrap_int (numEntriesSent i + 1) |}).

(** [func (i *IndexDeduper) isSeen(hashValue string, rangeValue []byte) bool],
    run without interference between its two critical sections. *)
Definition isSeen (hashValue rangeValue : string) (i : IndexDeduper)
    : bool * IndexDeduper :=
  if isSeen_rlocked hashValue rangeValue i then (true, i)
  else isSeen_locked hashValue rangeValue i.

(** Number of (hash value, range value) pairs stored: the sum over all
    hash values of the size of that hash's set. *)
Definition pair_count (seen : gmap string (gset string)) : nat :=
  sum_list (map (fun kv => size (snd kv)) (map_to_list seen)).

(** [filteringBatchIter]: the query and the wrapped iterator; its
    [isSeen] field is the method of the one deduper of the call. *)
Record filteringBatchIter : Type := mkFiltering {
  query : IndexQuery;
  inner : ReadBatchIterator
}.

(** [func (f *filteringBatch) Iterator() chunk.ReadBatchIterator] *)
Definition filteringBatch_Iterator (q : IndexQuery) (b : ReadBatch) : filteringBatchIter :=
  {| query := q; inner := Chunk.Iterator b |}.

(** The loop of [filteringBatchIter.Next], by recursion on the entries
    still ahead of the wrapped iterator: skip while [isSeen], stop on the
    first entry let through, or at the end. *)
Fixpoint skip_seen (hashValue : string) (entries : ReadBatchIterator) (i : IndexDeduper)
    : option Entry * ReadBatchIterator * IndexDeduper :=
  match entries with
  | [] => (None, [], i)
  | e :: tl =>
      let '(seen, i') := isSeen hashValue (RangeValue e) i in
      if seen then skip_seen hashValue tl i' else (Some e, tl, i')
  end.

(** [func (f *filteringBatchIter) Next() bool], with the entry under the
    cursor when it returns [true]. *)
Definition filteringBatchIter_Next (f : filteringBatchIter) (i : IndexDeduper)
    : option Entry * filteringBatchIter * IndexDeduper :=
  let '(r, it, i') := skip_seen (HashValue (query f)) (inner f) i in
  (r, {| query := query f; inner := it |}, i').

(** *** The seen set and the counter *)

Lemma has_seen_true (h r : string) (seen : gmap string (gset string)) :
  has_seen h r seen = true <-> exists s, seen !! h = Some s /\ r ∈ s.
Proof.
  unfold has_seen. destruct (seen !! h) as [s |].
  - rewrite bool_decide_eq_true. split; [eauto |]. by intros (s' & [= <-] & ?).
  - split; [discriminate |]. by intros (s' & ? & ?).
Qed.

Lemma pair_count_empty : pair_count ∅ = 0%nat.
Proof. unfold pair_count. rewrite map_to_list_empty. reflexivity. Qed.

Lemma pair_count_insert_fresh (seen : gmap string (gset string)) (h : string)
    (s : gset string) :
  seen !! h = None -> pair_count (<[h := s]> seen) = (size s + pair_count seen)%nat.
Proof.
  intros Hh. unfold pair_count.
  rewrite (map_to_list_insert seen h s Hh). reflexivity.
Qed.

Lemma pair_count_lookup (seen : gmap string (gset string)) (h : string)
    (s : gset string) :
  seen !! h = Some s -> pair_count seen = (size s + pair_count (delete h seen))%nat.
Proof.
  intros Hh. unfold pair_count.
  rewrite <- (map_to_list_delete seen h s Hh). reflexivity.
Qed.

(** What the second critical section stores when the pair is new. *)
Definition record_pair (h r : string) (seen : gmap string (gset string))
    : gmap string (gset string) :=
  <[h := {[r]} ∪ default ∅ (seen !! h)]> seen.

Lemma isSeen_locked_new (h r : string) (i : IndexDeduper) :
  has_seen h r (seenRangeValues i) = false ->
  isSeen_locked h r i
  = (false, {| seenRangeValues := record_pair h r (seenRangeValues i);
               numEntriesSent := wrap_int (numEntriesSent i + 1) |}).
Proof.
  intros Hns. unfold isSeen_locked, record_pair. rewrite Hns.
  destruct (seenRangeValues i !! h) as [s |] eqn:Hh.
  - rewrite Hh. reflexivity.
  - rewrite lookup_insert_eq, insert_insert_eq. reflexivity.
Qed.

Lemma isSeen_locked_old (h r : string) (i : IndexDeduper) :
  has_seen h r (seenRangeValues i) = true -> isSeen_locked h r i = (true, i).
Proof. intros Hs. unfold isSeen_locked. rewrite Hs. reflexivity. Qed.

Lemma isSeen_eq_locked (h r : string) (i : IndexDeduper) :
  isSeen h r i = isSeen_locked h r i.
Proof.
  unfold isSeen, isSeen_rlocked.
  destruct (has_seen h r (seenRangeValues i)) eqn:Hs; [| reflexivity].
  symmetry. apply isSeen_locked_old, Hs.
Qed.

Lemma has_seen_record_pair (h r h' r' : string) (seen : gmap string (gset string)) :
  has_seen h' r' (record_pair h r seen) = true
  <-> (h' = h /\ r' = r) \/ has_seen h' r' seen = true.
Proof.
  rewrite !has_seen_true. unfold record_pair.
  destruct (decide (h' = h)) as [-> | Hne].
  - rewrite lookup_insert_eq. split.
    + intros (s & [= <-] & Hin). apply elem_of_union in Hin as [Hin | Hin].
      * left. set_solver.
      * right. destruct (seen !! h) as [s0 |]; simpl in *; [eauto | set_solver].
    + intros [[_ ->] | (s & Hs & Hin)]; eexists; (split; [reflexivity |]).
      * set_solver.
      * rewrite Hs. simpl. set_solver.
  - rewrite lookup_insert_ne by done. split.
    + intros Hs. right. exact Hs.
    + intros [[Hh _] | Hs]; [contradiction | exact Hs].
Qed.

Lemma pair_count_record_pair (h r : string) (seen : gmap string (gset string)) :
  has_seen h r seen = false ->
  pair_count (record_pair h r seen) = S (pair_count seen).
Proof.
  intros Hns. unfold record_pair, has_seen in *.
  destruct (seen !! h) as [s |] eqn:Hh; simpl.
  - apply bool_decide_eq_false in Hns.
    rewrite <- insert_delete_eq.
    rewrite pair_count_insert_fresh by apply lookup_delete_eq.
    rewrite (pair_count_lookup seen h s Hh).
    rewrite size_union by set_solver. rewrite size_singleton. reflexivity.
  - rewrite pair_count_insert_fresh by exact Hh.
    rewrite union_empty_r_L, size_singleton. reflexivity.
Qed.

Lemma wrap_int_small (z : Z) : - 2 ^ 63 <= z <= max_int -> wrap_int z = z.
Proof.
  unfold wrap_int, max_int. intros Hz.
  rewrite Z.mod_small by lia. lia.
Qed.

Lemma wrap_int_succ (z : Z) : wrap_int (wrap_int z + 1) = wrap_int (z + 1).
Proof.
  unfold wrap_int.
  replace ((z + 2 ^ 63) mod 2 ^ 64 - 2 ^ 63 + 1 + 2 ^ 63)
    with ((z + 2 ^ 63) mod 2 ^ 64 + 1) by lia.
  replace (z + 1 + 2 ^ 63) with ((z + 2 ^ 63) + 1) by lia.
  rewrite (Z.add_mod (z + 2 ^ 63) 1) by lia.
  rewrite (Z.add_mod ((z + 2 ^ 63) mod 2 ^ 64) 1) by lia.
  rewrite Z.mod_mod by lia. reflexivity.
Qed.

(** The counter invariant: [numEntriesSent] is the number of stored
    pairs, as a Go [int]. *)
Definition counts_pairs (i : IndexDeduper) : Prop :=
  numEntriesSent i = wrap_int (Z.of_nat (pair_count (seenRangeValues i))).

Lemma counts_pairs_new : counts_pairs NewIndexDeduper.
Proof. unfold counts_pairs. simpl. rewrite pair_count_empty. reflexivity. Qed.

Lemma counts_pairs_isSeen_locked (h r : string) (i : IndexDeduper) :
  counts_pairs i -> counts_pairs (snd (isSeen_locked h r i)).
Proof.
  unfold counts_pairs. intros Hi.
  destruct (has_seen h r (seenRangeValues i)) eqn:Hs.
  - rewrite isSeen_locked_old by exact Hs. exact Hi.
  - rewrite isSeen_locked_new by exact Hs. simpl.
    rewrite pair_count_record_pair by exact Hs.
    rewrite Hi, wrap_int_succ. f_equal. lia.
Qed.

(** The loop of [Next] in terms of the wrapped iterator's [Next]. *)
Lemma filteringBatchIter_Next_unfold (f : filteringBatchIter) (i : IndexDeduper) :
  filteringBatchIter_Next f i
  = match Chunk.Next (inner f) with
    | (None, it') => (None, {| query := query f; inner := it' |}, i)
    | (Some e, it') =>
        let '(seen, i') := isSeen (HashValue (query f)) (RangeValue e) i in
        if seen then filteringBatchIter_Next {| query := query f; inner := it' |} i'
        else (Some e, {| query := query f; inner := it' |}, i')
    end.
Proof.
  unfold filteringBatchIter_Next. destruct f as [q [| e tl]]; simpl; [reflexivity |].
  destruct (isSeen (HashValue q) (RangeValue e) i) as [[] i']; reflexivity.
Qed.

(** C10. [numEntriesSent] is the number of (hash value, range value)
    pairs stored in [seenRangeValues]: both are zero in a new deduper;
    [isSeen] keeps the counter equal to the pair count (as a Go [int],
    and exactly so while the pair count stays below the largest [int]);
    so does its write-locked section alone, whatever happened since the
    read-locked one; it adds one to the counter exactly when it stores a
    new pair, and changes nothing when the pair is already stored. *)
Theorem numEntriesSent_counts_pairs :
  (numEntriesSent NewIndexDeduper = 0
   /\ pair_count (seenRangeValues NewIndexDeduper) = 0%nat)
  /\ forall (h r : string) (i : IndexDeduper),
      (counts_pairs i -> counts_pairs (snd (isSeen h r i)))
      /\ (counts_pairs i -> counts_pairs (snd (isSeen_locked h r i)))
      /\ (numEntriesSent i = Z.of_nat (pair_count (seenRangeValues i)) ->
          Z.of_nat (pair_count (seenRangeValues i)) < max_int ->
          numEntriesSent (snd (isSeen h r i))
          = Z.of_nat (pair_count (seenRangeValues (snd (isSeen h r i)))))
      /\ (fst (isSeen h r i) = false ->
          has_seen h r (seenRangeValues i) = false
          /\ has_seen h r (seenRangeValues (snd (isSeen h r i))) = true
          /\ pair_count (seenRangeValues (snd (isSeen h r i)))
             = S (pair_count (seenRangeValues i))
          /\ numEntriesSent (snd (isSeen h r i)) = wrap_int (numEntriesSent i + 1))
      /\ (fst (isSeen h r i) = true ->
          has_seen h r (seenRangeValues i) = true /\ snd (isSeen h r i) = i).
Proof.
  split; [split; [reflexivity | apply pair_count_empty] |].
  intros h r i. rewrite isSeen_eq_locked.
  split; [apply counts_pairs_isSeen_locked |].
  split; [apply counts_pairs_isSeen_locked |].
  destruct (has_seen h r (seenRangeValues i)) eqn:Hs.
  - rewrite isSeen_locked_old by exact Hs. simpl.
    split; [intros Hi _; exact Hi |].
    split; [discriminate | intros _; split; reflexivity].
  - rewrite isSeen_locked_new by exact Hs. simpl.
    pose proof (pair_count_record_pair h r _ Hs) as Hc.
    split.
    { intros Hi Hlt. rewrite Hc, Hi, wrap_int_small; unfold max_int in *; lia. }
    split; [| discriminate].
    intros _. split; [reflexivity |].
    split; [apply has_seen_record_pair; left; split; reflexivity |].
    split; [exact Hc | reflexivity].
Qed.

Lemma numEntriesSent_counts_pairs_witness :
  numEntriesSent (snd (isSeen "h1" "r1" NewIndexDeduper)) = 1
  /\ pair_count (seenRangeValues (snd (isSeen "h1" "r1" NewIndexDeduper))) = 1%nat.
Proof.
  pose proof (proj2 numEntriesSent_counts_pairs "h1" "r1" NewIndexDeduper)
    as (_ & _ & Hexact & Hnew & _).
  assert (Hfst : fst (isSeen "h1" "r1" NewIndexDeduper) = false) by reflexivity.
  destruct (Hnew Hfst) as (_ & _ & Hcount & _).
  change (seenRangeValues NewIndexDeduper) with (∅ : gmap string (gset string)) in *.
  change (numEntriesSent NewIndexDeduper) with 0 in *.
  rewrite pair_count_empty in *.
  split; [| exact Hcount].
  rewrite Hexact; [rewrite Hcount; reflexivity | reflexivity | unfold max_int; lia].
Defined.

End Dedup.

(* ===================================================================== *)
(** ** shipper/util/queries.go: the parallel query executor                *)
(* ===================================================================== *)

Module Executor.
Import Chunk Dedup.
Local Open Scope nat_scope.

Definition maxQueriesPerGoroutine : nat := 100.

(** [queries[i:j]] *)
Definition slice {A : Type} (i j : nat) (l : list A) : list A :=
  take (j - i) (drop i l).

(** The first loop of [DoParallelQueries]:
    [for i := 0; i < len(queries); i += maxQueriesPerGoroutine], one
    slice [queries[i:Min(i+maxQueriesPerGoroutine, len(queries))]] per
    iteration.  [fuel] bounds the number of iterations; [length queries]
    is always enough. *)
Fixpoint dispatch {A : Type} (fuel i : nat) (queries : list A) : list (list A) :=
  match fuel with
  | 0 => []
  | S fuel' =>
      if i <? length queries
      then slice i (Nat.min (i + maxQueriesPerGoroutine) (length queries)) queries
             :: dispatch fuel' (i + maxQueriesPerGoroutine) queries
      else []
  end.

(** The second loop, with the same bounds: one receive from [errs] per
    iteration. *)
Fixpoint receives (fuel i len : nat) : nat :=
  match fuel with
  | 0 => 0
  | S fuel' =>
      if i <? len then S (receives fuel' (i + maxQueriesPerGoroutine) len) else 0
  end.

Section Callbacks.
(** State the downstream callback closes over (typically the entries
    it has accumulated). *)
Context {U : Type}.

(** The body of a downstream [chunk.QueryPagesCallback], as its
    interaction with the batch it is handed: it may open iterators on
    the batch, advance any iterator it opened, read and update the
    state it closes over, and finally returns its boolean.  Iterators
    are named by the order in which the invocation opened them; a name
    that was never handed out (no Go program can hold one) reads as an
    exhausted iterator. *)
Inductive client : Type :=
| Return (continue : bool)
| OpenIterator (k : nat -> client)
| CallNext (it : nat) (k : option Entry -> client)
| Access (update : U -> U) (k : U -> client).

Definition QueryPagesCallback : Type := IndexQuery -> client.

(** One run of [TableQuerier.MultiQueries(ctx, queries, callback)]: the
    querier invokes the callback on one result batch after the other,
    may react to the boolean it gets back, and ends with an error or
    [nil]. *)
Inductive querier : Type :=
| Finish (err : error)
| Page (q : IndexQuery) (batch : ReadBatch) (k : bool -> querier).

Definition TableQuerier : Type := list IndexQuery -> querier.

(** Everything the goroutines of one [DoParallelQueries] call share:
    the deduper [id] and the state of the downstream callback; and two
    histories kept for the statements only: the (hash value, range
    value) pairs the filtering iterators let through, and the
    invocations of the downstream callback. *)
Record world : Type := mkWorld {
  deduper : IndexDeduper;
  user : U;
  delivered : list (string * string);
  invoked : list (IndexQuery * ReadBatch)
}.

Definition let_through (hashValue : string) (r : option Entry)
    (log : list (string * string)) : list (string * string) :=
  match r with
  | Some e => log ++ [(hashValue, RangeValue e)]
  | None => log
  end.

(** *** Sequential execution *)

(** The downstream callback running on the filtering batch
    [&filteringBatch{query, batch, i.isSeen}]; [its] are the wrapped
    iterators of the filtering iterators it has opened so far. *)
Fixpoint run_client (c : client) (its : list ReadBatchIterator)
    (q : IndexQuery) (b : ReadBatch) (w : world) : bool * world :=
  match c with
  | Return continue => (continue, w)
  | OpenIterator k =>
      run_client (k (length its))
        (its ++ [inner (filteringBatch_Iterator q b)]) q b w
  | CallNext h k =>
      match its !! h with
      | None => run_client (k None) its q b w
      | Some it =>
          let '(r, f', i') :=
            filteringBatchIter_Next {| query := q; inner := it |} (deduper w) in
          run_client (k r) (<[h := inner f']> its) q b
            {| deduper := i'; user := user w;
               delivered := let_through (HashValue q) r (delivered w);
               invoked := invoked w |}
      end
  | Access update k =>
      run_client (k (user w)) its q b
        {| deduper := deduper w; user := update (user w);
           delivered := delivered w; invoked := invoked w |}
  end.

(** [func (i *IndexDeduper) Callback(query, batch) bool] *)
Definition Callback (callback : QueryPagesCallback) (q : IndexQuery)
    (b : ReadBatch) (w : world) : bool * world :=
  run_client (callback q) [] q b
    {| deduper := deduper w; user := user w; delivered := delivered w;
       invoked := invoked w ++ [(q, b)] |}.

(** [tableQuerier.MultiQueries(ctx, queries, id.Callback)] run by one
    goroutine without interference. *)
Fixpoint run_querier (callback : QueryPagesCallback) (p : querier) (w : world)
    : error * world :=
  match p with
  | Finish err => (err, w)
  | Page q b k =>
      let '(continue, w') := Callback callback q b w in
      run_querier callback (k continue) w'
  end.

(** *** Concurrent execution *)

(** Where a worker goroutine stands. *)
Inductive goroutine : Type :=
| InQuerier (p : querier)
| InCallback (q : IndexQuery) (b : ReadBatch) (its : list ReadBatchIterator)
    (c : client) (k : bool -> querier)
| AwaitLock (q : IndexQuery) (b : ReadBatch) (its : list ReadBatchIterator)
    (h : nat) (e : Entry) (kc : option Entry -> client) (k : bool -> querier)
| Sending (err : error)
| Exited (err : error).

(** One atomic step of a worker.  [InCallback] on [CallNext] is one
    turn of the loop of [filteringBatchIter.Next] up to the end of the
    read-locked section of [isSeen]; [AwaitLock] is [isSeen] between
    [RUnlock] and [Lock], its step the write-locked section.  A worker
    in [Sending] is blocked on [errs <- err] until the coordinator
    receives. *)
Definition advance (callback : QueryPagesCallback) (g : goroutine) (w : world)
    : option (goroutine * world) :=
  match g with
  | InQuerier (Finish err) => Some (Sending err, w)
  | InQuerier (Page q b k) =>
      Some (InCallback q b [] (callback q) k,
            {| deduper := deduper w; user := user w; delivered := delivered w;
               invoked := invoked w ++ [(q, b)] |})
  | InCallback q b its (Return continue) k => Some (InQuerier (k continue), w)
  | InCallback q b its (OpenIterator kc) k =>
      Some (InCallback q b (its ++ [inner (filteringBatch_Iterator q b)])
              (kc (length its)) k, w)
  | InCallback q b its (Access update kc) k =>
      Some (InCallback q b its (kc (user w)) k,
            {| deduper := deduper w; user := update (user w);
               delivered := delivered w; invoked := invoked w |})
  | InCallback q b its (CallNext h kc) k =>
      match its !! h with
      | None => Some (InCallback q b its (kc None) k, w)
      | Some it =>
          match Chunk.Next it with
          | (None, it') => Some (InCallback q b (<[h := it']> its) (kc None) k, w)
          | (Some e, it') =>
              if isSeen_rlocked (HashValue q) (RangeValue e) (deduper w)
              then Some (InCallback q b (<[h := it']> its) (CallNext h kc) k, w)
              else Some (AwaitLock q b (<[h := it']> its) h e kc k, w)
          end
      end
  | AwaitLock q b its h e kc k =>
      let '(seen, i') := isSeen_locked (HashValue q) (RangeValue e) (deduper w) in
      if seen then Some (InCallback q b its (CallNext h kc) k, w)
      else Some (InCallback q b its (kc (Some e)) k,
                 {| deduper := i'; user := user w;
                    delivered := let_through (HashValue q) (Some e) (delivered w);
                    invoked := invoked w |})
  | Sending _ => None
  | Exited _ => None
  end.

(** The call in flight: the shared world, the workers, and the
    coordinator in its receive loop with [pending] receives to go.
    [received] is the history of what it received, oldest first. *)
Record config : Type := mkConfig {
  shared : world;
  goroutines : list goroutine;
  pending : nat;
  lastErr : error;
  received : list error
}.

(** What the scheduler can pick: let worker [t] take a step, or let the
    coordinator receive the error worker [t] is sending. *)
Inductive action : Type :=
| Run (t : nat)
| Receive (t : nat).

Definition step (callback : QueryPagesCallback) (a : action) (c : config)
    : option config :=
  match a with
  | Run t =>
      match goroutines c !! t with
      | Some g =>
          match advance callback g (shared c) with
          | Some (g', w') =>
              Some {| shared := w'; goroutines := <[t := g']> (goroutines c);
                      pending := pending c; lastErr := lastErr c;
                      received := received c |}
          | None => None
          end
      | None => None
      end
  | Receive t =>
      match pending c, goroutines c !! t with
      | S n, Some (Sending err) =>
          Some {| shared := shared c;
                  goroutines := <[t := Exited err]> (goroutines c);
                  pending := n;
                  lastErr := match err with Some _ => err | None => lastErr c end;
                  received := received c ++ [err] |}
      | _, _ => None
      end
  end.

(** A run under a schedule; [None] when the schedule asks for a step
    that is not enabled. *)
Fixpoint exec (callback : QueryPagesCallback) (sched : list action) (c : config)
    : option config :=
  match sched with
  | [] => Some c
  | a :: rest =>
      match step callback a c with
      | Some c' => exec callback rest c'
      | None => None
      end
  end.

(** The coordinator has left its receive loop: [DoParallelQueries]
    returns [lastErr]. *)
Definition returned (c : config) : bool := pending c =? 0.

(** *** [DoParallelQueries] *)

Inductive execution : Type :=
| NoQueries
| Synchronous (result : error * world)
| FanOut (start : config).

Definition new_world (u : U) : world :=
  {| deduper := NewIndexDeduper; user := u; delivered := []; invoked := [] |}.

(** [func DoParallelQueries(ctx, tableQuerier, queries, callback) error].
    [NoQueries] is the early [return nil]; [Synchronous] the single
    [return tableQuerier.MultiQueries(ctx, queries, id.Callback)];
    [FanOut] the state once the goroutines are spawned and the
    coordinator enters its receive loop. *)
Definition DoParallelQueries (tableQuerier : TableQuerier)
    (queries : list IndexQuery) (callback : QueryPagesCallback) (u : U)
    : execution :=
  if length queries =? 0 then NoQueries
  else if length queries <=? maxQueriesPerGoroutine
  then Synchronous (run_querier callback (tableQuerier queries) (new_world u))
  else FanOut {| shared := new_world u;
                 goroutines :=
                   map (fun qs => InQuerier (tableQuerier qs))
                     (dispatch (length queries) 0 queries);
                 pending := receives (length queries) 0 (length queries);
                 lastErr := None;
                 received := [] |}.

(** *** The dispatch loops *)

Lemma slice_take {A : Type} (i : nat) (l : list A) :
  slice i (Nat.min (i + maxQueriesPerGoroutine) (length l)) l
  = take maxQueriesPerGoroutine (drop i l).
Proof.
  unfold slice. destruct (le_lt_dec (i + maxQueriesPerGoroutine) (length l)) as [Hle | Hgt].
  - rewrite Nat.min_l by exact Hle. f_equal. lia.
  - rewrite Nat.min_r by lia.
    rewrite !take_ge; [reflexivity | |]; rewrite length_drop; lia.
Qed.

Lemma dispatch_unfold {A : Type} (fuel i : nat) (queries : list A) :
  i < length queries ->
  dispatch (S fuel) i queries
  = take maxQueriesPerGoroutine (drop i queries)
      :: dispatch fuel (i + maxQueriesPerGoroutine) queries.
Proof.
  intros Hi. cbn [dispatch].
  destruct (Nat.ltb_spec i (length queries)) as [_ | Hge]; [| lia].
  rewrite slice_take. reflexivity.
Qed.

Lemma dispatch_done {A : Type} (fuel i : nat) (queries : list A) :
  length queries <= i -> dispatch fuel i queries = [].
Proof.
  intros Hi. destruct fuel as [| fuel]; [reflexivity |]. cbn [dispatch].
  destruct (Nat.ltb_spec i (length queries)) as [Hlt | _]; [lia | reflexivity].
Qed.

(** [length queries] iterations are always enough: more fuel changes
    nothing. *)
Lemma dispatch_fuel {A : Type} (fuel i : nat) (queries : list A) :
  length queries <= i + fuel ->
  dispatch (S fuel) i queries = dispatch fuel i queries.
Proof.
  revert i. induction fuel as [| fuel IH]; intros i Hlen.
  - rewrite dispatch_done by lia. reflexivity.
  - destruct (le_lt_dec (length queries) i) as [Hge | Hlt].
    + rewrite !dispatch_done by lia. reflexivity.
    + rewrite (dispatch_unfold (S fuel) i), (dispatch_unfold fuel i) by exact Hlt.
      f_equal. apply IH. unfold maxQueriesPerGoroutine. lia.
Qed.

Lemma dispatch_concat {A : Type} (fuel i : nat) (queries : list A) :
  length queries <= i + fuel ->
  concat (dispatch fuel i queries) = drop i queries.
Proof.
  revert i. induction fuel as [| fuel IH]; intros i Hlen.
  - simpl. rewrite drop_ge by lia. reflexivity.
  - destruct (le_lt_dec (length queries) i) as [Hge | Hlt].
    + rewrite dispatch_done by lia. rewrite drop_ge by lia. reflexivity.
    + rewrite dispatch_unfold by exact Hlt. cbn [concat].
      rewrite IH by (unfold maxQueriesPerGoroutine; lia).
      rewrite <- (take_drop maxQueriesPerGoroutine (drop i queries)) at 2.
      rewrite drop_drop. reflexivity.
Qed.

Lemma dispatch_length {A : Type} (fuel i : nat) (queries : list A) :
  length queries <= i + fuel ->
  length (dispatch fuel i queries)
  = (length queries - i + (maxQueriesPerGoroutine - 1)) / maxQueriesPerGoroutine.
Proof.
  revert i. induction fuel as [| fuel IH]; intros i Hlen.
  - simpl. replace (length queries - i) with 0 by lia. reflexivity.
  - destruct (le_lt_dec (length queries) i) as [Hge | Hlt].
    + rewrite dispatch_done by lia.
      replace (length queries - i) with 0 by lia. reflexivity.
    + rewrite dispatch_unfold by exact Hlt. cbn [length].
      rewrite IH by (unfold maxQueriesPerGoroutine; lia).
      unfold maxQueriesPerGoroutine.
      destruct (le_lt_dec (i + 100) (length queries)) as [Hfull | Hlast].
      * replace (length queries - i + (100 - 1))
          with (length queries - (i + 100) + (100 - 1) + 1 * 100) by lia.
        rewrite Nat.div_add by lia. lia.
      * replace (length queries - (i + 100)) with 0 by lia.
        change (S ((0 + (100 - 1)) / 100)) with 1.
        apply Nat.div_unique with (r := length queries - i - 1); lia.
Qed.

(** The [k]-th dispatched slice is [queries[i+100k : i+100(k+1)]], cut at
    the end of the input; it is never empty. *)
Lemma dispatch_lookup {A : Type} (fuel i k : nat) (queries : list A) (qs : list A) :
  dispatch fuel i queries !! k = Some qs ->
  qs = take maxQueriesPerGoroutine (drop (i + k * maxQueriesPerGoroutine) queries)
  /\ i + k * maxQueriesPerGoroutine < length queries.
Proof.
  revert i k. induction fuel as [| fuel IH]; intros i k Hk; [discriminate |].
  destruct (le_lt_dec (length queries) i) as [Hge | Hlt].
  - rewrite dispatch_done in Hk by lia. discriminate.
  - rewrite dispatch_unfold in Hk by exact Hlt. destruct k as [| k].
    + injection Hk as <-. rewrite Nat.add_0_r. split; [reflexivity | lia].
    + apply IH in Hk as [-> Hk]. split; [f_equal; f_equal; lia | lia].
Qed.

Lemma dispatch_sizes {A : Type} (fuel i : nat) (queries : list A) :
  Forall (fun qs => 1 <= length qs <= maxQueriesPerGoroutine) (dispatch fuel i queries).
Proof.
  apply Forall_lookup. intros k qs Hk.
  apply dispatch_lookup in Hk as [-> Hk].
  rewrite length_take, length_drop. unfold maxQueriesPerGoroutine in *. lia.
Qed.

(** Every slice but the last holds exactly [maxQueriesPerGoroutine]
    queries. *)
Lemma dispatch_full {A : Type} (fuel i k : nat) (queries qs : list A) :
  dispatch fuel i queries !! k = Some qs ->
  S k < length (dispatch fuel i queries) ->
  length qs = maxQueriesPerGoroutine.
Proof.
  intros Hk Hnext.
  destruct (lookup_lt_is_Some_2 _ _ Hnext) as [qs' Hk'].
  apply dispatch_lookup in Hk as [-> _]. apply dispatch_lookup in Hk' as [_ Hlt].
  rewrite length_take, length_drop. unfold maxQueriesPerGoroutine in *. lia.
Qed.

(** Both loops of [DoParallelQueries] run the same number of times: the
    coordinator receives once per goroutine it spawned. *)
Lemma receives_dispatch {A : Type} (fuel i : nat) (queries : list A) :
  receives fuel i (length queries) = length (dispatch fuel i queries).
Proof.
  revert i. induction fuel as [| fuel IH]; intros i; [reflexivity |].
  cbn [receives dispatch].
  destruct (i <? length queries); [| reflexivity].
  cbn [length]. rewrite IH. reflexivity.
Qed.

(** *** What the shared world guarantees *)

(** The pairs let through are recorded without repetition, and they are
    exactly the pairs stored in the seen set. *)
Definition consistent (w : world) : Prop :=
  NoDup (delivered w)
  /\ (forall h r : string,
        (h, r) ∈ delivered w <-> has_seen h r (seenRangeValues (deduper w)) = true)
  /\ length (delivered w) = pair_count (seenRangeValues (deduper w))
  /\ counts_pairs (deduper w).

Lemma consistent_new (u : U) : consistent (new_world u).
Proof.
  unfold consistent, new_world. simpl. split; [constructor |].
  split; [| split; [rewrite pair_count_empty; reflexivity | apply counts_pairs_new]].
  intros h r. split.
  - intros Hin. inversion Hin.
  - rewrite has_seen_true. intros (s & Hs & _). rewrite lookup_empty in Hs. discriminate.
Qed.

Lemma consistent_frame (w : world) (u : U) (inv : list (IndexQuery * ReadBatch)) :
  consistent w ->
  consistent {| deduper := deduper w; user := u; delivered := delivered w;
                invoked := inv |}.
Proof. intros H. exact H. Qed.

(** The write-locked section of [isSeen] letting a new pair through. *)
Lemma consistent_let_through (w : world) (h r : string) (e : Entry)
    (i' : IndexDeduper) :
  consistent w ->
  RangeValue e = r ->
  isSeen_locked h r (deduper w) = (false, i') ->
  consistent {| deduper := i'; user := user w;
                delivered := let_through h (Some e) (delivered w);
                invoked := invoked w |}.
Proof.
  intros (Hnd & Hiff & Hlen & Hcnt) <- Hlocked.
  destruct (has_seen h (RangeValue e) (seenRangeValues (deduper w))) eqn:Hs.
  { rewrite isSeen_locked_old in Hlocked by exact Hs. discriminate. }
  pose proof (counts_pairs_isSeen_locked h (RangeValue e) _ Hcnt) as Hcnt'.
  rewrite Hlocked in Hcnt'.
  rewrite isSeen_locked_new in Hlocked by exact Hs. injection Hlocked as <-.
  unfold consistent. simpl in *. split; [| split; [| split]].
  - apply NoDup_app. split; [exact Hnd |]. split; [| apply NoDup_singleton].
    intros p Hp Hp'. apply list_elem_of_singleton in Hp'. subst p.
    apply Hiff in Hp. congruence.
  - intros h' r'. rewrite elem_of_app, list_elem_of_singleton, has_seen_record_pair, Hiff.
    split.
    + intros [H | H]; [right; exact H | left; injection H as -> ->; split; reflexivity].
    + intros [[-> ->] | H]; [right; reflexivity | left; exact H].
  - rewrite length_app, pair_count_record_pair by exact Hs. simpl. lia.
  - exact Hcnt'.
Qed.

Lemma advance_consistent (callback : QueryPagesCallback) (g g' : goroutine)
    (w w' : world) :
  advance callback g w = Some (g', w') -> consistent w -> consistent w'.
Proof.
  intros Hadv Hw.
  destruct g as [[err | q b k] | q b its [continue | kc | h kc | update kc] k
                 | q b its h e kc k | err | err]; simpl in Hadv.
  - injection Hadv as <- <-. exact Hw.
  - injection Hadv as <- <-. apply consistent_frame, Hw.
  - injection Hadv as <- <-. exact Hw.
  - injection Hadv as <- <-. exact Hw.
  - destruct (its !! h) as [it |]; [| injection Hadv as <- <-; exact Hw].
    destruct (Chunk.Next it) as [[e |] it']; [| injection Hadv as <- <-; exact Hw].
    destruct (isSeen_rlocked _ _ _); injection Hadv as <- <-; exact Hw.
  - injection Hadv as <- <-. apply consistent_frame, Hw.
  - destruct (isSeen_locked _ _ _) as [[] i'] eqn:Hlocked; injection Hadv as <- <-.
    + exact Hw.
    + eapply consistent_let_through; eauto.
  - discriminate.
  - discriminate.
Qed.

(** Nothing let through is ever taken back, and nothing seen is ever
    forgotten: a step only appends to the histories. *)
Lemma advance_extends (callback : QueryPagesCallback) (g g' : goroutine)
    (w w' : world) :
  advance callback g w = Some (g', w') ->
  delivered w `prefix_of` delivered w' /\ invoked w `prefix_of` invoked w'.
Proof.
  intros Hadv.
  destruct g as [[err | q b k] | q b its [continue | kc | h kc | update kc] k
                 | q b its h e kc k | err | err]; simpl in Hadv;
    try discriminate; try (injection Hadv as <- <-; split; simpl;
                           solve [reflexivity | apply prefix_app_r; reflexivity]).
  - destruct (its !! h) as [it |]; [| injection Hadv as <- <-; split; reflexivity].
    destruct (Chunk.Next it) as [[e |] it']; [| injection Hadv as <- <-; split; reflexivity].
    destruct (isSeen_rlocked _ _ _); injection Hadv as <- <-; split; reflexivity.
  - destruct (isSeen_locked _ _ _) as [[] i'] eqn:Hlocked; injection Hadv as <- <-;
      split; simpl; solve [reflexivity | apply prefix_app_r; reflexivity].
Qed.

(** *** One goroutine running alone *)

(** [n] consecutive steps of the same goroutine. *)
Fixpoint advances (callback : QueryPagesCallback) (n : nat) (g : goroutine) (w : world)
    : option (goroutine * world) :=
  match n with
  | 0 => Some (g, w)
  | S n' =>
      match advance callback g w with
      | Some (g', w') => advances callback n' g' w'
      | None => None
      end
  end.

Lemma advances_app (callback : QueryPagesCallback) (n m : nat) (g g' : goroutine)
    (w w' : world) :
  advances callback n g w = Some (g', w') ->
  advances callback (n + m) g w = advances callback m g' w'.
Proof.
  revert g w. induction n as [| n IH]; intros g w Hn; simpl in *.
  - injection Hn as -> ->. reflexivity.
  - destruct (advance callback g w) as [[g1 w1] |]; [| discriminate].
    apply IH, Hn.
Qed.

Lemma advances_consistent (callback : QueryPagesCallback) (n : nat)
    (g g' : goroutine) (w w' : world) :
  advances callback n g w = Some (g', w') -> consistent w -> consistent w'.
Proof.
  revert g w. induction n as [| n IH]; intros g w Hn Hw; simpl in Hn.
  - injection Hn as <- <-. exact Hw.
  - destruct (advance callback g w) as [[g1 w1] |] eqn:Hadv; [| discriminate].
    eapply IH; [exact Hn |]. eapply advance_consistent; eauto.
Qed.

Lemma advances_extends (callback : QueryPagesCallback) (n : nat)
    (g g' : goroutine) (w w' : world) :
  advances callback n g w = Some (g', w') ->
  delivered w `prefix_of` delivered w' /\ invoked w `prefix_of` invoked w'.
Proof.
  revert g w. induction n as [| n IH]; intros g w Hn; simpl in Hn.
  - injection Hn as <- <-. split; reflexivity.
  - destruct (advance callback g w) as [[g1 w1] |] eqn:Hadv; [| discriminate].
    apply advance_extends in Hadv as [Hd Hi]. apply IH in Hn as [Hd' Hi'].
    split; etrans; eauto.
Qed.

(** Without interference, the steps of a goroutine inside
    [filteringBatchIter.Next] add up to the sequential [Next]. *)
Lemma solo_Next (callback : QueryPagesCallback) (q : IndexQuery) (b : ReadBatch)
    (h : nat) (kc : option Entry -> client) (k : bool -> querier)
    (it : ReadBatchIterator) :
  forall (its : list ReadBatchIterator) (w : world) (r : option Entry)
         (f' : filteringBatchIter) (i' : IndexDeduper),
    its !! h = Some it ->
    filteringBatchIter_Next {| query := q; inner := it |} (deduper w) = (r, f', i') ->
    exists n,
      advances callback n (InCallback q b its (CallNext h kc) k) w
      = Some (InCallback q b (<[h := inner f']> its) (kc r) k,
              {| deduper := i'; user := user w;
                 delivered := let_through (HashValue q) r (delivered w);
                 invoked := invoked w |}).
Proof.
  induction it as [| e tl IH]; intros its w r f' i' Hh Hnext.
  - cbn in Hnext. injection Hnext as <- <- <-.
    exists 1. cbn. rewrite Hh. cbn. destruct w; reflexivity.
  - rewrite filteringBatchIter_Next_unfold in Hnext. cbn in Hnext.
    unfold isSeen in Hnext.
    destruct (isSeen_rlocked (HashValue q) (RangeValue e) (deduper w)) eqn:Hr.
    + assert (Hh' : <[h := tl]> its !! h = Some tl)
        by (apply list_lookup_insert_eq; eapply lookup_lt_Some; eauto).
      destruct (IH (<[h := tl]> its) w r f' i' Hh' Hnext) as [n Hn].
      exists (S n). cbn. rewrite Hh. cbn. rewrite Hr. cbn.
      etrans; [exact Hn |]. rewrite list_insert_insert_eq. reflexivity.
    + destruct (isSeen_locked (HashValue q) (RangeValue e) (deduper w))
        as [[] i1] eqn:Hl.
      * unfold isSeen_rlocked in Hr. unfold isSeen_locked in Hl.
        rewrite Hr in Hl. discriminate.
      * injection Hnext as <- <- <-.
        exists 2. cbn. rewrite Hh. cbn. rewrite Hr. cbn. rewrite Hl. reflexivity.
Qed.

Lemma solo_client (callback : QueryPagesCallback) (q : IndexQuery) (b : ReadBatch)
    (k : bool -> querier) (c : client) :
  forall (its : list ReadBatchIterator) (w : world),
  exists n,
    advances callback n (InCallback q b its c k) w
    = Some (InQuerier (k (fst (run_client c its q b w))), snd (run_client c its q b w)).
Proof.
  induction c as [continue | kc IH | h kc IH | update kc IH]; intros its w.
  - exists 1. reflexivity.
  - destruct (IH (length its) (its ++ [inner (filteringBatch_Iterator q b)]) w) as [n Hn].
    exists (S n). cbn. exact Hn.
  - cbn [run_client]. destruct (its !! h) as [it |] eqn:Hh.
    + destruct (filteringBatchIter_Next {| query := q; inner := it |} (deduper w))
        as [[r f'] i'] eqn:Hnext.
      destruct (solo_Next callback q b h kc k it its w r f' i' Hh Hnext) as [n Hn].
      match goal with
      | |- context [run_client (kc r) ?its' q b ?w'] =>
          destruct (IH r its' w') as [m Hm]
      end.
      exists (n + m). rewrite (advances_app _ _ _ _ _ _ _ Hn). exact Hm.
    + destruct (IH None its w) as [n Hn].
      exists (S n). cbn. rewrite Hh. exact Hn.
  - cbn [run_client].
    match goal with
    | |- context [run_client (kc (user w)) its q b ?w'] =>
        destruct (IH (user w) its w') as [n Hn]
    end.
    exists (S n). cbn. exact Hn.
Qed.

Lemma solo_querier (callback : QueryPagesCallback) (p : querier) :
  forall w : world,
  exists n,
    advances callback n (InQuerier p) w
    = Some (Sending (fst (run_querier callback p w)), snd (run_querier callback p w)).
Proof.
  induction p as [err | q b k IH]; intros w.
  - exists 1. reflexivity.
  - cbn [run_querier]. unfold Callback.
    match goal with
    | |- context [run_client (callback q) [] q b ?w0] =>
        destruct (solo_client callback q b k (callback q) [] w0) as [n Hn];
        destruct (run_client (callback q) [] q b w0) as [continue w1] eqn:Hrun
    end.
    destruct (IH continue w1) as [m Hm].
    exists (S (n + m)). cbn [advances advance].
    rewrite (advances_app _ _ _ _ _ _ _ Hn). exact Hm.
Qed.

Lemma run_querier_consistent (callback : QueryPagesCallback) (p : querier) (w : world) :
  consistent w -> consistent (snd (run_querier callback p w)).
Proof.
  intros Hw. destruct (solo_querier callback p w) as [n Hn].
  eapply advances_consistent; eauto.
Qed.

Lemma run_querier_extends (callback : QueryPagesCallback) (p : querier) (w : world) :
  delivered w `prefix_of` delivered (snd (run_querier callback p w))
  /\ invoked w `prefix_of` invoked (snd (run_querier callback p w)).
Proof.
  destruct (solo_querier callback p w) as [n Hn].
  eapply advances_extends; eauto.
Qed.

(** *** Runs of the whole call *)

Lemma step_consistent (callback : QueryPagesCallback) (a : action) (c c' : config) :
  step callback a c = Some c' -> consistent (shared c) -> consistent (shared c').
Proof.
  intros Hstep Hc. destruct a as [t | t]; simpl in Hstep.
  - destruct (goroutines c !! t) as [g |]; [| discriminate].
    destruct (advance callback g (shared c)) as [[g' w'] |] eqn:Hadv; [| discriminate].
    injection Hstep as <-. simpl. eapply advance_consistent; eauto.
  - destruct (pending c) as [| n]; [discriminate |].
    destruct (goroutines c !! t) as [[] |]; try discriminate.
    injection Hstep as <-. exact Hc.
Qed.

Lemma step_extends (callback : QueryPagesCallback) (a : action) (c c' : config) :
  step callback a c = Some c' ->
  delivered (shared c) `prefix_of` delivered (shared c')
  /\ invoked (shared c) `prefix_of` invoked (shared c').
Proof.
  intros Hstep. destruct a as [t | t]; simpl in Hstep.
  - destruct (goroutines c !! t) as [g |]; [| discriminate].
    destruct (advance callback g (shared c)) as [[g' w'] |] eqn:Hadv; [| discriminate].
    injection Hstep as <-. simpl. eapply advance_extends; eauto.
  - destruct (pending c) as [| n]; [discriminate |].
    destruct (goroutines c !! t) as [[] |]; try discriminate.
    injection Hstep as <-. split; reflexivity.
Qed.

Lemma exec_app (callback : QueryPagesCallback) (s1 s2 : list action) (c c1 : config) :
  exec callback s1 c = Some c1 ->
  exec callback (s1 ++ s2) c = exec callback s2 c1.
Proof.
  revert c. induction s1 as [| a s1 IH]; intros c H1; simpl in *.
  - injection H1 as ->. reflexivity.
  - destruct (step callback a c) as [c' |]; [| discriminate]. apply IH, H1.
Qed.

(** Induction along a run: what every step preserves holds at the end. *)
Lemma exec_invariant (callback : QueryPagesCallback) (P : config -> Prop) :
  (forall a c c', step callback a c = Some c' -> P c -> P c') ->
  forall sched c c', exec callback sched c = Some c' -> P c -> P c'.
Proof.
  intros Hstep sched. induction sched as [| a sched IH]; intros c c' Hexec Hc; simpl in Hexec.
  - injection Hexec as <-. exact Hc.
  - destruct (step callback a c) as [c1 |] eqn:H1; [| discriminate].
    eapply IH; [exact Hexec |]. eapply Hstep; eauto.
Qed.

Lemma exec_consistent (callback : QueryPagesCallback) (sched : list action)
    (c c' : config) :
  exec callback sched c = Some c' -> consistent (shared c) -> consistent (shared c').
Proof.
  apply (exec_invariant callback (fun c => consistent (shared c))).
  intros a c0 c1. apply step_consistent.
Qed.

Lemma exec_extends (callback : QueryPagesCallback) (sched : list action)
    (c c' : config) :
  exec callback sched c = Some c' ->
  delivered (shared c) `prefix_of` delivered (shared c')
  /\ invoked (shared c) `prefix_of` invoked (shared c').
Proof.
  intros Hexec.
  apply (exec_invariant callback
           (fun c1 => delivered (shared c) `prefix_of` delivered (shared c1)
                      /\ invoked (shared c) `prefix_of` invoked (shared c1))
           ) with (sched := sched) (c := c); [| exact Hexec | split; reflexivity].
  intros a c0 c1 Hstep [Hd Hi]. apply step_extends in Hstep as [Hd' Hi'].
  split; etrans; eauto.
Qed.

(** Once a pair is stored in the seen set, no later step lets it through
    again. *)
Lemma seen_never_again (callback : QueryPagesCallback) (sched : list action)
    (c c' : config) (h r : string) :
  consistent (shared c) ->
  exec callback sched c = Some c' ->
  has_seen h r (seenRangeValues (deduper (shared c))) = true ->
  exists later,
    delivered (shared c') = delivered (shared c) ++ later /\ (h, r) ∉ later.
Proof.
  intros Hc Hexec Hseen.
  pose proof (exec_consistent _ _ _ _ Hexec Hc) as (Hnd & _).
  destruct (exec_extends _ _ _ _ Hexec) as [[later Hlater] _].
  exists later. split; [exact Hlater |].
  rewrite Hlater in Hnd. apply NoDup_app in Hnd as (_ & Hdisj & _).
  intros Hin. apply (Hdisj (h, r)); [| exact Hin].
  apply Hc, Hseen.
Qed.

(** *** The coordinator *)

Definition exited_with (g : goroutine) : option error :=
  match g with
  | Exited err => Some err
  | _ => None
  end.

(** Workers that have not handed their error to the coordinator yet. *)
Definition running (gs : list goroutine) : nat :=
  length (filter (fun g => exited_with g = None) gs).

(** The loop [if err != nil { lastErr = err }] over what was received. *)
Definition last_error (errs : list error) : error :=
  foldl (fun acc err => match err with Some _ => err | None => acc end) None errs.

Definition coordinated (c : config) : Prop :=
  pending c = running (goroutines c)
  /\ Permutation (received c) (omap exited_with (goroutines c))
  /\ lastErr c = last_error (received c).

Lemma last_error_snoc (errs : list error) (err : error) :
  last_error (errs ++ [err])
  = match err with Some _ => err | None => last_error errs end.
Proof. unfold last_error. rewrite foldl_app. reflexivity. Qed.

Lemma last_error_None (errs : list error) :
  last_error errs = None <-> Forall (eq None) errs.
Proof.
  induction errs as [| err errs IH] using rev_ind.
  - split; [constructor | reflexivity].
  - rewrite last_error_snoc, Forall_app, Forall_singleton.
    destruct err as [e |]; [split; [discriminate | intros [_ [=]]] |].
    rewrite IH. tauto.
Qed.

(** A non-nil result is the most recent non-nil error received: one of
    the received errors, with only [nil]s after it. *)
Lemma last_error_Some (errs : list error) (e : string) :
  last_error errs = Some e <->
  exists before after, errs = before ++ Some e :: after /\ Forall (eq None) after.
Proof.
  induction errs as [| err errs IH] using rev_ind.
  - split; [discriminate |]. intros (before & after & Habs & _).
    destruct before; discriminate.
  - rewrite last_error_snoc. destruct err as [e' |].
    + split.
      * intros [= ->]. exists errs, []. split; [reflexivity | constructor].
      * intros (before & after & Heq & Hnone).
        destruct after as [| x after _] using rev_ind.
        -- apply app_inj_tail in Heq as [_ Heq]. exact Heq.
        -- rewrite app_comm_cons, app_assoc in Heq.
           apply app_inj_tail in Heq as [_ <-].
           apply Forall_app in Hnone as [_ Hx]. inversion Hx; discriminate.
    + rewrite IH. split.
      * intros (before & after & -> & Hnone). exists before, (after ++ [None]).
        split; [rewrite <- app_assoc; reflexivity |].
        apply Forall_app. split; [exact Hnone | repeat constructor].
      * intros (before & after & Heq & Hnone).
        destruct after as [| x after _] using rev_ind.
        -- apply app_inj_tail in Heq as [_ Heq]. discriminate.
        -- rewrite app_comm_cons, app_assoc in Heq.
           apply app_inj_tail in Heq as [-> _].
           apply Forall_app in Hnone as [Hnone _]. eauto.
Qed.

Lemma advance_running (callback : QueryPagesCallback) (g g' : goroutine) (w w' : world) :
  advance callback g w = Some (g', w') ->
  exited_with g = None /\ exited_with g' = None.
Proof.
  intros Hadv.
  destruct g as [[err | q b k] | q b its [continue | kc | h kc | update kc] k
                 | q b its h e kc k | err | err]; simpl in Hadv;
    try discriminate; try (injection Hadv as <- <-; split; reflexivity).
  - destruct (its !! h) as [it |]; [| injection Hadv as <- <-; split; reflexivity].
    destruct (Chunk.Next it) as [[e |] it']; [| injection Hadv as <- <-; split; reflexivity].
    destruct (isSeen_rlocked _ _ _); injection Hadv as <- <-; split; reflexivity.
  - destruct (isSeen_locked _ _ _) as [[] i']; injection Hadv as <- <-; split; reflexivity.
Qed.

Lemma running_app (l1 l2 : list goroutine) :
  running (l1 ++ l2) = running l1 + running l2.
Proof. unfold running. rewrite filter_app, length_app. reflexivity. Qed.

Lemma running_middle (l1 l2 : list goroutine) (g : goroutine) :
  running (l1 ++ g :: l2)
  = running l1 + (match exited_with g with None => 1 | Some _ => 0 end) + running l2
  /\ omap exited_with (l1 ++ g :: l2)
     = omap exited_with l1
         ++ (match exited_with g with None => [] | Some err => [err] end)
         ++ omap exited_with l2.
Proof.
  split.
  - rewrite running_app. change (g :: l2) with ([g] ++ l2). rewrite running_app.
    unfold running at 2. rewrite filter_cons, filter_nil.
    destruct (exited_with g); simpl; lia.
  - rewrite omap_app. cbn [omap list_omap]. destruct (exited_with g); reflexivity.
Qed.

Lemma insert_split (gs : list goroutine) (t : nat) (g g' : goroutine) :
  gs !! t = Some g ->
  gs = take t gs ++ g :: drop (S t) gs
  /\ <[t := g']> gs = take t gs ++ g' :: drop (S t) gs.
Proof.
  intros Ht. split.
  - symmetry. apply take_drop_middle, Ht.
  - apply insert_take_drop. eapply lookup_lt_Some; eauto.
Qed.

Lemma insert_still_running (gs : list goroutine) (t : nat) (g g' : goroutine) :
  gs !! t = Some g -> exited_with g = None -> exited_with g' = None ->
  running (<[t := g']> gs) = running gs
  /\ omap exited_with (<[t := g']> gs) = omap exited_with gs.
Proof.
  intros Ht Hg Hg'.
  destruct (insert_split gs t g g' Ht) as [Hgs Hins].
  rewrite Hins. clear Hins Ht.
  remember (take t gs) as l1 eqn:E1. remember (drop (S t) gs) as l2 eqn:E2.
  clear E1 E2. subst gs.
  destruct (running_middle l1 l2 g) as [-> ->].
  destruct (running_middle l1 l2 g') as [-> ->].
  rewrite Hg, Hg'. split; reflexivity.
Qed.

Lemma insert_exited (gs : list goroutine) (t : nat) (g : goroutine) (err : error) :
  gs !! t = Some g -> exited_with g = None ->
  S (running (<[t := Exited err]> gs)) = running gs
  /\ Permutation (omap exited_with (<[t := Exited err]> gs))
       (err :: omap exited_with gs).
Proof.
  intros Ht Hg.
  destruct (insert_split gs t g (Exited err) Ht) as [Hgs Hins].
  rewrite Hins. clear Hins Ht.
  remember (take t gs) as l1 eqn:E1. remember (drop (S t) gs) as l2 eqn:E2.
  clear E1 E2. subst gs.
  destruct (running_middle l1 l2 g) as [-> ->].
  destruct (running_middle l1 l2 (Exited err)) as [-> ->].
  rewrite Hg. cbn [exited_with]. split; [lia |].
  cbn [app]. symmetry. apply Permutation_middle.
Qed.

Lemma step_coordinated (callback : QueryPagesCallback) (a : action) (c c' : config) :
  step callback a c = Some c' -> coordinated c -> coordinated c'.
Proof.
  intros Hstep (Hpend & Hrecv & Hlast). destruct a as [t | t]; simpl in Hstep.
  - destruct (goroutines c !! t) as [g |] eqn:Ht; [| discriminate].
    destruct (advance callback g (shared c)) as [[g' w'] |] eqn:Hadv; [| discriminate].
    injection Hstep as <-. apply advance_running in Hadv as [Hg Hg'].
    destruct (insert_still_running _ _ _ _ Ht Hg Hg') as [Hrun Homap].
    unfold coordinated. simpl. rewrite Hrun, Homap. auto.
  - destruct (pending c) as [| n] eqn:Hp; [discriminate |].
    destruct (goroutines c !! t) as [[| | | err |] |] eqn:Ht; try discriminate.
    injection Hstep as <-.
    destruct (insert_exited _ _ _ err Ht eq_refl) as [Hrun Homap].
    unfold coordinated. simpl. split; [lia |]. split.
    + rewrite Homap, <- Hrecv. symmetry. apply Permutation_cons_append.
    + rewrite last_error_snoc, <- Hlast. reflexivity.
Qed.

Lemma exec_coordinated (callback : QueryPagesCallback) (sched : list action)
    (c c' : config) :
  exec callback sched c = Some c' -> coordinated c -> coordinated c'.
Proof. apply (exec_invariant callback coordinated), step_coordinated. Qed.

Lemma step_goroutines_length (callback : QueryPagesCallback) (a : action) (c c' : config) :
  step callback a c = Some c' -> length (goroutines c') = length (goroutines c).
Proof.
  intros Hstep. destruct a as [t | t]; simpl in Hstep.
  - destruct (goroutines c !! t) as [g |]; [| discriminate].
    destruct (advance callback g (shared c)) as [[g' w'] |]; [| discriminate].
    injection Hstep as <-. apply length_insert.
  - destruct (pending c) as [| n]; [discriminate |].
    destruct (goroutines c !! t) as [[] |]; try discriminate.
    injection Hstep as <-. apply length_insert.
Qed.

Lemma exec_goroutines_length (callback : QueryPagesCallback) (sched : list action)
    (c c' : config) :
  exec callback sched c = Some c' -> length (goroutines c') = length (goroutines c).
Proof.
  intros Hexec.
  apply (exec_invariant callback
           (fun c1 => length (goroutines c1) = length (goroutines c)))
    with (sched := sched) (c := c); [| exact Hexec | reflexivity].
  intros a c0 c1 Hstep Hlen. rewrite <- Hlen. eapply step_goroutines_length; eauto.
Qed.

(** When no worker is running any more, every worker has exited and its
    error is among the received ones. *)
Lemma running_0 (gs : list goroutine) :
  running gs = 0 ->
  Forall (fun g => exists err, g = Exited err) gs
  /\ length (omap exited_with gs) = length gs.
Proof.
  induction gs as [| g gs IH]; intros Hrun; [split; [constructor | reflexivity] |].
  change (g :: gs) with ([g] ++ gs) in Hrun. rewrite running_app in Hrun.
  destruct g as [| | | | err]; try (cbn in Hrun; discriminate).
  destruct (IH ltac:(cbn in Hrun; lia)) as [Hall Hlen].
  split; [constructor; eauto |]. cbn. rewrite Hlen. reflexivity.
Qed.

(** *** The call can always return *)

(** A worker that has not exited reaches its send on [errs] when it is
    left to run: neither the querier, nor the downstream callback, nor the
    deduper can block it. *)
Lemma can_finish (callback : QueryPagesCallback) (g : goroutine) (w : world) :
  exited_with g = None ->
  exists n err w', advances callback n g w = Some (Sending err, w').
Proof.
  intros Hg.
  assert (Hq : forall p w0, exists n err w',
             advances callback n (InQuerier p) w0 = Some (Sending err, w')).
  { intros p w0. destruct (solo_querier callback p w0) as [n Hn]. eauto. }
  assert (Hc : forall q b its c k w0, exists n err w',
             advances callback n (InCallback q b its c k) w0 = Some (Sending err, w')).
  { intros q b its c k w0. destruct (solo_client callback q b k c its w0) as [n Hn].
    destruct (Hq (k (fst (run_client c its q b w0))) (snd (run_client c its q b w0)))
      as (m & err & w' & Hm).
    exists (n + m), err, w'. rewrite (advances_app _ _ _ _ _ _ _ Hn). exact Hm. }
  destruct g as [p | q b its c k | q b its h e kc k | err | err].
  - apply Hq.
  - apply Hc.
  - destruct (advance callback (AwaitLock q b its h e kc k) w) as [[g1 w1] |] eqn:Hadv.
    + assert (Hg1 : exists c1, g1 = InCallback q b its c1 k).
      { cbn in Hadv. destruct (isSeen_locked _ _ _) as [[] i'];
          injection Hadv as <- <-; eauto. }
      destruct Hg1 as [c1 ->]. destruct (Hc q b its c1 k w1) as (n & err & w' & Hn).
      exists (S n), err, w'. cbn [advances]. rewrite Hadv. exact Hn.
    + cbn in Hadv. destruct (isSeen_locked _ _ _) as [[] i']; discriminate.
  - exists 0, err, w. reflexivity.
  - discriminate.
Qed.

Lemma exec_solo (callback : QueryPagesCallback) (t n : nat) :
  forall (c : config) (g g' : goroutine) (w' : world),
    goroutines c !! t = Some g ->
    advances callback n g (shared c) = Some (g', w') ->
    exec callback (replicate n (Run t)) c
    = Some {| shared := w'; goroutines := <[t := g']> (goroutines c);
              pending := pending c; lastErr := lastErr c; received := received c |}.
Proof.
  induction n as [| n IH]; intros c g g' w' Ht Hn; simpl in Hn.
  - injection Hn as <- <-. simpl. rewrite list_insert_id by exact Ht.
    destruct c; reflexivity.
  - destruct (advance callback g (shared c)) as [[g1 w1] |] eqn:Hadv; [| discriminate].
    cbn [replicate exec step]. rewrite Ht, Hadv.
    erewrite IH; [| | exact Hn].
    + simpl. rewrite list_insert_insert_eq. reflexivity.
    + simpl. apply list_lookup_insert_eq. eapply lookup_lt_Some; eauto.
Qed.

Lemma running_pos (gs : list goroutine) :
  0 < running gs -> exists t g, gs !! t = Some g /\ exited_with g = None.
Proof.
  induction gs as [| g gs IH]; intros Hpos; [cbn in Hpos; lia |].
  destruct (exited_with g) as [err |] eqn:Hg.
  - change (g :: gs) with ([g] ++ gs) in Hpos. rewrite running_app in Hpos.
    unfold running at 1 in Hpos. rewrite filter_cons, Hg in Hpos.
    rewrite decide_False in Hpos by discriminate. cbn in Hpos.
    destruct (IH Hpos) as (t & g0 & Ht & Hg0). exists (S t), g0. auto.
  - exists 0, g. auto.
Qed.

Lemma can_return (callback : QueryPagesCallback) (c : config) :
  coordinated c ->
  exists sched c', exec callback sched c = Some c' /\ returned c' = true.
Proof.
  remember (running (goroutines c)) as m eqn:Hm.
  revert c Hm. induction m as [| m IH]; intros c Hm Hc.
  - exists [], c. split; [reflexivity |].
    destruct Hc as [Hp _]. unfold returned. rewrite Hp, <- Hm. reflexivity.
  - destruct (running_pos (goroutines c)) as (t & g & Ht & Hg); [lia |].
    destruct (can_finish callback g (shared c) Hg) as (n & err & w' & Hn).
    pose proof (exec_solo callback t n c g _ _ Ht Hn) as Hsolo.
    set (c1 := {| shared := w'; goroutines := <[t := Sending err]> (goroutines c);
                  pending := pending c; lastErr := lastErr c;
                  received := received c |}) in Hsolo.
    pose proof (exec_coordinated _ _ _ _ Hsolo Hc) as Hc1.
    assert (Ht1 : goroutines c1 !! t = Some (Sending err))
      by (apply list_lookup_insert_eq; eapply lookup_lt_Some; eauto).
    assert (Hp1 : pending c1 = S m)
      by (subst c1; simpl; destruct Hc as [-> _]; symmetry; exact Hm).
    assert (Hrecv : exists c2, step callback (Receive t) c1 = Some c2 /\ pending c2 = m)
      by (unfold step; rewrite Hp1, Ht1; eexists; split; reflexivity).
    destruct Hrecv as (c2 & Hrecv & Hp2).
    pose proof (step_coordinated _ _ _ _ Hrecv Hc1) as Hc2.
    assert (Hm2 : m = running (goroutines c2)) by (destruct Hc2 as [<- _]; auto).
    destruct (IH c2 Hm2 Hc2) as (sched & c' & Hexec & Hret).
    exists (replicate n (Run t) ++ Receive t :: sched), c'. split; [| exact Hret].
    rewrite (exec_app _ _ _ _ _ Hsolo). cbn [exec]. rewrite Hrecv. exact Hexec.
Qed.

(** *** The state [DoParallelQueries] starts the fan-out in *)

Lemma running_fresh (ps : list querier) :
  running (map InQuerier ps) = length ps
  /\ omap exited_with (map InQuerier ps) = [].
Proof.
  induction ps as [| p ps [IH1 IH2]]; [split; reflexivity |].
  cbn [map]. change (InQuerier p :: map InQuerier ps)
    with ([] ++ InQuerier p :: map InQuerier ps).
  destruct (running_middle [] (map InQuerier ps) (InQuerier p)) as [-> ->].
  rewrite IH1, IH2. split; reflexivity.
Qed.

Lemma fan_out_start (tableQuerier : TableQuerier) (queries : list IndexQuery)
    (callback : QueryPagesCallback) (u : U) (start : config) :
  DoParallelQueries tableQuerier queries callback u = FanOut start ->
  maxQueriesPerGoroutine < length queries
  /\ start = {| shared := new_world u;
                goroutines := map (fun qs => InQuerier (tableQuerier qs))
                                (dispatch (length queries) 0 queries);
                pending := length (dispatch (length queries) 0 queries);
                lastErr := None; received := [] |}
  /\ consistent (shared start)
  /\ coordinated start.
Proof.
  unfold DoParallelQueries. intros Hstart.
  destruct (length queries =? 0); [discriminate |].
  destruct (Nat.leb_spec (length queries) maxQueriesPerGoroutine) as [Hle | Hgt];
    [discriminate |].
  injection Hstart as <-. rewrite receives_dispatch.
  split; [exact Hgt |]. split; [reflexivity |].
  split; [apply consistent_new |].
  unfold coordinated. simpl.
  rewrite <- (map_map tableQuerier InQuerier).
  destruct (running_fresh (map tableQuerier (dispatch (length queries) 0 queries)))
    as [-> ->].
  rewrite length_map. split; [reflexivity |]. split; reflexivity.
Qed.

(** *** The filtering view handed to the downstream callback *)

(** Every entry of the batch is already recorded for this hash value. *)
Definition all_seen (hashValue : string) (i : IndexDeduper) (entries : list Entry) : Prop :=
  Forall (fun e => has_seen hashValue (RangeValue e) (seenRangeValues i) = true) entries.

Lemma skip_seen_all_seen (hashValue : string) (i : IndexDeduper) (entries : list Entry) :
  all_seen hashValue i entries -> skip_seen hashValue entries i = (None, [], i).
Proof.
  induction 1 as [| e tl He _ IH]; [reflexivity |].
  cbn [skip_seen]. unfold isSeen, isSeen_rlocked. rewrite He. exact IH.
Qed.

Lemma skip_seen_Some (hashValue : string) (entries rest : list Entry)
    (i i' : IndexDeduper) (e : Entry) :
  skip_seen hashValue entries i = (Some e, rest, i') ->
  has_seen hashValue (RangeValue e) (seenRangeValues i) = false
  /\ has_seen hashValue (RangeValue e) (seenRangeValues i') = true.
Proof.
  revert i. induction entries as [| e0 tl IH]; intros i Hskip; [discriminate |].
  cbn [skip_seen] in Hskip. rewrite isSeen_eq_locked in Hskip.
  destruct (has_seen hashValue (RangeValue e0) (seenRangeValues i)) eqn:Hs.
  - rewrite isSeen_locked_old in Hskip by exact Hs. apply IH, Hskip.
  - rewrite isSeen_locked_new in Hskip by exact Hs. injection Hskip as <- <- <-.
    split; [exact Hs |]. apply has_seen_record_pair. left. split; reflexivity.
Qed.

Lemma run_client_invoked (c : client) (q : IndexQuery) (b : ReadBatch) :
  forall (its : list ReadBatchIterator) (w : world),
    invoked (snd (run_client c its q b w)) = invoked w.
Proof.
  induction c as [continue | kc IH | h kc IH | update kc IH]; intros its w;
    cbn [run_client].
  - reflexivity.
  - apply IH.
  - destruct (its !! h) as [it |]; [| apply IH].
    destruct (filteringBatchIter_Next _ _) as [[r f'] i']. rewrite IH. reflexivity.
  - rewrite IH. reflexivity.
Qed.

(** On a batch whose entries are all recorded already, the downstream
    callback gets nothing out of any iterator and leaves the deduper as it
    found it. *)
Lemma run_client_all_seen (c : client) (q : IndexQuery) (b : ReadBatch) :
  forall (its : list ReadBatchIterator) (w : world),
    all_seen (HashValue q) (deduper w) b ->
    Forall (all_seen (HashValue q) (deduper w)) its ->
    deduper (snd (run_client c its q b w)) = deduper w
    /\ delivered (snd (run_client c its q b w)) = delivered w.
Proof.
  induction c as [continue | kc IH | h kc IH | update kc IH]; intros its w Hb Hits;
    cbn [run_client].
  - split; reflexivity.
  - apply IH; [exact Hb |]. apply Forall_app. split; [exact Hits |].
    constructor; [exact Hb | constructor].
  - destruct (its !! h) as [it |] eqn:Hh; [| apply IH; assumption].
    unfold filteringBatchIter_Next. cbn [query inner].
    rewrite skip_seen_all_seen by (eapply Forall_lookup_1; eauto).
    cbn [inner let_through].
    match goal with
    | |- context [run_client (kc None) ?its' q b ?w'] =>
        destruct (IH None its' w') as [Hd Hl]
    end.
    + exact Hb.
    + cbn [deduper]. apply Forall_insert; [exact Hits | constructor].
    + split; [rewrite Hd | rewrite Hl]; reflexivity.
  - match goal with
    | |- context [run_client (kc (user w)) its q b ?w'] =>
        destruct (IH (user w) its w') as [Hd Hl]
    end; [exact Hb | exact Hits |].
    split; [rewrite Hd | rewrite Hl]; reflexivity.
Qed.

(** C9. [IndexDeduper.Callback] invokes the downstream callback exactly
    once for the (query, batch) pair it is given, on the filtering view of
    that batch, and hands its boolean back to the querier unchanged.  When
    every entry of the batch is a duplicate the downstream callback is
    still invoked: the iterator of its batch yields no entry, and nothing
    is let through. *)
Theorem Callback_invokes_downstream_once :
  forall (callback : QueryPagesCallback) (q : IndexQuery) (b : ReadBatch) (w : world),
    invoked (snd (Callback callback q b w)) = invoked w ++ [(q, b)]
    /\ Callback callback q b w
       = run_client (callback q) [] q b
           {| deduper := deduper w; user := user w; delivered := delivered w;
              invoked := invoked w ++ [(q, b)] |}
    /\ (forall k : bool -> querier,
          run_querier callback (Page q b k) w
          = run_querier callback (k (fst (Callback callback q b w)))
              (snd (Callback callback q b w)))
    /\ (all_seen (HashValue q) (deduper w) b ->
        filteringBatchIter_Next (filteringBatch_Iterator q b) (deduper w)
        = (None, {| query := q; inner := [] |}, deduper w)
        /\ invoked (snd (Callback callback q b w)) = invoked w ++ [(q, b)]
        /\ deduper (snd (Callback callback q b w)) = deduper w
        /\ delivered (snd (Callback callback q b w)) = delivered w).
Proof.
  intros callback q b w.
  assert (Hinv : invoked (snd (Callback callback q b w)) = invoked w ++ [(q, b)])
    by (unfold Callback; rewrite run_client_invoked; reflexivity).
  split; [exact Hinv |]. split; [reflexivity |]. split.
  - intros k. cbn [run_querier].
    destruct (Callback callback q b w) as [continue w']. reflexivity.
  - intros Hall. split; [| split; [exact Hinv |]].
    + unfold filteringBatchIter_Next, filteringBatch_Iterator, Chunk.Iterator.
      cbn [query inner]. rewrite skip_seen_all_seen by exact Hall. reflexivity.
    + unfold Callback.
      match goal with
      | |- context [run_client (callback q) [] q b ?w'] =>
          destruct (run_client_all_seen (callback q) q b [] w') as [Hd Hl]
      end; [exact Hall | constructor |].
      split; [rewrite Hd | rewrite Hl]; reflexivity.
Qed.

(** *** Every run is finite *)

(** [g'] is what goroutine [g] becomes by one step of its own, or by the
    coordinator receiving what it sends. *)
Definition becomes (callback : QueryPagesCallback) (g' g : goroutine) : Prop :=
  (exists w w', advance callback g w = Some (g', w'))
  \/ (exists err, g = Sending err /\ g' = Exited err).

Lemma Exited_final (callback : QueryPagesCallback) (err : error) :
  Acc (becomes callback) (Exited err).
Proof.
  constructor. intros g' [(w & w' & Hadv) | (e & Hs & _)]; discriminate.
Qed.

Lemma Sending_final (callback : QueryPagesCallback) (err : error) :
  Acc (becomes callback) (Sending err).
Proof.
  constructor. intros g' [(w & w' & Hadv) | (e & Hs & ->)]; [discriminate |].
  apply Exited_final.
Qed.

(** Entries still ahead of iterator [h]. *)
Definition remaining (h : nat) (its : list ReadBatchIterator) : nat :=
  match its !! h with
  | Some it => length it
  | None => 0
  end.

Lemma remaining_lookup (h : nat) (its : list ReadBatchIterator) (it : ReadBatchIterator) :
  its !! h = Some it -> remaining h its = length it.
Proof. unfold remaining, ReadBatchIterator. intros ->. reflexivity. Qed.

Lemma remaining_insert (h : nat) (its : list ReadBatchIterator) (it tl : ReadBatchIterator) :
  its !! h = Some it -> remaining h (<[h := tl]> its) = length tl.
Proof.
  intros Hh. apply remaining_lookup, list_lookup_insert_eq.
  eapply lookup_lt_Some; eauto.
Qed.

(** The loop of [filteringBatchIter.Next] ends: each turn consumes an
    entry of the wrapped iterator. *)
Lemma CallNext_ends (callback : QueryPagesCallback) (q : IndexQuery) (b : ReadBatch)
    (h : nat) (kc : option Entry -> client) (k : bool -> querier) :
  (forall r its, Acc (becomes callback) (InCallback q b its (kc r) k)) ->
  forall (n : nat) (its : list ReadBatchIterator),
    remaining h its <= n ->
    Acc (becomes callback) (InCallback q b its (CallNext h kc) k).
Proof.
  intros Hkc n. induction n as [n IH] using lt_wf_ind. intros its Hn.
  constructor. intros g' [(w & w' & Hadv) | (e & Hs & _)]; [| discriminate].
  cbn in Hadv. destruct (its !! h) as [it |] eqn:Hh;
    [| injection Hadv as <- _; apply Hkc].
  destruct it as [| e tl]; cbn in Hadv; [injection Hadv as <- _; apply Hkc |].
  assert (Hlt : remaining h (<[h := tl]> its) < n).
  { eapply Nat.le_lt_trans;
      [apply Nat.eq_le_incl; exact (remaining_insert h its _ tl Hh) |].
    pose proof (remaining_lookup h its _ Hh) as Hr. simpl in Hr. lia. }
  destruct (isSeen_rlocked _ _ _); injection Hadv as <- _.
  - eapply IH; [exact Hlt | reflexivity].
  - constructor. intros g' [(w1 & w1' & Hadv) | (e1 & Hs & _)]; [| discriminate].
    cbn in Hadv. destruct (isSeen_locked _ _ _) as [[] i']; injection Hadv as <- _.
    + eapply IH; [exact Hlt | reflexivity].
    + apply Hkc.
Qed.

Lemma InCallback_ends (callback : QueryPagesCallback) (q : IndexQuery) (b : ReadBatch)
    (k : bool -> querier) :
  (forall continue, Acc (becomes callback) (InQuerier (k continue))) ->
  forall (c : client) (its : list ReadBatchIterator),
    Acc (becomes callback) (InCallback q b its c k).
Proof.
  intros Hk c. induction c as [continue | kc IH | h kc IH | update kc IH]; intros its.
  - constructor. intros g' [(w & w' & Hadv) | (e & Hs & _)]; [| discriminate].
    cbn in Hadv. injection Hadv as <- _. apply Hk.
  - constructor. intros g' [(w & w' & Hadv) | (e & Hs & _)]; [| discriminate].
    cbn in Hadv. injection Hadv as <- _. apply IH.
  - apply (CallNext_ends callback q b h kc k) with (n := remaining h its);
      [| reflexivity].
    intros r its'. apply IH.
  - constructor. intros g' [(w & w' & Hadv) | (e & Hs & _)]; [| discriminate].
    cbn in Hadv. injection Hadv as <- _. apply IH.
Qed.

Lemma InQuerier_ends (callback : QueryPagesCallback) (p : querier) :
  Acc (becomes callback) (InQuerier p).
Proof.
  induction p as [err | q b k IH];
    constructor; intros g' [(w & w' & Hadv) | (e & Hs & _)]; try discriminate;
    cbn in Hadv; injection Hadv as <- _.
  - apply Sending_final.
  - apply InCallback_ends, IH.
Qed.

Lemma goroutine_ends (callback : QueryPagesCallback) (g : goroutine) :
  Acc (becomes callback) g.
Proof.
  destruct g as [p | q b its c k | q b its h e kc k | err | err].
  - apply InQuerier_ends.
  - apply InCallback_ends. intros continue. apply InQuerier_ends.
  - constructor. intros g' [(w & w' & Hadv) | (e1 & Hs & _)]; [| discriminate].
    cbn in Hadv. destruct (isSeen_locked _ _ _) as [[] i']; injection Hadv as <- _;
      apply InCallback_ends; intros continue; apply InQuerier_ends.
  - apply Sending_final.
  - apply Exited_final.
Qed.

(** One goroutine of the list moves on, the others stay. *)
Definition one_becomes (callback : QueryPagesCallback) (gs' gs : list goroutine) : Prop :=
  exists t g g', gs !! t = Some g /\ becomes callback g' g /\ gs' = <[t := g']> gs.

Lemma goroutines_end (callback : QueryPagesCallback) (gs : list goroutine) :
  Acc (one_becomes callback) gs.
Proof.
  induction gs as [| g gs IHgs].
  - constructor. intros gs' (t & g & g' & Ht & _). discriminate.
  - pose proof (goroutine_ends callback g) as Hg. revert gs IHgs.
    induction Hg as [g _ IHg]. intros gs Hgs.
    induction Hgs as [gs Hacc IHgs].
    constructor. intros gs' (t & g0 & g0' & Ht & Hnext & ->).
    destruct t as [| t]; simpl in *.
    + injection Ht as ->. apply IHg; [exact Hnext | constructor; exact Hacc].
    + apply IHgs. exists t, g0, g0'. auto.
Qed.

(** No schedule goes on for ever: the relation "is reached by one enabled
    step from" is well founded. *)
Lemma every_run_ends (callback : QueryPagesCallback) (c : config) :
  Acc (fun c' c0 => exists a, step callback a c0 = Some c') c.
Proof.
  pose proof (goroutines_end callback (goroutines c)) as Hgs.
  remember (goroutines c) as gs eqn:Heq. revert c Heq.
  induction Hgs as [gs _ IH]. intros c ->.
  constructor. intros c' [a Hstep].
  apply (IH (goroutines c')); [| reflexivity].
  destruct a as [t | t]; simpl in Hstep.
  - destruct (goroutines c !! t) as [g |] eqn:Ht; [| discriminate].
    destruct (advance callback g (shared c)) as [[g' w'] |] eqn:Hadv; [| discriminate].
    injection Hstep as <-. exists t, g, g'. split; [exact Ht |].
    split; [left; eauto | reflexivity].
  - destruct (pending c) as [| n]; [discriminate |].
    destruct (goroutines c !! t) as [[| | | err |] |] eqn:Ht; try discriminate.
    injection Hstep as <-. exists t, (Sending err), (Exited err).
    split; [exact Ht |]. split; [right; eauto | reflexivity].
Qed.

(** *** The claims about [DoParallelQueries] *)

Lemma filteringBatchIter_Next_Some (f f' : filteringBatchIter) (i i' : IndexDeduper)
    (e : Entry) :
  filteringBatchIter_Next f i = (Some e, f', i') ->
  has_seen (HashValue (query f)) (RangeValue e) (seenRangeValues i) = false
  /\ has_seen (HashValue (query f)) (RangeValue e) (seenRangeValues i') = true.
Proof.
  unfold filteringBatchIter_Next.
  destruct (skip_seen (HashValue (query f)) (inner f) i) as [[r it] i1] eqn:Hskip.
  intros [= -> <- ->]. eapply skip_seen_Some; eauto.
Qed.

(** C1. Within one [DoParallelQueries] call, whatever the querier returns
    to its workers and however the workers interleave, every (hash value,
    range value) pair is let through to the downstream callback at most
    once: the history of pairs let through has no repetition and is
    exactly the content of the seen set, on the synchronous path and after
    every schedule of the fan-out; a pair that the seen set holds is never
    let through by any later step; and [filteringBatchIter.Next] only
    stops on an entry whose pair was not recorded before and is recorded
    afterwards. *)
Theorem at_most_once_per_pair :
  forall (tableQuerier : TableQuerier) (queries : list IndexQuery)
         (callback : QueryPagesCallback) (u : U),
    (forall res : error * world,
        DoParallelQueries tableQuerier queries callback u = Synchronous res ->
        NoDup (delivered (snd res))
        /\ forall h r : string,
             (h, r) ∈ delivered (snd res)
             <-> has_seen h r (seenRangeValues (deduper (snd res))) = true)
    /\ (forall (start : config) (sched : list action) (c : config),
          DoParallelQueries tableQuerier queries callback u = FanOut start ->
          exec callback sched start = Some c ->
          NoDup (delivered (shared c))
          /\ (forall h r : string,
                (h, r) ∈ delivered (shared c)
                <-> has_seen h r (seenRangeValues (deduper (shared c))) = true)
          /\ (forall (h r : string) (sched' : list action) (c' : config),
                has_seen h r (seenRangeValues (deduper (shared c))) = true ->
                exec callback sched' c = Some c' ->
                exists later,
                  delivered (shared c') = delivered (shared c) ++ later
                  /\ (h, r) ∉ later))
    /\ (forall (f f' : filteringBatchIter) (i i' : IndexDeduper) (e : Entry),
          filteringBatchIter_Next f i = (Some e, f', i') ->
          has_seen (HashValue (query f)) (RangeValue e) (seenRangeValues i) = false
          /\ has_seen (HashValue (query f)) (RangeValue e) (seenRangeValues i') = true).
Proof.
  intros tableQuerier queries callback u. split; [| split].
  - intros res Hsync. unfold DoParallelQueries in Hsync.
    destruct (length queries =? 0); [discriminate |].
    destruct (length queries <=? maxQueriesPerGoroutine); [| discriminate].
    injection Hsync as <-.
    destruct (run_querier_consistent callback (tableQuerier queries) (new_world u)
                (consistent_new u)) as (Hnd & Hiff & _).
    split; assumption.
  - intros start sched c Hstart Hexec.
    apply fan_out_start in Hstart as (_ & _ & Hcons & _).
    pose proof (exec_consistent _ _ _ _ Hexec Hcons) as Hc.
    destruct Hc as (Hnd & Hiff & Hrest).
    split; [exact Hnd |]. split; [exact Hiff |].
    intros h r sched' c' Hseen Hexec'.
    eapply seen_never_again; eauto. split; [exact Hnd |]. split; [exact Hiff | exact Hrest].
  - apply filteringBatchIter_Next_Some.
Qed.

(** *** What a worker hands to the coordinator *)

(** What the [MultiQueries] call [p] returns when the callback answers
    [answers] to its pages, one after the other; [None] when the answers
    are not those of a whole run of [p] (too few or too many). *)
Fixpoint returns_with (p : querier) (answers : list bool) : option error :=
  match p, answers with
  | Finish err, [] => Some err
  | Page _ _ k, r :: rest => returns_with (k r) rest
  | _, _ => None
  end.

(** What is left of the [MultiQueries] call [p] after these answers. *)
Fixpoint after_answers (p : querier) (answers : list bool) {struct answers}
    : option querier :=
  match answers with
  | [] => Some p
  | r :: rest =>
      match p with
      | Page _ _ k => after_answers (k r) rest
      | Finish _ => None
      end
  end.

(** What is left of the [MultiQueries] call of a worker: in the callback
    it is on the page it handed over, after the call it has the error the
    call returned. *)
Definition position (g : goroutine) : querier :=
  match g with
  | InQuerier p => p
  | InCallback q b _ _ k => Page q b k
  | AwaitLock q b _ _ _ _ k => Page q b k
  | Sending err => Finish err
  | Exited err => Finish err
  end.

(** The answer [id.Callback] is about to return to the querier, if the
    worker stands at the [return] of the downstream callback. *)
Definition answer (g : goroutine) : list bool :=
  match g with
  | InCallback _ _ _ (Return continue) _ => [continue]
  | _ => []
  end.

(** What [id.Callback] answered to the [MultiQueries] call of worker [t],
    invocation after invocation, in the run of [sched] from [c]. *)
Fixpoint answers (callback : QueryPagesCallback) (t : nat) (sched : list action)
    (c : config) : list bool :=
  match sched with
  | [] => []
  | a :: rest =>
      match step callback a c with
      | None => []
      | Some c' =>
          match a with
          | Run t' =>
              if t' =? t
              then from_option answer [] (goroutines c !! t)
                     ++ answers callback t rest c'
              else answers callback t rest c'
          | Receive _ => answers callback t rest c'
          end
      end
  end.

Lemma after_answers_app (p p' : querier) (a b : list bool) :
  after_answers p a = Some p' ->
  after_answers p (a ++ b) = after_answers p' b.
Proof.
  revert p. induction a as [| r a IH]; intros p Ha; simpl in *.
  - injection Ha as ->. reflexivity.
  - destruct p as [err | q batch k]; [discriminate |]. apply IH, Ha.
Qed.

Lemma after_answers_Finish (p : querier) (a : list bool) (err : error) :
  after_answers p a = Some (Finish err) <-> returns_with p a = Some err.
Proof.
  revert p. induction a as [| r a IH]; intros p; simpl.
  - destruct p as [err' | q batch k]; simpl; split; intros H;
      try discriminate; injection H as ->; reflexivity.
  - destruct p as [err' | q batch k]; simpl; [split; discriminate | apply IH].
Qed.

(** Run on its own, [MultiQueries] returns what [returns_with] says for
    the answers the callback gives. *)
Lemma run_querier_returns_with (callback : QueryPagesCallback) (p : querier) (w : world) :
  exists a : list bool, returns_with p a = Some (fst (run_querier callback p w)).
Proof.
  revert w. induction p as [err | q batch k IH]; intros w.
  - exists []. reflexivity.
  - cbn [run_querier]. destruct (Callback callback q batch w) as [continue w'].
    destruct (IH continue w') as [a Ha]. exists (continue :: a). exact Ha.
Qed.

(** A step of a worker moves its [MultiQueries] call by the answer it
    returns, if any; nothing else moves it. *)
Lemma advance_position (callback : QueryPagesCallback) (g g' : goroutine) (w w' : world) :
  advance callback g w = Some (g', w') ->
  after_answers (position g) (answer g) = Some (position g').
Proof.
  intros Hadv.
  destruct g as [[err | q b k] | q b its [continue | kc | h kc | update kc] k
                 | q b its h e kc k | err | err]; simpl in Hadv;
    try discriminate; try (injection Hadv as <- <-; reflexivity).
  - destruct (its !! h) as [it |]; [| injection Hadv as <- <-; reflexivity].
    destruct (Chunk.Next it) as [[e |] it'];
      [| injection Hadv as <- <-; reflexivity].
    destruct (isSeen_rlocked (HashValue q) (RangeValue e) (deduper w));
      injection Hadv as <- <-; reflexivity.
  - destruct (isSeen_locked (HashValue q) (RangeValue e) (deduper w)) as [seen i'].
    destruct seen; injection Hadv as <- <-; reflexivity.
Qed.

Lemma exec_position (callback : QueryPagesCallback) (t : nat) (p0 : querier)
    (sched : list action) :
  forall (c c' : config) (pre : list bool) (g : goroutine),
    exec callback sched c = Some c' ->
    goroutines c !! t = Some g ->
    after_answers p0 pre = Some (position g) ->
    exists g' : goroutine,
      goroutines c' !! t = Some g'
      /\ after_answers p0 (pre ++ answers callback t sched c) = Some (position g').
Proof.
  induction sched as [| a sched IH]; intros c c' pre g Hexec Ht Hpre; simpl in Hexec.
  - injection Hexec as <-. exists g. simpl. rewrite app_nil_r. auto.
  - cbn [answers].
    destruct (step callback a c) as [c1 |] eqn:Hstep; [| discriminate].
    destruct a as [t' | t']; simpl in Hstep.
    + destruct (goroutines c !! t') as [g0 |] eqn:Ht'; [| discriminate].
      destruct (advance callback g0 (shared c)) as [[g1 w1] |] eqn:Hadv; [| discriminate].
      injection Hstep as <-.
      destruct (Nat.eqb_spec t' t) as [-> | Hne].
      * rewrite Ht in Ht'. injection Ht' as <-. rewrite Ht. simpl.
        rewrite app_assoc.
        apply (IH _ c' (pre ++ answer g) g1 Hexec).
        -- simpl. apply list_lookup_insert_eq. eapply lookup_lt_Some; eauto.
        -- rewrite (after_answers_app _ _ _ _ Hpre).
           eapply advance_position; eauto.
      * apply (IH _ c' pre g Hexec); [| exact Hpre].
        simpl. rewrite list_lookup_insert_ne by exact Hne. exact Ht.
    + destruct (pending c) as [| n]; [discriminate |].
      destruct (goroutines c !! t') as [[| | | err |] |] eqn:Ht'; try discriminate.
      injection Hstep as <-.
      destruct (Nat.eq_dec t' t) as [-> | Hne].
      * rewrite Ht in Ht'. injection Ht' as ->.
        apply (IH _ c' pre (Exited err) Hexec); [| exact Hpre].
        simpl. apply list_lookup_insert_eq. eapply lookup_lt_Some; eauto.
      * apply (IH _ c' pre g Hexec); [| exact Hpre].
        simpl. rewrite list_lookup_insert_ne by exact Hne. exact Ht.
Qed.

(** In the fan-out, a worker that has exited hands over the error its
    [MultiQueries] call returned on its slice, given the answers that
    [id.Callback] gave it in this run. *)
Lemma exited_returns_with (tableQuerier : TableQuerier) (queries : list IndexQuery)
    (callback : QueryPagesCallback) (u : U) (start : config) (sched : list action)
    (c : config) (t : nat) (qs : list IndexQuery) (g : goroutine) :
  DoParallelQueries tableQuerier queries callback u = FanOut start ->
  exec callback sched start = Some c ->
  dispatch (length queries) 0 queries !! t = Some qs ->
  goroutines c !! t = Some g ->
  after_answers (tableQuerier qs) (answers callback t sched start) = Some (position g).
Proof.
  intros Hstart Hexec Hqs Hg.
  apply fan_out_start in Hstart as (_ & -> & _ & _).
  destruct (exec_position callback t (tableQuerier qs) sched _ c []
              (InQuerier (tableQuerier qs)) Hexec) as (g' & Hg' & Hpos).
  - simpl. rewrite list_lookup_fmap, Hqs. reflexivity.
  - reflexivity.
  - rewrite Hg in Hg'. injection Hg' as <-. exact Hpos.
Qed.

(** When the coordinator returns, every worker has handed over what its
    [MultiQueries] call returned. *)
Lemma returned_hands_over (tableQuerier : TableQuerier) (queries : list IndexQuery)
    (callback : QueryPagesCallback) (u : U) (start : config) (sched : list action)
    (c : config) :
  DoParallelQueries tableQuerier queries callback u = FanOut start ->
  exec callback sched start = Some c ->
  returned c = true ->
  forall (t : nat) (qs : list IndexQuery),
    dispatch (length queries) 0 queries !! t = Some qs ->
    exists err : error,
      goroutines c !! t = Some (Exited err)
      /\ returns_with (tableQuerier qs) (answers callback t sched start) = Some err.
Proof.
  intros Hstart Hexec Hret t qs Hqs.
  destruct (fan_out_start _ _ _ _ _ Hstart) as (_ & Hform & _ & Hcoord).
  destruct (exec_coordinated _ _ _ _ Hexec Hcoord) as (Hpend & _ & _).
  unfold returned in Hret. apply Nat.eqb_eq in Hret.
  destruct (running_0 (goroutines c)) as [Hall _]; [congruence |].
  assert (Hlen : length (goroutines c) = length (dispatch (length queries) 0 queries)).
  { rewrite (exec_goroutines_length _ _ _ _ Hexec), Hform. simpl. apply length_map. }
  destruct (lookup_lt_is_Some_2 (goroutines c) t) as [g Hg].
  { rewrite Hlen. eapply lookup_lt_Some; eauto. }
  destruct (proj1 (Forall_forall _ _) Hall g) as [err ->];
    [eapply list_elem_of_lookup_2; eauto |].
  exists err. split; [exact Hg |].
  apply after_answers_Finish.
  exact (exited_returns_with _ _ _ _ _ _ _ _ _ _ Hstart Hexec Hqs Hg).
Qed.

(** Every exit error of the workers is the result of one of the
    [MultiQueries] calls. *)
Lemma exited_is_handed_over (tableQuerier : TableQuerier) (queries : list IndexQuery)
    (callback : QueryPagesCallback) (u : U) (start : config) (sched : list action)
    (c : config) (x : error) :
  DoParallelQueries tableQuerier queries callback u = FanOut start ->
  exec callback sched start = Some c ->
  returned c = true ->
  x ∈ omap exited_with (goroutines c) ->
  exists (t : nat) (qs : list IndexQuery),
    dispatch (length queries) 0 queries !! t = Some qs
    /\ returns_with (tableQuerier qs) (answers callback t sched start) = Some x.
Proof.
  intros Hstart Hexec Hret Hx.
  apply list_elem_of_omap in Hx as (g & Hg & Hexit).
  apply list_elem_of_lookup in Hg as [t Ht].
  destruct (fan_out_start _ _ _ _ _ Hstart) as (_ & Hform & _ & _).
  assert (Hlen : length (goroutines c) = length (dispatch (length queries) 0 queries)).
  { rewrite (exec_goroutines_length _ _ _ _ Hexec), Hform. simpl. apply length_map. }
  destruct (lookup_lt_is_Some_2 (dispatch (length queries) 0 queries) t) as [qs Hqs].
  { rewrite <- Hlen. eapply lookup_lt_Some; eauto. }
  destruct (returned_hands_over _ _ _ _ _ _ _ Hstart Hexec Hret t qs Hqs)
    as (err & Hg & Hres).
  rewrite Ht in Hg. injection Hg as ->. simpl in Hexit. injection Hexit as ->.
  exists t, qs. split; assumption.
Qed.

(** C3. On an empty query list [DoParallelQueries] returns [nil] whatever
    the querier is; on at most [maxQueriesPerGoroutine] queries it returns
    what the single [MultiQueries] call returns.  In the fan-out, when the
    coordinator returns every worker has exited, it has received exactly
    one error value from each, and it returns the most recent non-nil one
    of them as it is ([nil] exactly when all were [nil]).  The value each
    worker hands over is what its [MultiQueries] call on its slice
    returned, given the answers [id.Callback] gave it in the run: so a
    non-nil result is the error one of these calls returned, unchanged,
    and the result is [nil] exactly when every one of these calls returned
    [nil].  What was let through to the downstream callback at any point
    is still there afterwards; from every point of every run the call can
    still return, and no run goes on for ever (the querier and the
    downstream callback being programs that end). *)
Theorem DoParallelQueries_returns_last_error :
  forall (tableQuerier : TableQuerier) (queries : list IndexQuery)
         (callback : QueryPagesCallback) (u : U),
    (queries = [] ->
     forall other : TableQuerier,
       DoParallelQueries other queries callback u = NoQueries)
    /\ (forall res : error * world,
          DoParallelQueries tableQuerier queries callback u = Synchronous res ->
          res = run_querier callback (tableQuerier queries) (new_world u)
          /\ delivered (new_world u) `prefix_of` delivered (snd res))
    /\ (forall (start : config) (sched : list action) (c : config),
          DoParallelQueries tableQuerier queries callback u = FanOut start ->
          exec callback sched start = Some c ->
          (returned c = true ->
           Forall (fun g => exists err, g = Exited err) (goroutines c)
           /\ Permutation (received c) (omap exited_with (goroutines c))
           /\ length (received c) = length (goroutines start)
           /\ lastErr c = last_error (received c)
           /\ (lastErr c = None <-> Forall (eq None) (received c))
           /\ (forall e : string,
                 lastErr c = Some e <->
                 exists before after,
                   received c = before ++ Some e :: after /\ Forall (eq None) after)
           /\ (forall (t : nat) (qs : list IndexQuery),
                 dispatch (length queries) 0 queries !! t = Some qs ->
                 exists err : error,
                   goroutines c !! t = Some (Exited err)
                   /\ returns_with (tableQuerier qs) (answers callback t sched start)
                      = Some err)
           /\ (forall e : string,
                 lastErr c = Some e ->
                 exists (t : nat) (qs : list IndexQuery),
                   dispatch (length queries) 0 queries !! t = Some qs
                   /\ returns_with (tableQuerier qs) (answers callback t sched start)
                      = Some (Some e))
           /\ (lastErr c = None <->
               forall (t : nat) (qs : list IndexQuery),
                 dispatch (length queries) 0 queries !! t = Some qs ->
                 returns_with (tableQuerier qs) (answers callback t sched start)
                 = Some None))
          /\ (forall (sched' : list action) (c' : config),
                exec callback sched' c = Some c' ->
                delivered (shared c) `prefix_of` delivered (shared c')
                /\ invoked (shared c) `prefix_of` invoked (shared c'))
          /\ (exists (sched' : list action) (c' : config),
                exec callback sched' c = Some c' /\ returned c' = true)
          /\ Acc (fun c' c0 : config => exists a, step callback a c0 = Some c') c).
Proof.
  intros tableQuerier queries callback u. split; [| split].
  - intros -> other. reflexivity.
  - intros res Hsync. unfold DoParallelQueries in Hsync.
    destruct (length queries =? 0); [discriminate |].
    destruct (length queries <=? maxQueriesPerGoroutine); [| discriminate].
    injection Hsync as <-. split; [reflexivity |]. apply run_querier_extends.
  - intros start sched c Hstart Hexec.
    destruct (fan_out_start _ _ _ _ _ Hstart) as (_ & _ & _ & Hcoord).
    pose proof (exec_coordinated _ _ _ _ Hexec Hcoord) as Hc.
    split; [| split; [| split]].
    + intros Hret.
      pose proof (returned_hands_over _ _ _ _ _ _ _ Hstart Hexec Hret) as Hhand.
      pose proof (fun x => exited_is_handed_over _ _ _ _ _ _ _ x Hstart Hexec Hret)
        as Hfrom.
      destruct Hc as (Hpend & Hrecv & Hlast).
      unfold returned in Hret. apply Nat.eqb_eq in Hret.
      destruct (running_0 (goroutines c)) as [Hall Hlen]; [congruence |].
      split; [exact Hall |]. split; [exact Hrecv |].
      split.
      { rewrite (Permutation_length Hrecv), Hlen.
        eapply exec_goroutines_length; eauto. }
      split; [exact Hlast |]. rewrite Hlast.
      split; [apply last_error_None |].
      split; [intros e; apply last_error_Some |].
      split; [exact Hhand |]. split.
      * intros e He. apply last_error_Some in He as (before & after & Heq & _).
        apply Hfrom. rewrite <- Hrecv, Heq.
        apply elem_of_app. right. apply list_elem_of_here.
      * rewrite last_error_None, Forall_forall. split.
        -- intros Hnone t qs Hqs. destruct (Hhand t qs Hqs) as (err & Hg & Hres).
           rewrite Hres. f_equal. symmetry. apply Hnone. rewrite Hrecv.
           apply list_elem_of_omap. exists (Exited err).
           split; [eapply list_elem_of_lookup_2; eauto | reflexivity].
        -- intros Hnil x Hx. rewrite Hrecv in Hx.
           destruct (Hfrom x Hx) as (t & qs & Hqs & Hres).
           rewrite (Hnil t qs Hqs) in Hres. injection Hres as <-. reflexivity.
    + intros sched' c' Hexec'. eapply exec_extends; eauto.
    + apply can_return, Hc.
    + apply every_run_ends.
Qed.

(** C4. With between one and [maxQueriesPerGoroutine] = 100 queries
    [DoParallelQueries] makes one synchronous [MultiQueries] call on the
    whole list.  With more, it cuts the list, in order, into
    [ceil(len/100)] consecutive slices of at most 100 queries (all but the
    last of exactly 100; 250 queries give slices of 100, 100 and 50),
    starts one worker per slice, receives once per worker, and all workers
    go through the one deduper created for the call: after any schedule
    the pairs let through by all workers together have no repetition. *)
Theorem DoParallelQueries_dispatch :
  forall (tableQuerier : TableQuerier) (queries : list IndexQuery)
         (callback : QueryPagesCallback) (u : U),
    (1 <= length queries <= maxQueriesPerGoroutine ->
     DoParallelQueries tableQuerier queries callback u
     = Synchronous (run_querier callback (tableQuerier queries) (new_world u)))
    /\ (maxQueriesPerGoroutine < length queries ->
        exists start : config,
          DoParallelQueries tableQuerier queries callback u = FanOut start
          /\ goroutines start
             = map (fun qs => InQuerier (tableQuerier qs))
                 (dispatch (length queries) 0 queries)
          /\ pending start = length (goroutines start)
          /\ shared start = new_world u
          /\ forall (sched : list action) (c : config),
               exec callback sched start = Some c ->
               length (goroutines c) = length (goroutines start)
               /\ NoDup (delivered (shared c)))
    /\ (concat (dispatch (length queries) 0 queries) = queries
        /\ length (dispatch (length queries) 0 queries)
           = (length queries + (maxQueriesPerGoroutine - 1)) / maxQueriesPerGoroutine
        /\ Forall (fun qs => 1 <= length qs <= maxQueriesPerGoroutine)
             (dispatch (length queries) 0 queries)
        /\ (forall (k : nat) (qs : list IndexQuery),
              dispatch (length queries) 0 queries !! k = Some qs ->
              qs = take maxQueriesPerGoroutine
                     (drop (k * maxQueriesPerGoroutine) queries)
              /\ (S k < length (dispatch (length queries) 0 queries) ->
                  length qs = maxQueriesPerGoroutine)))
    /\ (length queries = 250 ->
        map length (dispatch (length queries) 0 queries) = [100; 100; 50]).
Proof.
  intros tableQuerier queries callback u. split; [| split; [| split]].
  - intros [Hpos Hle]. unfold DoParallelQueries.
    destruct (Nat.eqb_spec (length queries) 0) as [H0 | _]; [lia |].
    destruct (Nat.leb_spec (length queries) maxQueriesPerGoroutine) as [_ | Hgt];
      [reflexivity | lia].
  - intros Hgt.
    assert (Hstart : exists start,
               DoParallelQueries tableQuerier queries callback u = FanOut start).
    { unfold DoParallelQueries.
      destruct (Nat.eqb_spec (length queries) 0) as [H0 | _];
        [unfold maxQueriesPerGoroutine in Hgt; lia |].
      destruct (Nat.leb_spec (length queries) maxQueriesPerGoroutine) as [Hle | _];
        [lia | eauto]. }
    destruct Hstart as [start Hstart]. exists start. split; [exact Hstart |].
    destruct (fan_out_start _ _ _ _ _ Hstart) as (_ & Heq & Hcons & _).
    rewrite Heq. cbn [goroutines pending shared]. rewrite length_map.
    split; [reflexivity |]. split; [reflexivity |]. split; [reflexivity |].
    rewrite <- Heq. intros sched c Hexec. split.
    + rewrite (exec_goroutines_length _ _ _ _ Hexec), Heq. cbn [goroutines].
      rewrite length_map. reflexivity.
    + apply (exec_consistent _ _ _ _ Hexec Hcons).
  - split; [rewrite dispatch_concat by lia; reflexivity |].
    split; [rewrite dispatch_length by lia; f_equal; lia |].
    split; [apply dispatch_sizes |].
    intros k qs Hk. split.
    + apply dispatch_lookup in Hk as [-> _]. reflexivity.
    + intros Hnext. eapply dispatch_full; eauto.
  - intros H250.
    assert (Hlen : length (dispatch (length queries) 0 queries) = 3)
      by (rewrite dispatch_length by lia; rewrite H250; reflexivity).
    apply list_eq. intros k. rewrite list_lookup_fmap.
    destruct (dispatch (length queries) 0 queries !! k) as [qs |] eqn:Hk.
    + pose proof (lookup_lt_Some _ _ _ Hk) as Hlt.
      apply dispatch_lookup in Hk as [-> _]. cbn [fmap option_fmap option_map].
      rewrite length_take, length_drop, H250. unfold maxQueriesPerGoroutine.
      destruct k as [| [| [| k]]]; [reflexivity | reflexivity | reflexivity | lia].
    + apply lookup_ge_None in Hk. rewrite Hlen in Hk.
      symmetry. apply lookup_ge_None. simpl. lia.
Qed.

End Callbacks.
Arguments client U : clear implicits.
Arguments querier : clear implicits.
Arguments world U : clear implicits.
Arguments goroutine U : clear implicits.
Arguments config U : clear implicits.
Arguments execution U : clear implicits.
Arguments QueryPagesCallback U : clear implicits.

(** *** Scenarios *)

Definition q1 : IndexQuery :=
  {| TableName := "index_19000"; HashValue := "h1"; RangeValuePrefix := "";
     RangeValueStart := ""; ValueEqual := ""; Immutable := false |}.

Definition q2 : IndexQuery :=
  {| TableName := "index_19000"; HashValue := "h2"; RangeValuePrefix := "";
     RangeValueStart := ""; ValueEqual := ""; Immutable := false |}.

Definition r1 : Entry := {| RangeValue := "r1"; Value := "v1" |}.
Definition r2 : Entry := {| RangeValue := "r2"; Value := "v2" |}.

(** A downstream callback that opens one iterator on its batch, collects
    the entries it yields (at most [n] of them) into the slice it closes
    over, and asks for further pages. *)
Fixpoint collect (n : nat) (it : nat) : client (list Entry) :=
  match n with
  | 0 => Return true
  | S n' =>
      CallNext it (fun r =>
        match r with
        | Some e => Access (fun acc => acc ++ [e]) (fun _ => collect n' it)
        | None => Return true
        end)
  end.

Definition collector : QueryPagesCallback (list Entry) :=
  fun _ => OpenIterator (collect 10).

(** A querier answering with two overlapping batches: [{h1, r1}], then
    [{h1, r1}, {h1, r2}]. *)
Definition overlapping : TableQuerier :=
  fun _ => Page q1 [r1] (fun _ => Page q1 [r1; r2] (fun _ => Finish None)).

(** A querier that returns the same batch for every slice, and fails after
    it on the slice that starts with a query for [h1]. *)
Definition flaky : TableQuerier :=
  fun qs =>
    match qs with
    | q :: _ =>
        if String.eqb (HashValue q) "h1"
        then Page q1 [r1; r2] (fun _ => Finish (Some "timeout"))
        else Page q1 [r1; r2] (fun _ => Finish None)
    | [] => Finish None
    end.

(** 101 queries: two workers.  In [racing] both workers find [r1] unseen
    under the read lock before either takes the write lock. *)
Definition two_slices : list IndexQuery := q1 :: replicate 100 q2.

Definition racing : list action :=
  [Run 0; Run 1; Run 0; Run 1; Run 0; Run 1; Run 0; Run 1]
    ++ replicate 6 (Run 1) ++ [Receive 1] ++ replicate 5 (Run 0) ++ [Receive 0].

Example overlapping_batches :
  DoParallelQueries overlapping [q1] collector []
  = Synchronous
      (None,
       {| deduper := {| seenRangeValues := {[ "h1" := {[ "r1"; "r2" ]} ]};
                        numEntriesSent := 2 |};
          user := [r1; r2];
          delivered := [("h1", "r1"); ("h1", "r2")];
          invoked := [(q1, [r1]); (q1, [r1; r2])] |}).
Proof. vm_compute. reflexivity. Qed.

Definition racing_start : config (list Entry) :=
  {| shared := new_world [];
     goroutines := [InQuerier (flaky (q1 :: replicate 99 q2)); InQuerier (flaky [q2])];
     pending := 2; lastErr := None; received := [] |}.

Example racing_outcome :
  option_map (fun c => (delivered (shared c), user (shared c), received c, lastErr c,
                        returned c))
    (exec collector racing racing_start)
  = Some ([("h1", "r1"); ("h1", "r2")], [r2; r1], [None; Some "timeout"],
          Some "timeout", true).
Proof. vm_compute. reflexivity. Qed.

Lemma at_most_once_per_pair_witness :
  DoParallelQueries flaky two_slices collector [] = FanOut racing_start
  /\ exists c : config (list Entry),
       exec collector racing racing_start = Some c
       /\ NoDup (delivered (shared c)).
Proof.
  assert (Hstart : DoParallelQueries flaky two_slices collector [] = FanOut racing_start)
    by (vm_compute; reflexivity).
  split; [exact Hstart |].
  destruct (exec collector racing racing_start) as [c |] eqn:Hexec;
    [| vm_compute in Hexec; discriminate].
  exists c. split; [reflexivity |].
  exact (proj1 (proj1 (proj2 (at_most_once_per_pair flaky two_slices collector []))
                  racing_start racing c Hstart Hexec)).
Defined.

Lemma DoParallelQueries_returns_last_error_witness :
  exists c : config (list Entry),
    exec collector racing racing_start = Some c
    /\ Forall (fun g => exists err, g = Exited err) (goroutines c)
    /\ lastErr c = last_error (received c)
    /\ goroutines c !! 0 = Some (Exited (Some "timeout"))
    /\ returns_with (flaky (q1 :: replicate 99 q2))
         (answers collector 0 racing racing_start)
       = Some (Some "timeout")
    /\ lastErr c <> None.
Proof.
  assert (Hstart : DoParallelQueries flaky two_slices collector [] = FanOut racing_start)
    by (vm_compute; reflexivity).
  destruct (exec collector racing racing_start) as [c |] eqn:Hexec;
    [| vm_compute in Hexec; discriminate].
  assert (Hret : returned c = true).
  { assert (H : option_map returned (exec collector racing racing_start) = Some true)
      by (vm_compute; reflexivity).
    rewrite Hexec in H. injection H as ->. reflexivity. }
  exists c. split; [reflexivity |].
  destruct (proj2 (proj2 (DoParallelQueries_returns_last_error
                            flaky two_slices collector []))
              racing_start racing c Hstart Hexec) as (Hdone & _ & _ & _).
  destruct (Hdone Hret) as (Hall & _ & _ & Hlast & _ & _ & Hhand & _ & Hnil).
  destruct (Hhand 0 (q1 :: replicate 99 q2) eq_refl) as (err & Hg & Hres).
  assert (Herr : returns_with (flaky (q1 :: replicate 99 q2))
                   (answers collector 0 racing racing_start)
                 = Some (Some "timeout")) by (vm_compute; reflexivity).
  rewrite Herr in Hres. injection Hres as <-.
  split; [exact Hall |]. split; [exact Hlast |]. split; [exact Hg |].
  split; [exact Herr |].
  intros Hnone. pose proof (proj1 Hnil Hnone 0 (q1 :: replicate 99 q2) eq_refl) as Habs.
  rewrite Herr in Habs. discriminate.
Defined.

Lemma DoParallelQueries_dispatch_witness :
  map length (dispatch 250 0 (replicate 250 q1)) = [100; 100; 50].
Proof.
  exact (proj2 (proj2 (proj2 (DoParallelQueries_dispatch
                                overlapping (replicate 250 q1) collector [])))
           eq_refl).
Defined.

(** The world after a first batch [{h1, r1}] went through. *)
Definition after_r1 : world (list Entry) :=
  snd (Callback collector q1 [r1] (new_world [])).

Lemma Callback_invokes_downstream_once_witness :
  invoked (snd (Callback collector q1 [r1] after_r1)) = invoked after_r1 ++ [(q1, [r1])]
  /\ delivered (snd (Callback collector q1 [r1] after_r1)) = delivered after_r1.
Proof.
  assert (Hall : all_seen (HashValue q1) (deduper after_r1) [r1])
    by (repeat constructor).
  destruct (proj2 (proj2 (proj2 (Callback_invokes_downstream_once
                                   collector q1 [r1] after_r1))) Hall)
    as (_ & Hinv & _ & Hdel).
  split; [exact Hinv | exact Hdel].
Defined.

End Executor.

(* ===================================================================== *)
(** ** chunk/util/parallel_chunk_fetch.go: the parallel chunk fetcher      *)
(* ===================================================================== *)

Module Fetch.
Local Open Scope nat_scope.

(** [func min(a, b int) int] *)
Definition min (a b : Z) : Z := if (a <? b)%Z then a else b.

Section GetParallelChunks.
(** [chunk.Chunk] *)
Context {Chunk : Type}.

(** The fetch function [f] handed to [GetParallelChunks], as the pair
    [(chunk.Chunk, error)] it returns for a chunk.  The context and the
    pooled [*chunk.DecodeContext] it also receives are scratch state of
    the callee and are left out. *)
Definition fetch : Type := Chunk -> Chunk * error.

(** Where a worker goroutine stands: blocked in [range queuedChunks];
    holding what [f] returned, blocked on its send to [processedChunks] or
    [errors]; or past its loop, its decode context back in the pool. *)
Inductive worker : Type :=
| Ranging
| Delivering (c : Chunk) (err : error)
| Finished.

(** The call in flight: the chunks the producer goroutine has still to
    send on [queuedChunks] and whether it has closed the channel, the
    workers, and the coordinator: loop counter [i], [len(chunks)],
    [result] and [lastErr].  [observed] is the history of the outcomes the
    coordinator received, oldest first. *)
Record state : Type := mkState {
  queued : list Chunk;
  closed : bool;
  workers : list worker;
  i : nat;
  total : nat;
  result : list Chunk;
  lastErr : error;
  observed : list (Chunk * error)
}.

(** What the scheduler can pick.  All channels are unbuffered, so a send
    and its receive are one step. *)
Inductive fetch_action : Type :=
| Hand (w : nat)      (* [queuedChunks <- c] meets worker [w]; [w] calls [f] *)
| Close               (* the producer closes [queuedChunks] *)
| Leave (w : nat)     (* worker [w] finds [queuedChunks] closed *)
| Collect (w : nat).  (* the coordinator's [select] receives from worker [w] *)

Definition fetch_step (f : fetch) (a : fetch_action) (s : state) : option state :=
  match a with
  | Hand w =>
      match queued s, workers s !! w with
      | c :: rest, Some Ranging =>
          let '(c', err) := f c in
          Some {| queued := rest; closed := closed s;
                  workers := <[w := Delivering c' err]> (workers s);
                  i := i s; total := total s; result := result s;
                  lastErr := lastErr s; observed := observed s |}
      | _, _ => None
      end
  | Close =>
      match queued s, closed s with
      | [], false =>
          Some {| queued := []; closed := true; workers := workers s;
                  i := i s; total := total s; result := result s;
                  lastErr := lastErr s; observed := observed s |}
      | _, _ => None
      end
  | Leave w =>
      match closed s, workers s !! w with
      | true, Some Ranging =>
          Some {| queued := queued s; closed := true;
                  workers := <[w := Finished]> (workers s);
                  i := i s; total := total s; result := result s;
                  lastErr := lastErr s; observed := observed s |}
      | _, _ => None
      end
  | Collect w =>
      if i s <? total s then
        match workers s !! w with
        | Some (Delivering c err) =>
            Some {| queued := queued s; closed := closed s;
                    workers := <[w := Ranging]> (workers s);
                    i := S (i s); total := total s;
                    result := match err with
                              | Some _ => result s
                              | None => result s ++ [c]
                              end;
                    lastErr := match err with
                               | Some _ => err
                               | None => lastErr s
                               end;
                    observed := observed s ++ [(c, err)] |}
        | _ => None
        end
      else None
  end.

Fixpoint fetch_run (f : fetch) (sched : list fetch_action) (s : state) : option state :=
  match sched with
  | [] => Some s
  | a :: rest =>
      match fetch_step f a s with
      | Some s' => fetch_run f rest s'
      | None => None
      end
  end.

(** The coordinator has left its loop: the call returns
    [(result, lastErr)]. *)
Definition fetch_returned (s : state) : bool := i s =? total s.

(** What a call to [GetParallelChunks] does first: fail on a context that
    is already done, with a nil slice and the context's error, or start
    the producer, the workers and the coordinator loop. *)
Inductive call : Type :=
| Failed (chunks : option (list Chunk)) (err : error)
| Started (s : state).

(** [func GetParallelChunks(ctx, maxParallel, chunks, f) ([]chunk.Chunk, error)].
    [ctxErr] is [ctx.Err()] on entry. *)
Definition GetParallelChunks (ctxErr : error) (maxParallel : Z)
    (chunks : list Chunk) (f : fetch) : call :=
  match ctxErr with
  | Some _ => Failed None ctxErr
  | None =>
      Started {| queued := chunks; closed := false;
                 workers :=
                   replicate
                     (Z.to_nat (min maxParallel (Z.of_nat (length chunks))))
                     Ranging;
                 i := 0; total := length chunks; result := [];
                 lastErr := None; observed := [] |}
  end.

(** *** Accounting for every chunk *)

(** Outcomes held by workers blocked on their send. *)
Definition in_flight (ws : list worker) : list (Chunk * error) :=
  omap (fun w => match w with Delivering c err => Some (c, err) | _ => None end) ws.

(** Workers that have not left their loop. *)
Definition alive (ws : list worker) : list unit :=
  omap (fun w => match w with Finished => None | _ => Some tt end) ws.

(** The chunks of the outcomes that carry no error, and the errors of
    those that do. *)
Definition successes (outs : list (Chunk * error)) : list Chunk :=
  omap (fun o => match snd o with None => Some (fst o) | Some _ => None end) outs.

Definition failures (outs : list (Chunk * error)) : list string :=
  omap snd outs.

Lemma omap_insert {A B : Type} (g : A -> option B) (l : list A) (k : nat) (x y : A) :
  l !! k = Some x ->
  Permutation (omap g (<[k := y]> l) ++ option_list (g x))
    (omap g l ++ option_list (g y)).
Proof.
  intros Hk.
  rewrite insert_take_drop by (eapply lookup_lt_Some; eauto).
  rewrite <- (take_drop_middle l k x Hk) at 3.
  rewrite !omap_app. cbn [omap list_omap].
  destruct (g x) as [bx |], (g y) as [by' |]; cbn [option_list];
    rewrite ?app_nil_r; solve_Permutation.
Qed.

Lemma successes_snoc (outs : list (Chunk * error)) (c : Chunk) (err : error) :
  successes (outs ++ [(c, err)])
  = match err with Some _ => successes outs | None => successes outs ++ [c] end.
Proof.
  unfold successes. rewrite omap_app. cbn. destruct err; [apply app_nil_r | reflexivity].
Qed.

Lemma failures_snoc (outs : list (Chunk * error)) (c : Chunk) (err : error) :
  last (failures (outs ++ [(c, err)]))
  = match err with Some _ => err | None => last (failures outs) end.
Proof.
  unfold failures. rewrite omap_app. cbn. destruct err as [e |].
  - apply last_snoc.
  - rewrite app_nil_r. reflexivity.
Qed.

(** What holds in every state of a call: no chunk is lost or made up
    (every outcome of [f] on an input chunk is either received already,
    held by a worker, or still to come), the coordinator's variables are
    what its loop computes from the outcomes received, and the producer
    closes the queue only once it is empty, workers leave only once it is
    closed. *)
Record invariant (f : fetch) (chunks : list Chunk) (s : state) : Prop := mkInv {
  inv_total : total s = length chunks;
  inv_count : i s = length (observed s);
  inv_outcomes :
    Permutation (observed s ++ in_flight (workers s) ++ map f (queued s))
      (map f chunks);
  inv_result : result s = successes (observed s);
  inv_lastErr : lastErr s = last (failures (observed s));
  inv_closed : closed s = true -> queued s = [];
  inv_left : closed s = false -> Forall (fun w => w <> Finished) (workers s)
}.

Lemma step_invariant (f : fetch) (chunks : list Chunk) (a : fetch_action) (s s' : state) :
  fetch_step f a s = Some s' -> invariant f chunks s -> invariant f chunks s'.
Proof.
  intros Hstep [Htot Hcnt Hout Hres Herr Hclosed Hleft].
  destruct a as [w | | w | w]; simpl in Hstep.
  - destruct (queued s) as [| c rest] eqn:Hq; [discriminate |].
    destruct (workers s !! w) as [[] |] eqn:Hw; try discriminate.
    destruct (f c) as [c' err] eqn:Hf. injection Hstep as <-.
    constructor; simpl; try assumption.
    + pose proof (omap_insert
                    (fun w => match w with Delivering c err => Some (c, err) | _ => None end)
                    (workers s) w Ranging (Delivering c' err) Hw) as Hins.
      cbn [option_list] in Hins. rewrite app_nil_r in Hins.
      fold (in_flight (workers s)) in Hins.
      fold (in_flight (<[w := Delivering c' err]> (workers s))) in Hins.
      rewrite <- Hout. cbn [map]. rewrite Hf, Hins. solve_Permutation.
    + intros Hc. specialize (Hclosed Hc). discriminate.
    + intros Hc. apply Forall_insert; [apply Hleft, Hc | discriminate].
  - destruct (queued s) as [| c rest] eqn:Hq; [| discriminate].
    destruct (closed s) eqn:Hc; [discriminate |]. injection Hstep as <-.
    constructor; simpl; try assumption; try discriminate.
    intros _. reflexivity.
  - destruct (closed s) eqn:Hc; [| discriminate].
    destruct (workers s !! w) as [[] |] eqn:Hw; try discriminate.
    injection Hstep as <-.
    constructor; simpl; try assumption; try discriminate.
    pose proof (omap_insert
                  (fun w => match w with Delivering c err => Some (c, err) | _ => None end)
                  (workers s) w Ranging Finished Hw) as Hins.
    cbn [option_list] in Hins. rewrite !app_nil_r in Hins.
    fold (in_flight (workers s)) in Hins.
    fold (in_flight (<[w := Finished]> (workers s))) in Hins.
    rewrite Hins. exact Hout.
  - destruct (i s <? total s) eqn:Hi; [| discriminate].
    destruct (workers s !! w) as [[| c err |] |] eqn:Hw; try discriminate.
    injection Hstep as <-.
    pose proof (omap_insert
                  (fun w => match w with Delivering c err => Some (c, err) | _ => None end)
                  (workers s) w (Delivering c err) Ranging Hw) as Hins.
    cbn [option_list] in Hins. rewrite app_nil_r in Hins.
    fold (in_flight (workers s)) in Hins.
    fold (in_flight (<[w := Ranging]> (workers s))) in Hins.
    constructor; simpl; try assumption.
    + rewrite length_app. simpl. lia.
    + rewrite <- Hout, <- Hins. solve_Permutation.
    + rewrite successes_snoc, Hres. reflexivity.
    + rewrite failures_snoc, Herr. reflexivity.
    + intros Hc. apply Forall_insert; [apply Hleft, Hc | discriminate].
Qed.

Lemma runs_keep_invariant (f : fetch) (chunks : list Chunk) (sched : list fetch_action) :
  forall s s' : state,
    fetch_run f sched s = Some s' -> invariant f chunks s -> invariant f chunks s'.
Proof.
  induction sched as [| a sched IH]; intros s s' Hexec Hs; simpl in Hexec.
  - injection Hexec as <-. exact Hs.
  - destruct (fetch_step f a s) as [s1 |] eqn:Hstep; [| discriminate].
    eapply IH; [exact Hexec |]. eapply step_invariant; eauto.
Qed.

Lemma exec_then (f : fetch) (s1 s2 : list fetch_action) (s s' : state) :
  fetch_run f s1 s = Some s' -> fetch_run f (s1 ++ s2) s = fetch_run f s2 s'.
Proof.
  revert s. induction s1 as [| a s1 IH]; intros s H1; simpl in *.
  - injection H1 as ->. reflexivity.
  - destruct (fetch_step f a s) as [s0 |]; [| discriminate]. apply IH, H1.
Qed.

Lemma in_flight_replicate (n : nat) : in_flight (replicate n Ranging) = [].
Proof. induction n as [| n IH]; [reflexivity | exact IH]. Qed.

Lemma start_invariant (maxParallel : Z) (chunks : list Chunk) (f : fetch) (s : state) :
  GetParallelChunks None maxParallel chunks f = Started s ->
  invariant f chunks s
  /\ length (workers s) = Z.to_nat (min maxParallel (Z.of_nat (length chunks))).
Proof.
  intros [= <-]. split; [| apply length_replicate].
  constructor; simpl; try reflexivity; try discriminate.
  - rewrite in_flight_replicate. reflexivity.
  - intros _. apply Forall_replicate. discriminate.
Qed.

Lemma step_workers_length (f : fetch) (a : fetch_action) (s s' : state) :
  fetch_step f a s = Some s' -> length (workers s') = length (workers s).
Proof.
  intros Hstep. destruct a as [w | | w | w]; simpl in Hstep.
  - destruct (queued s); [discriminate |].
    destruct (workers s !! w) as [[] |]; try discriminate.
    destruct (f c). injection Hstep as <-. apply length_insert.
  - destruct (queued s); [| discriminate].
    destruct (closed s); [discriminate |]. injection Hstep as <-. reflexivity.
  - destruct (closed s); [| discriminate].
    destruct (workers s !! w) as [[] |]; try discriminate.
    injection Hstep as <-. apply length_insert.
  - destruct (i s <? total s); [| discriminate].
    destruct (workers s !! w) as [[] |]; try discriminate.
    injection Hstep as <-. apply length_insert.
Qed.

Lemma exec_workers_length (f : fetch) (sched : list fetch_action) :
  forall s s' : state,
    fetch_run f sched s = Some s' -> length (workers s') = length (workers s).
Proof.
  induction sched as [| a sched IH]; intros s s' Hexec; simpl in Hexec.
  - injection Hexec as <-. reflexivity.
  - destruct (fetch_step f a s) as [s1 |] eqn:Hstep; [| discriminate].
    rewrite (IH _ _ Hexec). eapply step_workers_length; eauto.
Qed.

(** *** What the coordinator returns *)

Lemma returned_outcomes (f : fetch) (chunks : list Chunk) (s : state) :
  invariant f chunks s -> fetch_returned s = true ->
  in_flight (workers s) = [] /\ queued s = []
  /\ Permutation (observed s) (map f chunks).
Proof.
  intros [Htot Hcnt Hout _ _ _ _] Hret.
  unfold fetch_returned in Hret. apply Nat.eqb_eq in Hret.
  pose proof (Permutation_length Hout) as Hlen.
  rewrite !length_app, !length_map in Hlen.
  assert (Hf : in_flight (workers s) = []) by (apply length_zero_iff_nil; lia).
  assert (Hq : queued s = []) by (apply length_zero_iff_nil; lia).
  rewrite Hf, Hq in Hout. simpl in Hout. rewrite app_nil_r in Hout. auto.
Qed.

Lemma failures_nonempty (outs : list (Chunk * error)) :
  last (failures outs) <> None <-> exists o, o ∈ outs /\ snd o <> None.
Proof.
  split.
  - intros Hlast. destruct (failures outs) as [| e es] eqn:Hf; [contradiction |].
    assert (He : e ∈ failures outs) by (rewrite Hf; left).
    unfold failures in He. apply list_elem_of_omap in He as (o & Ho & Hso).
    exists o. split; [exact Ho | congruence].
  - intros (o & Ho & Hso). destruct (snd o) as [e |] eqn:He; [| contradiction].
    assert (Hin : e ∈ failures outs)
      by (unfold failures; apply list_elem_of_omap; eauto).
    destruct (failures outs) as [| e0 es] using rev_ind; [inversion Hin |].
    rewrite last_snoc. discriminate.
Qed.

(** *** Every run is finite and none gets stuck *)

Definition measure (s : state) : nat :=
  3 * length (queued s) + 2 * length (in_flight (workers s))
  + length (alive (workers s)) + (if closed s then 0 else 1).

Lemma omap_insert_length {A B : Type} (g : A -> option B) (l : list A) (k : nat)
    (x y : A) :
  l !! k = Some x ->
  length (omap g (<[k := y]> l)) + length (option_list (g x))
  = length (omap g l) + length (option_list (g y)).
Proof.
  intros Hk. pose proof (Permutation_length (omap_insert g l k x y Hk)) as H.
  rewrite !length_app in H. exact H.
Qed.

Lemma step_measure (f : fetch) (a : fetch_action) (s s' : state) :
  fetch_step f a s = Some s' -> measure s' < measure s.
Proof.
  intros Hstep. unfold measure, in_flight, alive.
  destruct a as [w | | w | w]; simpl in Hstep.
  - destruct (queued s) as [| c rest]; [discriminate |].
    destruct (workers s !! w) as [[] |] eqn:Hw; try discriminate.
    destruct (f c) as [c' err]. injection Hstep as <-. simpl.
    pose proof (omap_insert_length
                  (fun w => match w with Delivering c err => Some (c, err) | _ => None end)
                  _ _ _ (Delivering c' err) Hw) as H1.
    pose proof (omap_insert_length
                  (fun w => match w with Finished => None | _ => Some tt end)
                  _ _ _ (Delivering c' err) Hw) as H2.
    simpl in H1, H2. lia.
  - destruct (queued s); [| discriminate].
    destruct (closed s); [discriminate |]. injection Hstep as <-. simpl. lia.
  - destruct (closed s); [| discriminate].
    destruct (workers s !! w) as [[] |] eqn:Hw; try discriminate.
    injection Hstep as <-. simpl.
    pose proof (omap_insert_length
                  (fun w => match w with Delivering c err => Some (c, err) | _ => None end)
                  _ _ _ Finished Hw) as H1.
    pose proof (omap_insert_length
                  (fun w => match w with Finished => None | _ => Some tt end)
                  _ _ _ Finished Hw) as H2.
    simpl in H1, H2. lia.
  - destruct (i s <? total s); [| discriminate].
    destruct (workers s !! w) as [[| c err |] |] eqn:Hw; try discriminate.
    injection Hstep as <-. simpl.
    pose proof (omap_insert_length
                  (fun w => match w with Delivering c err => Some (c, err) | _ => None end)
                  _ _ _ Ranging Hw) as H1.
    pose proof (omap_insert_length
                  (fun w => match w with Finished => None | _ => Some tt end)
                  _ _ _ Ranging Hw) as H2.
    simpl in H1, H2. lia.
Qed.

Lemma exec_measure (f : fetch) (sched : list fetch_action) :
  forall s s' : state,
    fetch_run f sched s = Some s' -> length sched + measure s' <= measure s.
Proof.
  induction sched as [| a sched IH]; intros s s' Hexec; simpl in Hexec.
  - injection Hexec as <-. simpl. lia.
  - destruct (fetch_step f a s) as [s1 |] eqn:Hstep; [| discriminate].
    apply IH in Hexec. apply step_measure in Hstep. simpl. lia.
Qed.

Lemma in_flight_cons (ws : list worker) :
  in_flight ws <> [] -> exists w c err, ws !! w = Some (Delivering c err).
Proof.
  induction ws as [| x ws IH]; intros Hne; [contradiction |].
  destruct x as [| c err |].
  - destruct (IH Hne) as (w & c & err & Hw). exists (S w), c, err. exact Hw.
  - exists 0, c, err. reflexivity.
  - destruct (IH Hne) as (w & c & err & Hw). exists (S w), c, err. exact Hw.
Qed.

Lemma all_ranging (ws : list worker) :
  in_flight ws = [] -> Forall (fun w => w <> Finished) ws ->
  Forall (fun w => w = Ranging) ws.
Proof.
  induction ws as [| x ws IH]; intros Hf Hall; [constructor |].
  inversion Hall as [| ? ? Hx Hws]; subst.
  destruct x as [| c err |]; [| discriminate | contradiction].
  constructor; [reflexivity | apply IH; assumption].
Qed.

(** Before the coordinator returns some step is always enabled, provided
    there is at least one worker. *)
Lemma progress (f : fetch) (chunks : list Chunk) (s : state) :
  invariant f chunks s -> 0 < length (workers s) -> fetch_returned s = false ->
  exists a s', fetch_step f a s = Some s'.
Proof.
  intros [Htot Hcnt Hout _ _ Hclosed Hleft] Hws Hret.
  unfold fetch_returned in Hret. apply Nat.eqb_neq in Hret.
  pose proof (Permutation_length Hout) as Hlen.
  rewrite !length_app, !length_map in Hlen.
  destruct (in_flight (workers s)) as [| o os] eqn:Hf.
  - destruct (queued s) as [| c rest] eqn:Hq; [simpl in Hlen; lia |].
    destruct (closed s) eqn:Hc; [specialize (Hclosed eq_refl); discriminate |].
    pose proof (all_ranging _ Hf (Hleft eq_refl)) as Hall.
    destruct (workers s) as [| w0 ws] eqn:Hw; [simpl in Hws; lia |].
    inversion Hall as [| ? ? Hw0 _]; subst.
    exists (Hand 0). simpl. rewrite Hq, Hw. simpl. destruct (f c). eauto.
  - destruct (in_flight_cons (workers s)) as (w & c & err & Hw); [congruence |].
    exists (Collect w). simpl.
    destruct (Nat.ltb_spec (i s) (total s)) as [_ | Hge]; [| simpl in Hlen; lia].
    rewrite Hw. eauto.
Qed.

Lemma fetch_can_return (f : fetch) (chunks : list Chunk) (s : state) :
  invariant f chunks s -> 0 < length (workers s) \/ fetch_returned s = true ->
  exists sched s', fetch_run f sched s = Some s' /\ fetch_returned s' = true.
Proof.
  remember (measure s) as m eqn:Hm. revert s Hm.
  induction m as [m IH] using lt_wf_ind. intros s Hm Hs Hws.
  destruct (fetch_returned s) eqn:Hret.
  - exists [], s. auto.
  - destruct Hws as [Hws | Habs]; [| discriminate].
    destruct (progress f chunks s Hs Hws Hret) as (a & s1 & Hstep).
    destruct (IH (measure s1)) with (s := s1) as (sched & s' & Hexec & Hret').
    + subst m. eapply step_measure; eauto.
    + reflexivity.
    + eapply step_invariant; eauto.
    + left. rewrite (step_workers_length _ _ _ _ Hstep). exact Hws.
    + exists (a :: sched), s'. simpl. rewrite Hstep. auto.
Qed.

(** *** The claims about [GetParallelChunks] *)

(** What the coordinator returns, in terms of the fetch function and the
    input: [outs] are the outcomes it received, in the order it received
    them. *)
Definition returns_all (f : fetch) (chunks : list Chunk) (s : state) : Prop :=
  length (observed s) = length chunks
  /\ Permutation (observed s) (map f chunks)
  /\ result s = successes (observed s)
  /\ Permutation (result s) (successes (map f chunks))
  /\ length (result s) = length (successes (map f chunks))
  /\ lastErr s = last (failures (observed s))
  /\ (lastErr s <> None <-> exists c, c ∈ chunks /\ snd (f c) <> None).

(** The fetcher's contract for a call that passes the context check: the
    call starts, from every state it reaches it can go on until the
    coordinator has collected [len(chunks)] outcomes, and when the
    coordinator returns, it returns the successfully fetched chunks and the
    last error. *)
Definition collects_all (maxParallel : Z) (chunks : list Chunk) (f : fetch) : Prop :=
  exists start : state,
    GetParallelChunks None maxParallel chunks f = Started start
    /\ forall (sched : list fetch_action) (s : state),
         fetch_run f sched start = Some s ->
         (exists sched' s', fetch_run f sched' s = Some s' /\ fetch_returned s' = true)
         /\ (fetch_returned s = true -> returns_all f chunks s).

Lemma returned_returns_all (f : fetch) (chunks : list Chunk) (s : state) :
  invariant f chunks s -> fetch_returned s = true -> returns_all f chunks s.
Proof.
  intros Hs Hret.
  destruct (returned_outcomes f chunks s Hs Hret) as (_ & _ & Hperm).
  destruct Hs as [Htot Hcnt Hout Hres Herr _ _].
  assert (Hsucc : Permutation (result s) (successes (map f chunks)))
    by (rewrite Hres; unfold successes; rewrite Hperm; reflexivity).
  unfold returns_all. repeat split; try assumption.
  - rewrite (Permutation_length Hperm), length_map. reflexivity.
  - apply Permutation_length, Hsucc.
  - rewrite Herr. intros Hlast. apply failures_nonempty in Hlast as (o & Ho & Hso).
    rewrite Hperm in Ho. apply list_elem_of_fmap in Ho as (c & -> & Hc). eauto.
  - rewrite Herr. intros (c & Hc & Hfc). apply failures_nonempty.
    exists (f c). split; [| exact Hfc].
    rewrite Hperm. apply list_elem_of_fmap. eauto.
Qed.

Lemma successes_all_ok (f : fetch) (l : list Chunk) :
  Forall (fun c => snd (f c) = None) l ->
  omap (fun o : Chunk * error =>
          match snd o with None => Some (fst o) | Some _ => None end) (map f l)
  = map (fun c => fst (f c)) l.
Proof.
  induction 1 as [| c l Hc _ IH]; [reflexivity |].
  cbn [map omap list_omap]. destruct (f c) as [c' err] eqn:Hf.
  simpl in Hc. subst err. simpl. f_equal. exact IH.
Qed.

Lemma workers_started (maxParallel : Z) (chunks : list Chunk) :
  (1 <= maxParallel)%Z -> chunks <> [] ->
  0 < Z.to_nat (min maxParallel (Z.of_nat (length chunks))).
Proof.
  intros Hmax Hne. unfold min.
  assert (0 < length chunks) by (destruct chunks; [contradiction | simpl; lia]).
  destruct (maxParallel <? Z.of_nat (length chunks))%Z; lia.
Qed.

(** C2 (as amended). For every call of [GetParallelChunks] that passes the
    context check with [maxParallel >= 1] (or with no chunk at all), under
    every schedule: the run is finite, some step is enabled until the
    coordinator has collected [len(chunks)] outcomes, and the coordinator
    then returns exactly the chunks whose fetch succeeded (as many as there
    are successes) together with the last error it received, which is
    non-nil exactly when some fetch failed.  With 5 chunks,
    [maxParallel = 2] and exactly one failing chunk, wherever it stands,
    the result holds the 4 others and the error is non-nil. *)
Theorem GetParallelChunks_collects_all :
  forall (maxParallel : Z) (chunks : list Chunk) (f : fetch),
    (1 <= maxParallel)%Z \/ chunks = [] ->
    collects_all maxParallel chunks f
    /\ (forall (start : state) (sched : list fetch_action) (s : state),
          GetParallelChunks None maxParallel chunks f = Started start ->
          fetch_run f sched start = Some s ->
          length sched <= measure start
          /\ (fetch_returned s = false -> exists a s', fetch_step f a s = Some s'))
    /\ (forall (start : state) (sched : list fetch_action) (s : state)
               (before after : list Chunk) (bad : Chunk),
          GetParallelChunks None maxParallel chunks f = Started start ->
          fetch_run f sched start = Some s ->
          fetch_returned s = true ->
          maxParallel = 2%Z ->
          chunks = before ++ bad :: after ->
          length chunks = 5 ->
          snd (f bad) <> None ->
          Forall (fun c => snd (f c) = None) (before ++ after) ->
          length (result s) = 4
          /\ lastErr s <> None
          /\ Permutation (result s) (map (fun c => fst (f c)) (before ++ after))).
Proof.
  intros maxParallel chunks f Hpre.
  destruct (GetParallelChunks None maxParallel chunks f) as [| start] eqn:Hstart;
    [discriminate |].
  destruct (start_invariant _ _ _ _ Hstart) as [Hinv Hws].
  assert (Hlive : forall sched s, fetch_run f sched start = Some s ->
                    0 < length (workers s) \/ fetch_returned s = true).
  { intros sched s Hexec. destruct Hpre as [Hmax | ->].
    - destruct chunks as [| c chunks'] eqn:Hch.
      + right. pose proof (runs_keep_invariant f [] _ _ _ Hexec Hinv) as Hs.
        destruct Hs as [Htot Hcnt Hout _ _ _ _]. simpl in *.
        apply Permutation_length in Hout. rewrite !length_app in Hout. simpl in Hout.
        unfold fetch_returned. apply Nat.eqb_eq. lia.
      + left. rewrite (exec_workers_length _ _ _ _ Hexec), Hws.
        apply workers_started; [exact Hmax | discriminate].
    - right. pose proof (runs_keep_invariant f [] _ _ _ Hexec Hinv) as Hs.
      destruct Hs as [Htot Hcnt Hout _ _ _ _]. simpl in *.
      apply Permutation_length in Hout. rewrite !length_app in Hout. simpl in Hout.
      unfold fetch_returned. apply Nat.eqb_eq. lia. }
  split; [| split].
  - exists start. split; [exact Hstart |]. intros sched s Hexec.
    pose proof (runs_keep_invariant f chunks _ _ _ Hexec Hinv) as Hs.
    split.
    + eapply fetch_can_return; eauto.
    + apply returned_returns_all, Hs.
  - intros start' sched s [= <-] Hexec.
    pose proof (runs_keep_invariant f chunks _ _ _ Hexec Hinv) as Hs.
    split.
    + pose proof (exec_measure f sched _ _ Hexec). lia.
    + intros Hret. destruct (Hlive sched s Hexec) as [Hw | Habs]; [| congruence].
      eapply progress; eauto.
  - intros start' sched s before after bad [= <-] Hexec Hret _ Hch Hlen Hbad Hgood.
    pose proof (runs_keep_invariant f chunks _ _ _ Hexec Hinv) as Hs.
    destruct (returned_returns_all f chunks s Hs Hret)
      as (_ & _ & _ & Hperm & Hlen' & _ & Herr).
    assert (Hsucc : successes (map f chunks)
                    = map (fun c => fst (f c)) (before ++ after)).
    { rewrite Hch. unfold successes.
      rewrite map_app, omap_app. cbn [map omap list_omap].
      destruct (f bad) as [cb [e |]] eqn:Hfb; [| contradiction]. cbn [snd].
      apply Forall_app in Hgood as [Hbefore Hafter].
      rewrite map_app. f_equal; apply successes_all_ok; assumption. }
    rewrite Hsucc in Hperm, Hlen'.
    split; [| split; [| exact Hperm]].
    + rewrite Hlen', length_map. rewrite Hch in Hlen.
      rewrite length_app in *. simpl in Hlen. lia.
    + apply Herr. exists bad. split; [| exact Hbad].
      rewrite Hch. apply elem_of_app. right. left.
Qed.

(** C7. When the context is already cancelled or expired on entry,
    [GetParallelChunks] returns the nil slice and the context's error:
    nothing is queued, no worker exists and [f] is never applied, whatever
    [maxParallel], the chunks and [f] are.  (Only) when [ctx.Err()] is nil
    does it start the producer, the workers and the coordinator. *)
Theorem GetParallelChunks_context_done :
  forall (ctxErr : error) (maxParallel : Z) (chunks : list Chunk) (f : fetch),
    (ctxErr <> None ->
     GetParallelChunks ctxErr maxParallel chunks f = Failed None ctxErr
     /\ (forall (maxParallel' : Z) (chunks' : list Chunk) (f' : fetch),
           GetParallelChunks ctxErr maxParallel' chunks' f'
           = GetParallelChunks ctxErr maxParallel chunks f)
     /\ forall s : state, GetParallelChunks ctxErr maxParallel chunks f <> Started s)
    /\ (ctxErr = None ->
        exists s : state,
          GetParallelChunks ctxErr maxParallel chunks f = Started s
          /\ queued s = chunks /\ i s = 0 /\ observed s = []).
Proof.
  intros ctxErr maxParallel chunks f. split.
  - intros Hdone. destruct ctxErr as [e |]; [| contradiction].
    split; [reflexivity |]. split; [reflexivity | discriminate].
  - intros ->. eexists. split; [reflexivity |]. repeat split.
Qed.

End GetParallelChunks.
Arguments fetch Chunk : clear implicits.
Arguments worker Chunk : clear implicits.
Arguments state Chunk : clear implicits.
Arguments call Chunk : clear implicits.

(** *** Scenarios *)

(** Five chunk references, of which the third cannot be fetched. *)
Definition five : list nat := [1%nat; 2%nat; 3%nat; 4%nat; 5%nat].

Definition third_fails : fetch nat :=
  fun c => if (c =? 3)%nat then (c, Some "object not found") else (c, None).

Definition always_ok : fetch nat := fun c => (c, None).

(** Two workers; the second one is served first. *)
Definition two_workers : list fetch_action :=
  [Hand 0; Hand 1; Collect 1; Hand 1; Collect 0; Hand 0; Collect 0; Collect 1;
   Hand 1; Collect 1; Close; Leave 0; Leave 1].

Example five_chunks_one_failure :
  match GetParallelChunks None 2 five third_fails with
  | Started start =>
      option_map (fun s => (result s, lastErr s, fetch_returned s))
        (fetch_run third_fails two_workers start)
  | Failed _ _ => None
  end
  = Some ([2%nat; 1%nat; 4%nat; 5%nat], Some "object not found", true).
Proof. vm_compute. reflexivity. Qed.

Lemma GetParallelChunks_collects_all_witness :
  (1 <= 2)%Z /\ collects_all 2 five third_fails.
Proof.
  split; [lia |].
  apply (GetParallelChunks_collects_all 2 five third_fails). left. lia.
Defined.

(** With [maxParallel = 0] no worker is started: the producer blocks on
    its first send, the coordinator on its first receive, and the call
    never returns. *)
Lemma GetParallelChunks_no_worker_never_returns :
  ~ collects_all 0 [7%nat] always_ok.
Proof.
  intros (start & Hstart & Hall). injection Hstart as <-.
  destruct (Hall [] _ eq_refl) as [(sched & s' & Hexec & Hret) _].
  destruct sched as [| a sched].
  - injection Hexec as <-. discriminate Hret.
  - destruct a as [w | | w | w]; cbn in Hexec; discriminate.
Qed.

Lemma GetParallelChunks_context_done_witness :
  GetParallelChunks (Some "context canceled") 2 five third_fails
  = Failed None (Some "context canceled").
Proof.
  apply (proj1 (GetParallelChunks_context_done
                  (Some "context canceled") 2 five third_fails)).
  discriminate.
Defined.

End Fetch.

(* ===================================================================== *)
(** ** Further properties: the comparator of chunk references              *)
(* ===================================================================== *)

Module TsdbProps.
Import Tsdb.

Lemma Less_trans (a b c : ChunkRef) :
  Less a b = true -> Less b c = true -> Less a c = true.
Proof. rewrite !Less_spec. lia. Qed.

Lemma Less_both (a b : ChunkRef) :
  Less a b = true /\ Less b a = true <-> Start a = Start b /\ End a = End b.
Proof. rewrite !Less_spec. lia. Qed.

(** X1. [Less] is a total preorder on the time range alone: any two
    references are comparable one way or the other, the relation is
    transitive, two references are [Less] than each other exactly when
    they have the same [Start] and [End], and [User], [Fingerprint] and
    [Checksum] never influence the result.  It is not a strict order:
    whenever [a.Less(b)] is false, [b.Less(a)] is true and [b]'s range
    differs from [a]'s. *)
Theorem Less_total_preorder :
  (forall a b : ChunkRef, Less a b = true \/ Less b a = true)
  /\ (forall a b c : ChunkRef, Less a b = true -> Less b c = true -> Less a c = true)
  /\ (forall a b : ChunkRef,
        Less a b = true /\ Less b a = true <-> Start a = Start b /\ End a = End b)
  /\ (forall a b : ChunkRef,
        Less a b = false ->
        Less b a = true /\ (Start b < Start a \/ (Start b = Start a /\ End b < End a)))
  /\ (forall a a' b : ChunkRef,
        Start a = Start a' -> End a = End a' ->
        Less a b = Less a' b /\ Less b a = Less b a').
Proof.
  split; [exact Less_total |]. split; [exact Less_trans |]. split; [exact Less_both |].
  split.
  - intros a b Hab.
    assert (Hn : ~ (Start a < Start b \/ (Start a = Start b /\ End a <= End b)))
      by (rewrite <- Less_spec; congruence).
    split; [apply Less_spec |]; lia.
  - intros a a' b Hs He. unfold Less. rewrite Hs, He. split; reflexivity.
Qed.

Lemma Less_total_preorder_witness :
  Less (mkChunkRef "a" 1 0 5 1) (mkChunkRef "b" 2 3 4 2) = true.
Proof.
  apply (proj1 (proj2 Less_total_preorder)
           (mkChunkRef "a" 1 0 5 1) (mkChunkRef "c" 3 0 9 3) (mkChunkRef "b" 2 3 4 2));
    reflexivity.
Defined.

End TsdbProps.

(* ===================================================================== *)
(** ** Further properties: grouping queries by table                       *)
(* ===================================================================== *)

Module GroupingProps.
Import Chunk Grouping.

Lemma for_table_nil_iff (t : string) (qs : list IndexQuery) :
  for_table t qs = [] <-> t ∉ map TableName qs.
Proof.
  unfold for_table. split.
  - intros Hnil Hin. apply list_elem_of_fmap in Hin as (q & -> & Hq).
    assert (Hq' : q ∈ filter (fun q0 => TableName q0 = TableName q) qs)
      by (apply list_elem_of_filter; auto).
    rewrite Hnil in Hq'. inversion Hq'.
  - intros Hnot. destruct (filter _ qs) as [| q l] eqn:Hf; [reflexivity |].
    exfalso. apply Hnot.
    assert (Hq : q ∈ filter (fun q0 => TableName q0 = t) qs) by (rewrite Hf; left).
    apply list_elem_of_filter in Hq as [<- Hq]. apply list_elem_of_fmap. eauto.
Qed.

(** X2. The keys of [QueriesByTable] are exactly the table names that
    occur in the input, no key maps to an empty slice, and the groups
    together hold as many queries as the input. *)
Theorem QueriesByTable_keys :
  forall queries : list IndexQuery,
    dom (QueriesByTable queries) = list_to_set (map TableName queries)
    /\ (forall t : string, QueriesByTable queries !! t <> Some [])
    /\ length (grouped (QueriesByTable queries)) = length queries.
Proof.
  intros queries. split; [| split].
  - apply set_eq. intros t. rewrite elem_of_dom, elem_of_list_to_set.
    rewrite QueriesByTable_lookup.
    pose proof (for_table_nil_iff t queries) as Hnil.
    destruct (for_table t queries) as [| q l].
    + split; [intros [x Hx]; discriminate |].
      intros Hin. exfalso. apply (proj1 Hnil eq_refl), Hin.
    + split; [| eauto]. intros _.
      destruct (decide (t ∈ map TableName queries)) as [Hin | Hnot]; [exact Hin |].
      apply Hnil in Hnot. discriminate.
  - intros t. rewrite QueriesByTable_lookup.
    destruct (for_table t queries); discriminate.
  - apply Permutation_length, QueriesByTable_grouped.
Qed.

Lemma for_table_same (t : string) (qs : list IndexQuery) :
  Forall (fun q => TableName q = t) qs -> for_table t qs = qs.
Proof.
  unfold for_table. induction 1 as [| q l Hq _ IH]; [reflexivity |].
  rewrite filter_cons, decide_True by exact Hq. f_equal. exact IH.
Qed.

Lemma for_table_other (t t' : string) (qs : list IndexQuery) :
  t' <> t -> Forall (fun q => TableName q = t) qs -> for_table t' qs = [].
Proof.
  unfold for_table. intros Hne. induction 1 as [| q l Hq _ IH]; [reflexivity |].
  rewrite filter_cons, decide_False by congruence. exact IH.
Qed.

(** X3. Grouping is compatible with concatenation: the group of a table in
    [a ++ b] is its group in [a] followed by its group in [b] (a table
    missing on one side contributes nothing).  Regrouping one group gives
    back that group under its table alone. *)
Theorem QueriesByTable_app :
  forall (a b : list IndexQuery) (t : string),
    default [] (QueriesByTable (a ++ b) !! t)
    = default [] (QueriesByTable a !! t) ++ default [] (QueriesByTable b !! t)
    /\ (forall group : list IndexQuery,
          QueriesByTable a !! t = Some group ->
          QueriesByTable group = {[ t := group ]}).
Proof.
  intros a b t.
  assert (Hdef : forall qs, default [] (QueriesByTable qs !! t) = for_table t qs).
  { intros qs. rewrite QueriesByTable_lookup. destruct (for_table t qs); reflexivity. }
  split.
  - rewrite !Hdef. unfold for_table. apply filter_app.
  - intros group Hgroup.
    assert (Hall : Forall (fun q => TableName q = t) group).
    { apply Forall_forall. intros q Hq.
      apply (QueriesByTable_group_key a t group q Hgroup Hq). }
    rewrite QueriesByTable_lookup in Hgroup.
    assert (Hne : group <> [])
      by (destruct (for_table t a); [discriminate | injection Hgroup as <-; discriminate]).
    apply map_eq. intros t'. rewrite QueriesByTable_lookup.
    destruct (decide (t' = t)) as [-> | Hneq].
    + rewrite lookup_singleton_eq, for_table_same by exact Hall.
      destruct group; [contradiction | reflexivity].
    + rewrite lookup_singleton_ne by congruence.
      rewrite (for_table_other t t') by assumption. reflexivity.
Qed.

Lemma QueriesByTable_app_witness :
  QueriesByTable [on_table "index_1" "a"; on_table "index_1" "c"]
  = {[ "index_1" := [on_table "index_1" "a"; on_table "index_1" "c"] ]}.
Proof.
  apply (proj2 (QueriesByTable_app
                  [on_table "index_1" "a"; on_table "index_2" "b"; on_table "index_1" "c"]
                  [] "index_1")).
  vm_compute. reflexivity.
Defined.

End GroupingProps.

(* ===================================================================== *)
(** ** Further properties: the deduper and the filtering iterator          *)
(* ===================================================================== *)

Module DedupProps.
Import Chunk Dedup.

(** The consumer loop [for it.Next() { ... it.RangeValue() ... }] on a
    filtering iterator: the entries it sees, the iterator and the deduper
    it leaves.  [fuel] bounds the number of turns; one more than the number
    of entries ahead is always enough. *)
Fixpoint drain (fuel : nat) (f : filteringBatchIter) (i : IndexDeduper)
    : list Entry * filteringBatchIter * IndexDeduper :=
  match fuel with
  | O => ([], f, i)
  | S fuel' =>
      let '(r, f', i') := filteringBatchIter_Next f i in
      match r with
      | Some e =>
          let '(es, f'', i'') := drain fuel' f' i' in (e :: es, f'', i'')
      | None => ([], f', i')
      end
  end.

(** What [isSeen] lets through when it is asked about every entry of a
    list in turn. *)
Fixpoint fresh_entries (hashValue : string) (entries : list Entry) (i : IndexDeduper)
    : list Entry * IndexDeduper :=
  match entries with
  | [] => ([], i)
  | e :: tl =>
      let '(seen, i') := isSeen hashValue (RangeValue e) i in
      let '(es, i'') := fresh_entries hashValue tl i' in
      (if seen then es else e :: es, i'')
  end.

Definition ranges (entries : list Entry) : list string := map RangeValue entries.

Lemma has_seen_record_other (h r h' r' : string) (seen : gmap string (gset string)) :
  (h', r') <> (h, r) ->
  has_seen h' r' (record_pair h r seen) = has_seen h' r' seen.
Proof.
  intros Hne. apply eq_true_iff_eq. rewrite has_seen_record_pair. split.
  - intros [[-> ->] | Hs]; [contradiction | exact Hs].
  - intros Hs. right. exact Hs.
Qed.

Lemma isSeen_new (h r : string) (i : IndexDeduper) :
  has_seen h r (seenRangeValues i) = false ->
  isSeen h r i
  = (false, {| seenRangeValues := record_pair h r (seenRangeValues i);
               numEntriesSent := wrap_int (numEntriesSent i + 1) |}).
Proof. intros Hs. rewrite isSeen_eq_locked. apply isSeen_locked_new, Hs. Qed.

Lemma isSeen_old (h r : string) (i : IndexDeduper) :
  has_seen h r (seenRangeValues i) = true -> isSeen h r i = (true, i).
Proof. intros Hs. rewrite isSeen_eq_locked. apply isSeen_locked_old, Hs. Qed.

(** X4. [isSeen] answers whether the pair was recorded before the call,
    and afterwards exactly the pairs recorded before and the pair asked
    about are recorded: it never forgets a pair and never records another
    one.  Asking again about the same pair answers [true] and changes
    nothing. *)
Theorem isSeen_characterised :
  forall (h r : string) (i : IndexDeduper),
    fst (isSeen h r i) = has_seen h r (seenRangeValues i)
    /\ (forall h' r' : string,
          has_seen h' r' (seenRangeValues (snd (isSeen h r i))) = true
          <-> (h' = h /\ r' = r) \/ has_seen h' r' (seenRangeValues i) = true)
    /\ isSeen h r (snd (isSeen h r i)) = (true, snd (isSeen h r i)).
Proof.
  intros h r i. destruct (has_seen h r (seenRangeValues i)) eqn:Hs.
  - rewrite isSeen_old by exact Hs. simpl. split; [reflexivity |]. split.
    + intros h' r'. split; [auto |]. intros [[-> ->] | H]; assumption.
    + apply isSeen_old, Hs.
  - rewrite isSeen_new by exact Hs. simpl. split; [reflexivity |]. split.
    + intros h' r'. apply has_seen_record_pair.
    + apply isSeen_old. simpl. apply has_seen_record_pair. left. split; reflexivity.
Qed.

Lemma record_pair_comm (h1 r1 h2 r2 : string) (seen : gmap string (gset string)) :
  record_pair h1 r1 (record_pair h2 r2 seen)
  = record_pair h2 r2 (record_pair h1 r1 seen).
Proof.
  unfold record_pair. destruct (decide (h1 = h2)) as [-> | Hne].
  - rewrite !lookup_insert_eq, !insert_insert_eq. simpl. f_equal.
    rewrite !(assoc_L (∪)). f_equal. apply (comm_L (∪)).
  - rewrite !lookup_insert_ne by congruence.
    apply insert_insert_ne. congruence.
Qed.

(** X5. The order in which two pairs are offered to [isSeen] does not
    matter: both orders leave the same deduper (seen set and counter), and
    the answer for one pair does not depend on whether the other, different
    pair was offered first. *)
Theorem isSeen_commutes :
  forall (h1 r1 h2 r2 : string) (i : IndexDeduper),
    snd (isSeen h2 r2 (snd (isSeen h1 r1 i)))
    = snd (isSeen h1 r1 (snd (isSeen h2 r2 i)))
    /\ ((h1, r1) <> (h2, r2) ->
        fst (isSeen h2 r2 (snd (isSeen h1 r1 i))) = fst (isSeen h2 r2 i)).
Proof.
  intros h1 r1 h2 r2 i.
  destruct (decide ((h1, r1) = (h2, r2))) as [[= -> ->] | Hne].
  { split; [reflexivity | contradiction]. }
  assert (Hne' : (h2, r2) <> (h1, r1)) by congruence.
  destruct (has_seen h1 r1 (seenRangeValues i)) eqn:H1,
           (has_seen h2 r2 (seenRangeValues i)) eqn:H2.
  - rewrite (isSeen_old h1 r1 i), (isSeen_old h2 r2 i) by assumption. simpl.
    rewrite (isSeen_old h1 r1 i), (isSeen_old h2 r2 i) by assumption. auto.
  - rewrite (isSeen_old h1 r1 i), (isSeen_new h2 r2 i) by assumption. simpl.
    rewrite (isSeen_new h2 r2 i) by assumption. simpl.
    rewrite isSeen_old by (simpl; rewrite has_seen_record_other; assumption). auto.
  - rewrite (isSeen_new h1 r1 i), (isSeen_old h2 r2 i) by assumption. simpl.
    rewrite (isSeen_new h1 r1 i) by assumption. simpl.
    rewrite isSeen_old by (simpl; rewrite has_seen_record_other; assumption). auto.
  - rewrite (isSeen_new h1 r1 i), (isSeen_new h2 r2 i) by assumption. simpl.
    rewrite !isSeen_new by (simpl; rewrite has_seen_record_other; assumption).
    simpl. rewrite record_pair_comm. auto.
Qed.

Lemma isSeen_commutes_witness :
  fst (isSeen "h1" "r2" (snd (isSeen "h1" "r1" NewIndexDeduper)))
  = fst (isSeen "h1" "r2" NewIndexDeduper).
Proof.
  apply (proj2 (isSeen_commutes "h1" "r1" "h1" "r2" NewIndexDeduper)). discriminate.
Defined.

Lemma skip_seen_first_unseen (h : string) (entries : list Entry) (i : IndexDeduper) :
  match skip_seen h entries i with
  | (Some e, rest, i') =>
      exists skipped,
        entries = skipped ++ e :: rest
        /\ Forall (fun x => has_seen h (RangeValue x) (seenRangeValues i) = true) skipped
        /\ has_seen h (RangeValue e) (seenRangeValues i) = false
        /\ i' = snd (isSeen h (RangeValue e) i)
  | (None, rest, i') =>
      rest = []
      /\ Forall (fun x => has_seen h (RangeValue x) (seenRangeValues i) = true) entries
      /\ i' = i
  end.
Proof.
  induction entries as [| e0 tl IH]; cbn [skip_seen].
  - split; [reflexivity |]. split; [constructor | reflexivity].
  - destruct (has_seen h (RangeValue e0) (seenRangeValues i)) eqn:Hs.
    + rewrite isSeen_old by exact Hs.
      destruct (skip_seen h tl i) as [[[e |] rest] i'].
      * destruct IH as (skipped & -> & Hall & He & ->).
        exists (e0 :: skipped). split; [reflexivity |].
        split; [constructor; assumption |]. split; [exact He | reflexivity].
      * destruct IH as (-> & Hall & ->). split; [reflexivity |].
        split; [constructor; assumption | reflexivity].
    + rewrite isSeen_new by exact Hs.
      exists []. split; [reflexivity |]. split; [constructor |].
      split; [exact Hs |]. rewrite isSeen_new by exact Hs. reflexivity.
Qed.

(** X6. [filteringBatchIter.Next] stops on the first entry ahead whose
    (hash value, range value) pair is not recorded yet: everything it
    passed over was recorded already, the entries after the one it stops
    on are left ahead untouched, and the deduper changes only by recording
    that one pair.  It returns [false] only with every entry ahead recorded
    already, and then leaves the deduper as it was. *)
Theorem Next_stops_on_first_unseen :
  forall (f : filteringBatchIter) (i : IndexDeduper),
    match filteringBatchIter_Next f i with
    | (Some e, f', i') =>
        query f' = query f
        /\ exists skipped,
             inner f = skipped ++ e :: inner f'
             /\ Forall (fun x => has_seen (HashValue (query f)) (RangeValue x)
                                   (seenRangeValues i) = true) skipped
             /\ has_seen (HashValue (query f)) (RangeValue e) (seenRangeValues i) = false
             /\ i' = snd (isSeen (HashValue (query f)) (RangeValue e) i)
    | (None, f', i') =>
        query f' = query f /\ inner f' = []
        /\ Forall (fun x => has_seen (HashValue (query f)) (RangeValue x)
                              (seenRangeValues i) = true) (inner f)
        /\ i' = i
    end.
Proof.
  intros f i. unfold filteringBatchIter_Next.
  pose proof (skip_seen_first_unseen (HashValue (query f)) (inner f) i) as H.
  destruct (skip_seen (HashValue (query f)) (inner f) i) as [[[e |] rest] i']; simpl.
  - split; [reflexivity | exact H].
  - split; [reflexivity | exact H].
Qed.

(** *** Iterating a filtering batch to the end *)

Lemma fresh_entries_skip (h : string) (skipped rest : list Entry) (i : IndexDeduper) :
  Forall (fun x => has_seen h (RangeValue x) (seenRangeValues i) = true) skipped ->
  fresh_entries h (skipped ++ rest) i = fresh_entries h rest i.
Proof.
  induction 1 as [| e l He _ IH]; [reflexivity |].
  cbn [app fresh_entries]. rewrite isSeen_old by exact He. rewrite IH.
  destruct (fresh_entries h rest i). reflexivity.
Qed.

Lemma drain_fresh_entries (q : IndexQuery) (fuel : nat) :
  forall (entries : list Entry) (i : IndexDeduper),
    (length entries < fuel)%nat ->
    drain fuel {| query := q; inner := entries |} i
    = (fst (fresh_entries (HashValue q) entries i),
       {| query := q; inner := [] |},
       snd (fresh_entries (HashValue q) entries i)).
Proof.
  induction fuel as [| fuel IH]; intros entries i Hlen; [lia |].
  cbn [drain]. unfold filteringBatchIter_Next. cbn [query inner].
  pose proof (skip_seen_first_unseen (HashValue q) entries i) as Hskip.
  destruct (skip_seen (HashValue q) entries i) as [[[e |] rest] i'].
  - destruct Hskip as (skipped & -> & Hall & He & ->).
    rewrite fresh_entries_skip by exact Hall. cbn [fresh_entries].
    rewrite (isSeen_new _ _ _ He). cbn [snd].
    rewrite IH by (rewrite length_app in Hlen; simpl in Hlen; lia).
    destruct (fresh_entries (HashValue q) rest _). reflexivity.
  - destruct Hskip as (-> & Hall & ->).
    pose proof (fresh_entries_skip (HashValue q) entries [] i Hall) as E.
    rewrite app_nil_r in E. rewrite E. reflexivity.
Qed.

Lemma fresh_entries_spec (h : string) (entries : list Entry) :
  forall i : IndexDeduper,
    let out := fst (fresh_entries h entries i) in
    let i' := snd (fresh_entries h entries i) in
    sublist out entries
    /\ NoDup (ranges out)
    /\ (forall r : string,
          r ∈ ranges out
          <-> r ∈ ranges entries /\ has_seen h r (seenRangeValues i) = false)
    /\ (forall e : Entry,
          e ∈ out ->
          exists before after,
            entries = before ++ e :: after /\ RangeValue e ∉ ranges before)
    /\ (forall h' r' : string,
          has_seen h' r' (seenRangeValues i') = true
          <-> has_seen h' r' (seenRangeValues i) = true
              \/ (h' = h /\ r' ∈ ranges entries))
    /\ pair_count (seenRangeValues i')
       = (pair_count (seenRangeValues i) + length out)%nat.
Proof.
  induction entries as [| e tl IH]; intros i; cbn zeta.
  - cbn. split; [constructor |]. split; [constructor |].
    split; [intros r; split; [intros Hr; inversion Hr | intros [Hr _]; inversion Hr] |].
    split; [intros e He; inversion He |].
    split; [| lia].
    intros h' r'. split; [auto |]. intros [Hs | [_ Hr]]; [exact Hs | inversion Hr].
  - cbn [fresh_entries].
    destruct (has_seen h (RangeValue e) (seenRangeValues i)) eqn:Hs.
    + rewrite isSeen_old by exact Hs.
      specialize (IH i). cbn zeta in IH.
      destruct (fresh_entries h tl i) as [out i'] eqn:Hf. cbn [fst snd] in *.
      destruct IH as (Hsub & Hnd & Hmem & Hfirst & Hafter & Hcount).
      split; [apply sublist_cons, Hsub |]. split; [exact Hnd |].
      split; [| split; [| split; [| exact Hcount]]].
      * intros r. rewrite Hmem. cbn [ranges map]. rewrite elem_of_cons.
        split; [intros [Hr Hu]; auto |].
        intros [[-> | Hr] Hu]; [congruence | auto].
      * intros e' He'. destruct (Hfirst e' He') as (before & after & -> & Hnot).
        exists (e :: before), after. split; [reflexivity |].
        cbn [ranges map]. rewrite not_elem_of_cons. split; [| exact Hnot].
        intros Heq.
        assert (Hin : RangeValue e' ∈ ranges out)
          by (apply list_elem_of_fmap; eauto).
        apply Hmem in Hin as [_ Hu]. congruence.
      * intros h' r'. rewrite Hafter. cbn [ranges map]. rewrite elem_of_cons.
        split; [intros [H | [Hh Hr]]; auto |].
        intros [H | [-> [-> | Hr]]]; auto.
    + rewrite isSeen_new by exact Hs.
      set (i1 := {| seenRangeValues := record_pair h (RangeValue e) (seenRangeValues i);
                    numEntriesSent := wrap_int (numEntriesSent i + 1) |}).
      specialize (IH i1). cbn zeta in IH.
      destruct (fresh_entries h tl i1) as [out i'] eqn:Hf. cbn [fst snd] in *.
      destruct IH as (Hsub & Hnd & Hmem & Hfirst & Hafter & Hcount).
      assert (Hi1 : forall r, has_seen h r (seenRangeValues i1) = false
                               <-> r <> RangeValue e
                                   /\ has_seen h r (seenRangeValues i) = false).
      { intros r. subst i1. cbn [seenRangeValues].
        destruct (decide (r = RangeValue e)) as [-> | Hne].
        - assert (Ht : has_seen h (RangeValue e)
                         (record_pair h (RangeValue e) (seenRangeValues i)) = true)
            by (apply has_seen_record_pair; left; split; reflexivity).
          rewrite Ht. split; [discriminate | intros [Habs _]; contradiction].
        - rewrite has_seen_record_other by congruence. tauto. }
      split; [apply sublist_skip, Hsub |].
      split; [| split; [| split; [| split]]].
      * cbn [ranges map]. apply NoDup_cons. split; [| exact Hnd].
        intros Hin. apply Hmem in Hin as [_ Hu]. apply Hi1 in Hu as [Habs _].
        contradiction.
      * intros r. cbn [ranges map]. rewrite !elem_of_cons, Hmem, Hi1.
        split.
        -- intros [-> | (Hr & Hne & Hu)]; auto.
        -- intros [[-> | Hr] Hu]; [auto |].
           destruct (decide (r = RangeValue e)); auto.
      * intros e' He'. apply elem_of_cons in He' as [-> | He'].
        -- exists [], tl. split; [reflexivity | intros Habs; inversion Habs].
        -- destruct (Hfirst e' He') as (before & after & -> & Hnot).
           exists (e :: before), after. split; [reflexivity |].
           cbn [ranges map]. rewrite not_elem_of_cons. split; [| exact Hnot].
           assert (Hin : RangeValue e' ∈ ranges out)
             by (apply list_elem_of_fmap; eauto).
           apply Hmem in Hin as [_ Hu]. apply Hi1 in Hu as [Hne _]. exact Hne.
      * intros h' r'. rewrite Hafter. subst i1. cbn [seenRangeValues].
        rewrite has_seen_record_pair. cbn [ranges map]. rewrite elem_of_cons.
        split.
        -- intros [[[-> ->] | H] | [-> Hr]]; auto.
        -- intros [H | [-> [-> | Hr]]]; auto.
      * rewrite Hcount. subst i1. cbn [seenRangeValues length].
        rewrite pair_count_record_pair by exact Hs. lia.
Qed.

(** X7. A consumer that iterates a filtering batch to the end sees, in
    batch order and once each, the first entry of every range value that
    was not recorded for the query's hash value before; entries whose
    range value was recorded, and later entries with a range value already
    met in the batch, are dropped whatever their [Value].  Afterwards the
    pairs recorded are those recorded before together with every range
    value of the batch, the pair count has grown by the number of entries
    seen, and a second pass over the same batch yields nothing. *)
Theorem drain_yields_first_occurrences :
  forall (q : IndexQuery) (b : ReadBatch) (i : IndexDeduper) (fuel : nat),
    (length b < fuel)%nat ->
    let '(out, f', i') := drain fuel (filteringBatch_Iterator q b) i in
    inner f' = []
    /\ sublist out b
    /\ NoDup (ranges out)
    /\ (forall r : string,
          r ∈ ranges out
          <-> r ∈ ranges b /\ has_seen (HashValue q) r (seenRangeValues i) = false)
    /\ (forall e : Entry,
          e ∈ out ->
          exists before after, b = before ++ e :: after /\ RangeValue e ∉ ranges before)
    /\ (forall h' r' : string,
          has_seen h' r' (seenRangeValues i') = true
          <-> has_seen h' r' (seenRangeValues i) = true
              \/ (h' = HashValue q /\ r' ∈ ranges b))
    /\ pair_count (seenRangeValues i')
       = (pair_count (seenRangeValues i) + length out)%nat
    /\ drain fuel (filteringBatch_Iterator q b) i'
       = ([], {| query := q; inner := [] |}, i').
Proof.
  intros q b i fuel Hlen.
  unfold filteringBatch_Iterator, Chunk.Iterator.
  rewrite drain_fresh_entries by exact Hlen.
  destruct (fresh_entries_spec (HashValue q) b i)
    as (Hsub & Hnd & Hmem & Hfirst & Hafter & Hcount).
  split; [reflexivity |]. repeat (split; [assumption |]).
  destruct fuel as [| fuel]; [lia |]. cbn [drain].
  unfold filteringBatchIter_Next. cbn [query inner].
  rewrite Executor.skip_seen_all_seen; [reflexivity |].
  apply Forall_forall. intros e He. apply Hafter. right.
  split; [reflexivity | apply list_elem_of_fmap; eauto].
Qed.

Lemma drain_yields_first_occurrences_witness :
  drain 3 (filteringBatch_Iterator
             (mkIndexQuery "index_1" "h1" "" "" "" false)
             [mkEntry "r1" "v1"; mkEntry "r1" "other"])
    (snd (drain 3 (filteringBatch_Iterator
                     (mkIndexQuery "index_1" "h1" "" "" "" false)
                     [mkEntry "r1" "v1"; mkEntry "r1" "other"])
            NewIndexDeduper))
  = ([], {| query := mkIndexQuery "index_1" "h1" "" "" "" false; inner := [] |},
     snd (drain 3 (filteringBatch_Iterator
                     (mkIndexQuery "index_1" "h1" "" "" "" false)
                     [mkEntry "r1" "v1"; mkEntry "r1" "other"])
            NewIndexDeduper)).
Proof.
  pose proof (drain_yields_first_occurrences
                (mkIndexQuery "index_1" "h1" "" "" "" false)
                [mkEntry "r1" "v1"; mkEntry "r1" "other"] NewIndexDeduper 3
                ltac:(simpl; lia)) as H.
  destruct (drain 3 _ NewIndexDeduper) as [[out f'] i'].
  destruct H as (_ & _ & _ & _ & _ & _ & _ & H). exact H.
Defined.

End DedupProps.

(* ===================================================================== *)
(** ** Further properties: the parallel query executor                     *)
(* ===================================================================== *)

Module ExecutorProps.
Import Chunk Dedup Grouping Executor DedupProps.
Local Open Scope nat_scope.

Section Generic.
Context {U : Type}.

(** A downstream callback body that returns without ever advancing an
    iterator (it may open iterators and touch its own state). *)
Fixpoint never_advances (c : client U) : Prop :=
  match c with
  | Return _ => True
  | OpenIterator k => forall n, never_advances (k n)
  | CallNext _ _ => False
  | Access _ k => forall u, never_advances (k u)
  end.

Lemma run_client_never_advances (c : client U) (q : IndexQuery) (b : ReadBatch) :
  forall (its : list ReadBatchIterator) (w : world U),
    never_advances c ->
    deduper (snd (run_client c its q b w)) = deduper w
    /\ delivered (snd (run_client c its q b w)) = delivered w.
Proof.
  induction c as [continue | kc IH | h kc IH | update kc IH]; intros its w Hc;
    cbn [run_client].
  - split; reflexivity.
  - apply IH, Hc.
  - destruct Hc.
  - match goal with
    | |- context [run_client (kc (user w)) its q b ?w'] =>
        destruct (IH (user w) its w' (Hc (user w))) as [Hd Hl]
    end.
    split; [rewrite Hd | rewrite Hl]; reflexivity.
Qed.

(** X8. Filtering is lazy: [IndexDeduper.Callback] itself records nothing.
    When the downstream callback returns without advancing an iterator of
    its batch, the deduper is left exactly as it was, so none of the
    batch's entries counts as seen and all of them can still be delivered
    by a later batch. *)
Theorem Callback_is_lazy :
  forall (callback : QueryPagesCallback U) (q : IndexQuery) (b : ReadBatch) (w : world U),
    never_advances (callback q) ->
    deduper (snd (Callback callback q b w)) = deduper w
    /\ delivered (snd (Callback callback q b w)) = delivered w
    /\ forall (e : Entry) (f' : filteringBatchIter) (i' : IndexDeduper),
         filteringBatchIter_Next (filteringBatch_Iterator q b) (deduper w)
         = (Some e, f', i') ->
         filteringBatchIter_Next (filteringBatch_Iterator q b)
           (deduper (snd (Callback callback q b w)))
         = (Some e, f', i').
Proof.
  intros callback q b w Hc. unfold Callback.
  match goal with
  | |- context [run_client (callback q) [] q b ?w'] =>
      destruct (run_client_never_advances (callback q) q b [] w' Hc) as [Hd Hl]
  end.
  split; [exact Hd |]. split; [exact Hl |].
  intros e f' i' Hnext. rewrite Hd. exact Hnext.
Qed.

Lemma consistent_counter (w : world U) :
  consistent w ->
  numEntriesSent (deduper w) = wrap_int (Z.of_nat (length (delivered w)))
  /\ ((Z.of_nat (length (delivered w)) <= max_int)%Z ->
      numEntriesSent (deduper w) = Z.of_nat (length (delivered w))).
Proof.
  intros (_ & _ & Hlen & Hcnt). unfold counts_pairs in Hcnt. rewrite <- Hlen in Hcnt.
  split; [exact Hcnt |]. intros Hle. rewrite Hcnt. apply wrap_int_small.
  split; [| exact Hle]. lia.
Qed.

(** X9. At every point of a [DoParallelQueries] call, under every
    schedule, [numEntriesSent] (the "num-entries-sent" value logged when
    the call returns) is the number of entries the filtering iterators
    have let through so far, as a Go [int]; on the synchronous path too. *)
Theorem numEntriesSent_is_entries_let_through :
  forall (tableQuerier : TableQuerier) (queries : list IndexQuery)
         (callback : QueryPagesCallback U) (u : U),
    (forall res : error * world U,
        DoParallelQueries tableQuerier queries callback u = Synchronous res ->
        numEntriesSent (deduper (snd res))
        = wrap_int (Z.of_nat (length (delivered (snd res))))
        /\ ((Z.of_nat (length (delivered (snd res))) <= max_int)%Z ->
            numEntriesSent (deduper (snd res))
            = Z.of_nat (length (delivered (snd res)))))
    /\ (forall (start : config U) (sched : list action) (c : config U),
          DoParallelQueries tableQuerier queries callback u = FanOut start ->
          exec callback sched start = Some c ->
          numEntriesSent (deduper (shared c))
          = wrap_int (Z.of_nat (length (delivered (shared c))))
          /\ ((Z.of_nat (length (delivered (shared c))) <= max_int)%Z ->
              numEntriesSent (deduper (shared c))
              = Z.of_nat (length (delivered (shared c))))).
Proof.
  intros tableQuerier queries callback u. split.
  - intros res Hsync. unfold DoParallelQueries in Hsync.
    destruct (length queries =? 0); [discriminate |].
    destruct (length queries <=? maxQueriesPerGoroutine); [| discriminate].
    injection Hsync as <-. apply consistent_counter.
    apply run_querier_consistent, consistent_new.
  - intros start sched c Hstart Hexec.
    apply fan_out_start in Hstart as (_ & _ & Hcons & _).
    apply consistent_counter. eapply exec_consistent; eauto.
Qed.

(** X10. [QueriesByTable] and [DoParallelQueries] fit together: every
    group of [QueriesByTable] is a non-empty list of queries that all name
    the group's table, so running [DoParallelQueries] on a group never
    takes the empty-list exit and its deduper only ever sees queries of one
    table, as the comment on [IndexDeduper] requires. *)
Theorem groups_run_per_table :
  forall (all : list IndexQuery) (t : string) (group : list IndexQuery)
         (tableQuerier : TableQuerier) (callback : QueryPagesCallback U) (u : U),
    QueriesByTable all !! t = Some group ->
    Forall (fun q => TableName q = t) group
    /\ DoParallelQueries tableQuerier group callback u <> NoQueries
    /\ (length group <= maxQueriesPerGoroutine ->
        DoParallelQueries tableQuerier group callback u
        = Synchronous (run_querier callback (tableQuerier group) (new_world u)))
    /\ (forall start : config U,
          DoParallelQueries tableQuerier group callback u = FanOut start ->
          Forall (fun qs => Forall (fun q => TableName q = t) qs)
            (dispatch (length group) 0 group)).
Proof.
  intros all t group tableQuerier callback u Hgroup.
  assert (Hall : Forall (fun q => TableName q = t) group).
  { apply Forall_forall. intros q Hq.
    apply (QueriesByTable_group_key all t group q Hgroup Hq). }
  assert (Hne : 0 < length group).
  { rewrite QueriesByTable_lookup in Hgroup.
    destruct (for_table t all); [discriminate |]. injection Hgroup as <-. simpl. lia. }
  split; [exact Hall |]. split; [| split].
  - unfold DoParallelQueries.
    destruct (Nat.eqb_spec (length group) 0) as [H0 | _]; [lia |].
    destruct (length group <=? maxQueriesPerGoroutine); discriminate.
  - intros Hle. unfold DoParallelQueries.
    destruct (Nat.eqb_spec (length group) 0) as [H0 | _]; [lia |].
    destruct (Nat.leb_spec (length group) maxQueriesPerGoroutine) as [_ | Hgt];
      [reflexivity | lia].
  - intros start _. apply Forall_forall. intros qs Hqs.
    apply list_elem_of_lookup in Hqs as [k Hk].
    apply dispatch_lookup in Hk as [-> _].
    apply Forall_take, Forall_drop, Hall.
Qed.

End Generic.

(** *** A consumer that collects everything *)

(** A querier that serves the given result pages one after the other,
    whatever the callback answers, and then returns [err]. *)
Fixpoint serve (pages : list (IndexQuery * ReadBatch)) (err : error) : querier :=
  match pages with
  | [] => Finish err
  | (q, b) :: rest => Page q b (fun _ => serve rest err)
  end.

(** The downstream callback that iterates its batch to the end and appends
    every entry to the slice it closes over ([n] bounds the number of
    turns of its loop). *)
Definition collect_all (n : nat) : QueryPagesCallback (list Entry) :=
  fun _ => OpenIterator (collect n).

(** The entries [isSeen] lets through over a sequence of pages, each with
    the hash value of its query. *)
Fixpoint all_fresh (pages : list (IndexQuery * ReadBatch)) (i : IndexDeduper)
    : list (string * Entry) * IndexDeduper :=
  match pages with
  | [] => ([], i)
  | (q, b) :: rest =>
      let '(out, i') := fresh_entries (HashValue q) b i in
      let '(outs, i'') := all_fresh rest i' in
      (map (fun e => (HashValue q, e)) out ++ outs, i'')
  end.

Definition pair_of (p : string * Entry) : string * string := (fst p, RangeValue (snd p)).

Lemma run_client_collect (q : IndexQuery) (b : ReadBatch) (h n : nat) :
  forall (it : ReadBatchIterator) (its : list ReadBatchIterator) (w : world (list Entry)),
    its !! h = Some it ->
    length it < n ->
    run_client (collect n h) its q b w
    = (true,
       {| deduper := snd (fresh_entries (HashValue q) it (deduper w));
          user := user w ++ fst (fresh_entries (HashValue q) it (deduper w));
          delivered :=
            delivered w
              ++ map (fun e => (HashValue q, RangeValue e))
                   (fst (fresh_entries (HashValue q) it (deduper w)));
          invoked := invoked w |}).
Proof.
  induction n as [| n IH]; intros it its w Hh Hlen; [lia |].
  cbn [collect run_client]. rewrite Hh.
  unfold filteringBatchIter_Next. cbn [query inner].
  pose proof (skip_seen_first_unseen (HashValue q) it (deduper w)) as Hskip.
  destruct (skip_seen (HashValue q) it (deduper w)) as [[[e |] rest] i'].
  - destruct Hskip as (skipped & -> & Hall & He & ->).
    rewrite fresh_entries_skip by exact Hall. cbn [fresh_entries].
    rewrite (isSeen_new _ _ _ He). cbn [fst snd run_client user deduper let_through].
    rewrite (IH rest).
    + cbn [deduper user delivered invoked].
      destruct (fresh_entries (HashValue q) rest _) as [out i''].
      cbn [fst snd map]. rewrite <- !app_assoc. reflexivity.
    + apply list_lookup_insert_eq. eapply lookup_lt_Some; eauto.
    + rewrite length_app in Hlen. simpl in Hlen. lia.
  - destruct Hskip as (-> & Hall & ->).
    pose proof (fresh_entries_skip (HashValue q) it [] (deduper w) Hall) as E.
    rewrite app_nil_r in E. rewrite E. cbn [run_client fresh_entries fst snd map].
    rewrite !app_nil_r. destruct w; reflexivity.
Qed.

Lemma run_querier_collect_all (n : nat) (err : error)
    (pages : list (IndexQuery * ReadBatch)) :
  forall w : world (list Entry),
    Forall (fun p => length (snd p) < n) pages ->
    run_querier (collect_all n) (serve pages err) w
    = (err,
       {| deduper := snd (all_fresh pages (deduper w));
          user := user w ++ map snd (fst (all_fresh pages (deduper w)));
          delivered := delivered w ++ map pair_of (fst (all_fresh pages (deduper w)));
          invoked := invoked w ++ pages |}).
Proof.
  induction pages as [| [q b] rest IH]; intros w Hlen.
  - cbn. rewrite !app_nil_r. destruct w; reflexivity.
  - inversion Hlen as [| ? ? Hb Hrest]; subst. cbn [snd] in Hb.
    cbn [serve run_querier]. unfold Callback, collect_all. cbn [run_client].
    unfold filteringBatch_Iterator, Chunk.Iterator. cbn [inner length app].
    rewrite (run_client_collect q b 0 n b) by (reflexivity || exact Hb).
    rewrite IH by exact Hrest.
    cbn [all_fresh deduper user delivered invoked].
    destruct (fresh_entries (HashValue q) b (deduper w)) as [out i'].
    cbn [fst snd].
    destruct (all_fresh rest i') as [outs i''].
    cbn [fst snd]. rewrite !map_app, !map_map. unfold pair_of at 2. cbn [fst snd].
    rewrite <- !app_assoc, map_id. reflexivity.
Qed.

Lemma all_fresh_seen (pages : list (IndexQuery * ReadBatch)) :
  forall (i : IndexDeduper) (h r : string),
    has_seen h r (seenRangeValues (snd (all_fresh pages i))) = true
    <-> has_seen h r (seenRangeValues i) = true
        \/ exists q b, (q, b) ∈ pages /\ HashValue q = h /\ r ∈ ranges b.
Proof.
  induction pages as [| [q b] rest IH]; intros i h r.
  - cbn. split; [auto |]. intros [H | (q & b & Hin & _)]; [exact H | inversion Hin].
  - cbn [all_fresh].
    destruct (fresh_entries_spec (HashValue q) b i) as (_ & _ & _ & _ & Hafter & _).
    destruct (fresh_entries (HashValue q) b i) as [out i'].
    specialize (IH i' h r). destruct (all_fresh rest i') as [outs i''].
    cbn [fst snd] in *. rewrite IH, Hafter. split.
    + intros [[H | [-> Hr]] | (q' & b' & Hin & Hq & Hr)].
      * left. exact H.
      * right. exists q, b. split; [left | auto].
      * right. exists q', b'. split; [right; exact Hin | auto].
    + intros [H | (q' & b' & Hin & Hq & Hr)]; [auto |].
      apply elem_of_cons in Hin as [[= -> ->] | Hin].
      * left. right. auto.
      * right. exists q', b'. auto.
Qed.

(** X11. On the synchronous path, with a downstream callback that iterates
    every batch to the end and collects what it gets: whatever pages the
    querier serves, the callback is invoked once per page, in order, the
    querier's error is returned as it is, and the callback ends up with
    exactly one entry for every (hash value, range value) pair that occurs
    in some page: none is missing and none comes twice. *)
Theorem collecting_callback_gets_each_pair_once :
  forall (n : nat) (pages : list (IndexQuery * ReadBatch)) (err : error)
         (queries : list IndexQuery) (acc : list Entry),
    1 <= length queries <= maxQueriesPerGoroutine ->
    Forall (fun p => length (snd p) < n) pages ->
    exists (w : world (list Entry)) (collected : list (string * Entry)),
      DoParallelQueries (fun _ => serve pages err) queries (collect_all n) acc
      = Synchronous (err, w)
      /\ invoked w = pages
      /\ user w = acc ++ map snd collected
      /\ delivered w = map pair_of collected
      /\ NoDup (map pair_of collected)
      /\ forall h r : string,
           (h, r) ∈ map pair_of collected
           <-> exists q b, (q, b) ∈ pages /\ HashValue q = h /\ r ∈ ranges b.
Proof.
  intros n pages err queries acc Hlen Hpages.
  pose proof (proj1 (DoParallelQueries_dispatch (fun _ => serve pages err) queries
                       (collect_all n) acc) Hlen) as Hsync.
  rewrite Hsync.
  pose proof (run_querier_consistent (collect_all n) (serve pages err) (new_world acc)
                (consistent_new acc)) as (Hnd & Hiff & _).
  rewrite run_querier_collect_all in * by exact Hpages.
  cbn [fst snd deduper user delivered invoked new_world app] in *.
  eexists. exists (fst (all_fresh pages NewIndexDeduper)).
  split; [reflexivity |]. cbn [invoked user delivered].
  split; [reflexivity |]. split; [reflexivity |]. split; [reflexivity |].
  split; [exact Hnd |].
  intros h r. rewrite Hiff, all_fresh_seen. split.
  - intros [H | H]; [| exact H]. discriminate.
  - intros H. right. exact H.
Qed.

Lemma collecting_callback_gets_each_pair_once_witness :
  exists (w : world (list Entry)) (collected : list (string * Entry)),
    DoParallelQueries (fun _ => serve [(q1, [r1]); (q1, [r1; r2])] None) [q1]
      (collect_all 3) []
    = Synchronous (None, w)
    /\ user w = [] ++ map snd collected
    /\ NoDup (map pair_of collected).
Proof.
  destruct (collecting_callback_gets_each_pair_once 3 [(q1, [r1]); (q1, [r1; r2])]
              None [q1] [])
    as (w & collected & Hrun & _ & Huser & _ & Hnd & _).
  - simpl. unfold maxQueriesPerGoroutine. lia.
  - repeat constructor; simpl; lia.
  - exists w, collected. auto.
Defined.

Lemma Callback_is_lazy_witness :
  deduper (snd (Callback (fun _ => Return (U := nat) false) q1 [r1; r2] (new_world 0)))
  = deduper (new_world 0).
Proof.
  apply (proj1 (Callback_is_lazy (fun _ => Return false) q1 [r1; r2] (new_world 0) I)).
Defined.

Lemma groups_run_per_table_witness :
  DoParallelQueries overlapping [q1; q1] collector [] <> NoQueries.
Proof.
  apply (proj1 (proj2 (groups_run_per_table [q1; q1] "index_19000" [q1; q1]
                         overlapping collector [] ltac:(vm_compute; reflexivity)))).
Defined.

Lemma numEntriesSent_is_entries_let_through_witness :
  DoParallelQueries flaky two_slices collector [] = FanOut racing_start
  /\ exists c : config (list Entry),
       exec collector racing racing_start = Some c
       /\ numEntriesSent (deduper (shared c))
          = wrap_int (Z.of_nat (length (delivered (shared c)))).
Proof.
  assert (Hstart : DoParallelQueries flaky two_slices collector [] = FanOut racing_start)
    by (vm_compute; reflexivity).
  split; [exact Hstart |].
  destruct (exec collector racing racing_start) as [c |] eqn:Hexec;
    [| vm_compute in Hexec; discriminate].
  exists c. split; [reflexivity |].
  exact (proj1 (proj2 (numEntriesSent_is_entries_let_through
                         flaky two_slices collector [])
                  racing_start racing c Hstart Hexec)).
Defined.

End ExecutorProps.

(* ===================================================================== *)
(** ** Further properties: the parallel chunk fetcher                      *)
(* ===================================================================== *)

Module FetchProps.
Import Fetch.
Local Open Scope nat_scope.

Section Runs.
Context {Chunk : Type}.

Lemma in_flight_length (ws : list (worker Chunk)) :
  length (in_flight ws) <= length ws.
Proof.
  induction ws as [| w ws IH]; [reflexivity |].
  unfold in_flight in *.
  destruct w; simpl; [apply Nat.le_le_succ_r | apply le_n_S | apply Nat.le_le_succ_r];
    exact IH.
Qed.

Lemma workers_count (maxParallel : Z) (n : nat) :
  Z.to_nat (min maxParallel (Z.of_nat n)) <= n
  /\ (Z.of_nat (Z.to_nat (min maxParallel (Z.of_nat n))) <= Z.max 0 maxParallel)%Z.
Proof. unfold min. destruct (maxParallel <? Z.of_nat n)%Z eqn:E; lia. Qed.

(** X12. Parallelism is bounded: a call has [min(maxParallel, len(chunks))]
    workers (none when that is not positive) from start to end, so never
    more workers than chunks nor than [maxParallel]; and at no point of any
    run are more fetched chunks waiting to be collected than there are
    workers. *)
Theorem parallelism_is_bounded :
  forall (maxParallel : Z) (chunks : list Chunk) (f : fetch Chunk)
         (start : state Chunk) (sched : list fetch_action) (s : state Chunk),
    GetParallelChunks None maxParallel chunks f = Started start ->
    fetch_run f sched start = Some s ->
    length (workers s) = Z.to_nat (min maxParallel (Z.of_nat (length chunks)))
    /\ length (workers s) <= length chunks
    /\ (Z.of_nat (length (workers s)) <= Z.max 0 maxParallel)%Z
    /\ length (in_flight (workers s)) <= length (workers s)
    /\ i s + length (in_flight (workers s)) + length (queued s) = length chunks.
Proof.
  intros maxParallel chunks f start sched s Hstart Hrun.
  destruct (start_invariant _ _ _ _ Hstart) as [Hinv Hws].
  pose proof (exec_workers_length f sched _ _ Hrun) as Hlen.
  pose proof (runs_keep_invariant f chunks sched _ _ Hrun Hinv) as Hs.
  destruct (workers_count maxParallel (length chunks)) as [Hle Hmax].
  rewrite Hlen, Hws. split; [reflexivity |]. split; [exact Hle |].
  split; [exact Hmax |]. split; [rewrite <- Hws, <- Hlen; apply in_flight_length |].
  destruct Hs as [_ Hcnt Hout _ _ _ _].
  apply Permutation_length in Hout. rewrite !length_app, !length_map in Hout. lia.
Qed.

(** *** A single worker keeps the input order *)

Definition in_order (f : fetch Chunk) (chunks : list Chunk) (s : state Chunk) : Prop :=
  observed s ++ in_flight (workers s) ++ map f (queued s) = map f chunks.

Lemma step_in_order (f : fetch Chunk) (chunks : list Chunk) (a : fetch_action)
    (s s' : state Chunk) :
  length (workers s) <= 1 ->
  fetch_step f a s = Some s' -> in_order f chunks s -> in_order f chunks s'.
Proof.
  unfold in_order. intros Hone Hstep Hs.
  destruct (workers s) as [| w0 [| w1 ws]] eqn:Hw; [| | simpl in Hone; lia].
  - destruct a as [w | | w | w]; simpl in Hstep; rewrite ?Hw in Hstep.
    + destruct (queued s); discriminate.
    + destruct (queued s); [| discriminate].
      destruct (closed s); [discriminate |]. injection Hstep as <-. simpl.
      rewrite ?Hw. exact Hs.
    + destruct (closed s); discriminate.
    + destruct (i s <? total s); discriminate.
  - destruct a as [w | | w | w]; simpl in Hstep; rewrite ?Hw in Hstep.
    + destruct (queued s) as [| c rest]; [discriminate |].
      destruct w as [| w]; [| discriminate]. cbn in Hstep.
      destruct w0; try discriminate.
      destruct (f c) as [c' err] eqn:Hf. injection Hstep as <-. cbn in *.
      rewrite Hf in Hs. exact Hs.
    + destruct (queued s); [| discriminate].
      destruct (closed s); [discriminate |]. injection Hstep as <-. simpl.
      rewrite ?Hw. exact Hs.
    + destruct (closed s); [| discriminate].
      destruct w as [| w]; [| discriminate]. cbn in Hstep.
      destruct w0; try discriminate. injection Hstep as <-. cbn in *. exact Hs.
    + destruct (i s <? total s); [| discriminate].
      destruct w as [| w]; [| discriminate]. cbn in Hstep.
      destruct w0 as [| c err |]; try discriminate. injection Hstep as <-. cbn in *.
      rewrite <- app_assoc. exact Hs.
Qed.

Lemma run_in_order (f : fetch Chunk) (chunks : list Chunk) (sched : list fetch_action) :
  forall s s' : state Chunk,
    length (workers s) <= 1 ->
    fetch_run f sched s = Some s' -> in_order f chunks s -> in_order f chunks s'.
Proof.
  induction sched as [| a sched IH]; intros s s' Hone Hrun Hs; simpl in Hrun.
  - injection Hrun as <-. exact Hs.
  - destruct (fetch_step f a s) as [s1 |] eqn:Hstep; [| discriminate].
    apply (IH s1 s'); [| exact Hrun | eapply step_in_order; eauto].
    rewrite (step_workers_length _ _ _ _ Hstep). exact Hone.
Qed.

(** X13. With at most one worker ([maxParallel = 1], or a single chunk)
    the result keeps the input order: the coordinator receives the
    outcomes in input order, the returned slice is the successfully
    fetched chunks in input order, and the returned error is the error of
    the last failing chunk of the input. *)
Theorem single_worker_keeps_order :
  forall (maxParallel : Z) (chunks : list Chunk) (f : fetch Chunk)
         (start : state Chunk) (sched : list fetch_action) (s : state Chunk),
    (maxParallel <= 1)%Z \/ length chunks <= 1 ->
    GetParallelChunks None maxParallel chunks f = Started start ->
    fetch_run f sched start = Some s ->
    fetch_returned s = true ->
    observed s = map f chunks
    /\ result s = successes (map f chunks)
    /\ lastErr s = last (failures (map f chunks)).
Proof.
  intros maxParallel chunks f start sched s Hone Hstart Hrun Hret.
  destruct (start_invariant _ _ _ _ Hstart) as [Hinv Hws].
  assert (Hle : length (workers start) <= 1).
  { rewrite Hws. unfold min. destruct (maxParallel <? Z.of_nat (length chunks))%Z eqn:E; lia. }
  assert (Hord : in_order f chunks start).
  { injection Hstart as <-. unfold in_order. simpl. rewrite in_flight_replicate.
    reflexivity. }
  pose proof (run_in_order f chunks sched _ _ Hle Hrun Hord) as Hs.
  pose proof (runs_keep_invariant f chunks sched _ _ Hrun Hinv) as Hinv'.
  destruct (returned_outcomes f chunks s Hinv' Hret) as (Hf & Hq & _).
  unfold in_order in Hs. rewrite Hf, Hq in Hs. simpl in Hs. rewrite app_nil_r in Hs.
  destruct Hinv' as [_ _ _ Hres Herr _ _].
  rewrite Hres, Herr, Hs. auto.
Qed.

(** *** Every chunk is fetched once *)

(** Number of times a chunk was handed to a worker, that is, of calls
    of [f]. *)
Definition is_call (a : fetch_action) : bool :=
  match a with Hand _ => true | _ => false end.

Definition calls (sched : list fetch_action) : nat :=
  length (filter (fun a => is_call a = true) sched).

Lemma calls_account (f : fetch Chunk) (sched : list fetch_action) :
  forall s s' : state Chunk,
    fetch_run f sched s = Some s' ->
    calls sched + length (queued s') = length (queued s).
Proof.
  induction sched as [| a sched IH]; intros s s' Hrun; simpl in Hrun.
  - injection Hrun as <-. reflexivity.
  - destruct (fetch_step f a s) as [s1 |] eqn:Hstep; [| discriminate].
    specialize (IH s1 s' Hrun). unfold calls in *. rewrite filter_cons.
    destruct a as [w | | w | w]; simpl in Hstep.
    + destruct (queued s) as [| c rest]; [discriminate |].
      destruct (workers s !! w) as [[] |]; try discriminate.
      destruct (f c). injection Hstep as <-.
      rewrite decide_True by reflexivity. simpl in *. lia.
    + destruct (queued s); [| discriminate].
      destruct (closed s); [discriminate |]. injection Hstep as <-.
      rewrite decide_False by discriminate. simpl in *. lia.
    + destruct (closed s); [| discriminate].
      destruct (workers s !! w) as [[] |]; try discriminate.
      injection Hstep as <-. rewrite decide_False by discriminate. simpl in *. lia.
    + destruct (i s <? total s); [| discriminate].
      destruct (workers s !! w) as [[] |]; try discriminate.
      injection Hstep as <-. rewrite decide_False by discriminate. simpl in *. lia.
Qed.

(** X14. No chunk is fetched twice and none is skipped: in every run, [f]
    has been called at most once per chunk still counted, and by the time
    the coordinator returns [f] has been called exactly [len(chunks)]
    times, once for each chunk in queue order, failures included (nothing
    is retried, and a failure does not stop the remaining fetches). *)
Theorem each_chunk_fetched_once :
  forall (maxParallel : Z) (chunks : list Chunk) (f : fetch Chunk)
         (start : state Chunk) (sched : list fetch_action) (s : state Chunk),
    GetParallelChunks None maxParallel chunks f = Started start ->
    fetch_run f sched start = Some s ->
    calls sched + length (queued s) = length chunks
    /\ queued s = drop (calls sched) chunks
    /\ (fetch_returned s = true -> calls sched = length chunks).
Proof.
  intros maxParallel chunks f start sched s Hstart Hrun.
  destruct (start_invariant _ _ _ _ Hstart) as [Hinv _].
  pose proof (runs_keep_invariant f chunks sched _ _ Hrun Hinv) as Hs.
  pose proof (calls_account f sched _ _ Hrun) as Hacc.
  assert (Hq : queued start = chunks) by (injection Hstart as <-; reflexivity).
  rewrite Hq in Hacc. split; [exact Hacc |]. split.
  - clear Hs Hinv Hacc. rewrite <- Hq. clear Hq Hstart.
    revert start Hrun. induction sched as [| a sched IH]; intros s0 Hrun; simpl in Hrun.
    + injection Hrun as <-. reflexivity.
    + destruct (fetch_step f a s0) as [s1 |] eqn:Hstep; [| discriminate].
      rewrite (IH s1 Hrun). unfold calls. rewrite filter_cons.
      destruct a as [w | | w | w]; simpl in Hstep.
      * destruct (queued s0) as [| c rest]; [discriminate |].
        destruct (workers s0 !! w) as [[] |]; try discriminate.
        destruct (f c). injection Hstep as <-.
        rewrite decide_True by reflexivity. reflexivity.
      * destruct (queued s0); [| discriminate].
        destruct (closed s0); [discriminate |]. injection Hstep as <-.
        rewrite decide_False by discriminate. simpl. rewrite !drop_nil. reflexivity.
      * destruct (closed s0); [| discriminate].
        destruct (workers s0 !! w) as [[] |]; try discriminate.
        injection Hstep as <-. rewrite decide_False by discriminate. reflexivity.
      * destruct (i s0 <? total s0); [| discriminate].
        destruct (workers s0 !! w) as [[] |]; try discriminate.
        injection Hstep as <-. rewrite decide_False by discriminate. reflexivity.
  - intros Hret. destruct (returned_outcomes f chunks s Hs Hret) as (_ & Hq' & _).
    rewrite Hq' in Hacc. simpl in Hacc. lia.
Qed.

(** *** Nothing is left behind *)

Lemma alive_nil (ws : list (worker Chunk)) :
  alive ws = [] -> Forall (fun w => w = Finished) ws.
Proof.
  induction ws as [| w ws IH]; intros Hnil; [constructor |].
  destruct w; try discriminate. constructor; [reflexivity | apply IH, Hnil].
Qed.

Lemma alive_cons (ws : list (worker Chunk)) :
  alive ws <> [] -> exists k w, ws !! k = Some w /\ w <> Finished.
Proof.
  induction ws as [| w ws IH]; intros Hne; [contradiction |].
  destruct w as [| c err |].
  - exists 0, Ranging. split; [reflexivity | discriminate].
  - exists 0, (Delivering c err). split; [reflexivity | discriminate].
  - destruct (IH Hne) as (k & w & Hk & Hw). exists (S k), w. auto.
Qed.

Lemma in_flight_lookup (ws : list (worker Chunk)) (k : nat) (c : Chunk) (err : error) :
  ws !! k = Some (Delivering c err) -> in_flight ws <> [].
Proof.
  intros Hk Hnil.
  assert (Hin : (c, err) ∈ in_flight ws).
  { unfold in_flight. apply list_elem_of_omap. exists (Delivering c err).
    split; [eapply list_elem_of_lookup_2; eauto | reflexivity]. }
  rewrite Hnil in Hin. inversion Hin.
Qed.

Lemma leave_all (f : fetch Chunk) (n : nat) :
  forall s : state Chunk,
    length (alive (workers s)) = n ->
    closed s = true -> in_flight (workers s) = [] ->
    exists sched s',
      fetch_run f sched s = Some s'
      /\ closed s' = true /\ queued s' = queued s
      /\ Forall (fun w => w = Finished) (workers s')
      /\ i s' = i s /\ result s' = result s /\ lastErr s' = lastErr s
      /\ observed s' = observed s.
Proof.
  induction n as [| n IH]; intros s Hn Hclosed Hflight.
  - exists [], s. split; [reflexivity |]. split; [exact Hclosed |].
    split; [reflexivity |]. split; [| auto].
    apply alive_nil, length_zero_iff_nil, Hn.
  - destruct (alive_cons (workers s)) as (k & w & Hk & Hw).
    { intros Hnil. rewrite Hnil in Hn. discriminate. }
    destruct w as [| c err |];
      [| exfalso; eapply in_flight_lookup; eauto | congruence].
    set (s1 := {| queued := queued s; closed := true;
                  workers := <[k := Finished]> (workers s);
                  i := i s; total := total s; result := result s;
                  lastErr := lastErr s; observed := observed s |}).
    assert (Hstep : fetch_step f (Leave k) s = Some s1)
      by (cbn; rewrite Hclosed, Hk; reflexivity).
    pose proof (omap_insert_length
                  (fun w => match w with Finished => None | _ => Some tt end)
                  (workers s) k Ranging (Finished (Chunk := Chunk)) Hk) as Halive.
    pose proof (omap_insert_length
                  (fun w => match w with Delivering c err => Some (c, err) | _ => None end)
                  (workers s) k Ranging (Finished (Chunk := Chunk)) Hk) as Hfl.
    simpl in Halive, Hfl.
    destruct (IH s1) as (sched & s' & Hrun & Hc & Hq & Hall & Hi & Hres & Herr & Hobs).
    + unfold alive in *. simpl. lia.
    + reflexivity.
    + apply length_zero_iff_nil. unfold in_flight in *. simpl.
      rewrite Hflight in Hfl. simpl in Hfl. lia.
    + exists (Leave k :: sched), s'. cbn [fetch_run]. rewrite Hstep.
      split; [exact Hrun |]. subst s1. simpl in *. repeat split; assumption.
Qed.

(** X15. No goroutine is left behind by a call that returns: when the
    coordinator returns, no worker is blocked on a send and the queue is
    empty, and the producer and every worker can run to their end without
    the coordinator (the queue gets closed and every worker leaves its
    loop), after which no step of the call remains. *)
Theorem workers_wind_down :
  forall (maxParallel : Z) (chunks : list Chunk) (f : fetch Chunk)
         (start : state Chunk) (sched : list fetch_action) (s : state Chunk),
    GetParallelChunks None maxParallel chunks f = Started start ->
    fetch_run f sched start = Some s ->
    fetch_returned s = true ->
    in_flight (workers s) = [] /\ queued s = []
    /\ exists (sched' : list fetch_action) (s' : state Chunk),
         fetch_run f sched' s = Some s'
         /\ closed s' = true
         /\ Forall (fun w => w = Finished) (workers s')
         /\ result s' = result s /\ lastErr s' = lastErr s
         /\ forall a : fetch_action, fetch_step f a s' = None.
Proof.
  intros maxParallel chunks f start sched s Hstart Hrun Hret.
  destruct (start_invariant _ _ _ _ Hstart) as [Hinv _].
  pose proof (runs_keep_invariant f chunks sched _ _ Hrun Hinv) as Hs.
  destruct (returned_outcomes f chunks s Hs Hret) as (Hflight & Hq & _).
  split; [exact Hflight |]. split; [exact Hq |].
  assert (Hclose : exists pre s1,
             fetch_run f pre s = Some s1 /\ closed s1 = true
             /\ workers s1 = workers s /\ queued s1 = []
             /\ i s1 = i s /\ result s1 = result s /\ lastErr s1 = lastErr s).
  { destruct (closed s) eqn:Hc.
    - exists [], s. split; [reflexivity |]. auto 10.
    - exists [Close]. eexists. cbn. rewrite Hq, Hc. split; [reflexivity |].
      simpl. auto 10. }
  destruct Hclose as (pre & s1 & Hpre & Hc1 & Hw1 & Hq1 & Hi1 & Hres1 & Herr1).
  destruct (leave_all f (length (alive (workers s1))) s1 eq_refl Hc1)
    as (post & s' & Hpost & Hc' & Hq' & Hall & Hi' & Hres' & Herr' & _).
  { rewrite Hw1. exact Hflight. }
  exists (pre ++ post), s'. rewrite (exec_then f pre post _ _ Hpre).
  split; [exact Hpost |]. split; [exact Hc' |]. split; [exact Hall |].
  split; [congruence |]. split; [congruence |].
  intros a. destruct a as [w | | w | w]; unfold fetch_step.
  - rewrite Hq', Hq1. reflexivity.
  - rewrite Hc'. destruct (queued s'); reflexivity.
  - rewrite Hc'. destruct (workers s' !! w) as [x |] eqn:Hw; [| reflexivity].
    rewrite (proj1 (Forall_forall _ _) Hall x); [reflexivity |].
    eapply list_elem_of_lookup_2; eauto.
  - destruct (i s' <? total s'); [| reflexivity].
    destruct (workers s' !! w) as [x |] eqn:Hw; [| reflexivity].
    rewrite (proj1 (Forall_forall _ _) Hall x); [reflexivity |].
    eapply list_elem_of_lookup_2; eauto.
Qed.

End Runs.

(** *** Scenarios *)

(** The call on five chunks with two workers, and with one. *)
Definition started (maxParallel : Z) : state nat :=
  {| queued := five; closed := false;
     workers := replicate (Z.to_nat (min maxParallel 5)) Ranging;
     i := 0; total := 5; result := []; lastErr := None; observed := [] |}.

(** One worker: every chunk is fetched, then collected. *)
Definition one_worker : list fetch_action :=
  [Hand 0; Collect 0; Hand 0; Collect 0; Hand 0; Collect 0; Hand 0; Collect 0;
   Hand 0; Collect 0].

Definition ended (maxParallel : Z) (sched : list fetch_action) : state nat :=
  default (started maxParallel) (fetch_run third_fails sched (started maxParallel)).

Lemma parallelism_is_bounded_witness :
  length (workers (ended 2 two_workers)) = 2
  /\ length (workers (ended 2 two_workers)) <= length five
  /\ (Z.of_nat (length (workers (ended 2 two_workers))) <= Z.max 0 2)%Z
  /\ length (in_flight (workers (ended 2 two_workers)))
     <= length (workers (ended 2 two_workers))
  /\ i (ended 2 two_workers) + length (in_flight (workers (ended 2 two_workers)))
     + length (queued (ended 2 two_workers)) = length five.
Proof.
  apply (parallelism_is_bounded 2 five third_fails (started 2) two_workers);
    vm_compute; reflexivity.
Defined.

Lemma single_worker_keeps_order_witness :
  observed (ended 1 one_worker) = map third_fails five
  /\ result (ended 1 one_worker) = [1; 2; 4; 5]
  /\ lastErr (ended 1 one_worker) = Some "object not found".
Proof.
  apply (single_worker_keeps_order 1 five third_fails (started 1) one_worker).
  - left. lia.
  - vm_compute; reflexivity.
  - vm_compute; reflexivity.
  - vm_compute; reflexivity.
Defined.

Lemma each_chunk_fetched_once_witness :
  calls two_workers + length (queued (ended 2 two_workers)) = length five
  /\ queued (ended 2 two_workers) = drop (calls two_workers) five
  /\ (fetch_returned (ended 2 two_workers) = true ->
      calls two_workers = length five).
Proof.
  apply (each_chunk_fetched_once 2 five third_fails (started 2) two_workers);
    vm_compute; reflexivity.
Defined.

Lemma workers_wind_down_witness :
  in_flight (workers (ended 1 one_worker)) = []
  /\ queued (ended 1 one_worker) = []
  /\ exists (sched' : list fetch_action) (s' : state nat),
       fetch_run third_fails sched' (ended 1 one_worker) = Some s'
       /\ closed s' = true
       /\ Forall (fun w => w = Finished) (workers s')
       /\ result s' = result (ended 1 one_worker)
       /\ lastErr s' = lastErr (ended 1 one_worker)
       /\ forall a : fetch_action, fetch_step third_fails a s' = None.
Proof.
  apply (workers_wind_down 1 five third_fails (started 1) one_worker);
    vm_compute; reflexivity.
Defined.

End FetchProps.
